(** * The LLM Council pipeline of council.js

    A shallow embedding of the ranking parser, the ranking validator, the
    weighted aggregator, the disagreement analyzer, the synthesizer and the
    orchestrator, followed by the properties the specification states
    about them.

    Conventions of the embedding.
    - A JavaScript string is the list of its UTF-16 code units ([N]).
    - A plain object used as a map is an association list in insertion
      order, read through [obj_get], which also sees the property names
      every plain object inherits from [Object.prototype].
    - Numbers are exact rationals ([Q]); the rounding error of IEEE double
      arithmetic is not modelled.  The source computes in doubles, and a
      double next to a rounding boundary can fall on the other side of it
      than the exact value does: the mean 1.025 is the double
      1.02499999999999991, which [Math.round(x * 100) / 100] takes to
      1.02 and [round2] to 1.03.  What is stated for every input about
      a rounded result of the source is therefore stated with a
      tolerance that covers both; statements about integers (positions,
      counts, lengths) are exact.  The one division
      the source leaves unguarded goes through [js_div], which produces
      [NaN] and the infinities.
    - [async] functions run in a state-and-exception monad over the
      trace of external events.  The requests of a [Promise.all] are all
      sent, in order, before any reply is handled; the replies are then
      handled in the order of the requests, the order in which they
      arrive being left out. *)

From Stdlib Require Import String Ascii List Bool Arith NArith ZArith QArith Qround
  Qabs.
From Stdlib Require DecimalString.
From Stdlib Require Import Lia Permutation.
Import ListNotations.

Set Implicit Arguments.

(* ===================================================================== *)
(** * JavaScript strings *)
(* ===================================================================== *)

Definition jsstring := list N.

(** A literal of the source, as code units. *)
Definition js (s : string) : jsstring :=
  map N_of_ascii (list_ascii_of_string s).

Definition str_eqb (a b : jsstring) : bool :=
  if list_eq_dec N.eq_dec a b then true else false.

(** [String.fromCharCode(n)]: the code unit [n] modulo 2^16. *)
Definition fromCharCode (n : N) : jsstring := [(n mod 65536)%N].

(** [s.startsWith(p)]. *)
Fixpoint startsWith (p s : jsstring) : bool :=
  match p, s with
  | [], _ => true
  | _ :: _, [] => false
  | a :: p', b :: s' => N.eqb a b && startsWith p' s'
  end.

(** [s.includes(sub)]. *)
Fixpoint includes (s sub : jsstring) : bool :=
  startsWith sub s ||
  match s with
  | [] => false
  | _ :: s' => includes s' sub
  end.

(** [s.split(sep)] for a non-empty separator: the pieces between the
    successive, non-overlapping occurrences of [sep], scanning from the
    left.  [skip] counts the code units of an occurrence still to pass;
    [acc] is the current piece, reversed. *)
Fixpoint split_go (sep s : jsstring) (skip : nat) (acc : jsstring)
  : list jsstring :=
  match s with
  | [] => [rev acc]
  | c :: s' =>
      match skip with
      | S n => split_go sep s' n acc
      | O =>
          if startsWith sep s
          then rev acc :: split_go sep s' (length sep - 1) []
          else split_go sep s' 0 (c :: acc)
      end
  end.

Definition split (s sep : jsstring) : list jsstring := split_go sep s 0 [].

(** ASCII case mapping.  The patterns below hold ASCII letters only, and
    under the [i] flag a code unit above 127 never canonicalizes to an
    ASCII one, so ASCII folding decides every comparison they make. *)
Definition to_upper (c : N) : N :=
  if ((97 <=? c) && (c <=? 122))%N then (c - 32)%N else c.

Definition to_lower (c : N) : N :=
  if ((65 <=? c) && (c <=? 90))%N then (c + 32)%N else c.

(** [s.toUpperCase()], on the ASCII letters. *)
Definition toUpperCase (s : jsstring) : jsstring := map to_upper s.

(** Array.prototype.join. *)
Fixpoint join (sep : jsstring) (l : list jsstring) : jsstring :=
  match l with
  | [] => []
  | [x] => x
  | x :: rest => x ++ sep ++ join sep rest
  end.

(* ===================================================================== *)
(** * Regular expressions

    The fragment the parser uses: character sets, greedy quantifiers on a
    single character set, concatenation, alternation and one capture
    group; no anchors, no look-around.  Matching is the backtracking
    search of ECMAScript, written in continuation-passing style: the
    continuation receives the rest of the input and the captures so far,
    and a failure of the continuation makes the matcher try its next
    alternative. *)
(* ===================================================================== *)

Inductive cset : Type :=
| CChar (c : N)            (* a literal character *)
| CDigit                   (* \d *)
| CSpace                   (* \s *)
| CRange (lo hi : N).      (* [lo-hi] *)

Inductive regex : Type :=
| REps
| RSet (a : cset)
| RStar (a : cset)         (* a*  *)
| RPlus (a : cset)         (* a+  *)
| ROpt (a : cset)          (* a?  *)
| RCat (r1 r2 : regex)
| RAlt (r1 r2 : regex)
| RGroup (r : regex).      (* ( r ) *)

(** WhiteSpace and LineTerminator code units, the meaning of [\s]. *)
Definition is_space (c : N) : bool :=
  ((9 <=? c) && (c <=? 13) || (c =? 32) || (c =? 160) || (c =? 5760)
   || (8192 <=? c) && (c <=? 8202) || (c =? 8232) || (c =? 8233)
   || (c =? 8239) || (c =? 8287) || (c =? 12288) || (c =? 65279))%N.

Definition in_range (lo hi c : N) : bool := ((lo <=? c) && (c <=? hi))%N.

(** Does code unit [c] belong to the set?  [ic] is the [i] flag. *)
Definition cset_mem (ic : bool) (a : cset) (c : N) : bool :=
  match a with
  | CChar x => if ic then (to_upper x =? to_upper c)%N else (x =? c)%N
  | CDigit => in_range 48 57 c
  | CSpace => is_space c
  | CRange lo hi =>
      if ic then in_range lo hi (to_upper c) || in_range lo hi (to_lower c)
      else in_range lo hi c
  end.

Definition captures := list jsstring.

(** The part of [s] consumed when [rest] is what remains of it. *)
Definition consumed (s rest : jsstring) : jsstring :=
  firstn (length s - length rest) s.

Section Matcher.
Variable A : Type.
Variable ic : bool.

(** Greedy [a*]: take as many as possible, give back one at a time. *)
Fixpoint star_match (a : cset) (s : jsstring) (caps : captures)
  (k : jsstring -> captures -> option A) : option A :=
  match s with
  | [] => k [] caps
  | c :: s' =>
      if cset_mem ic a c then
        match star_match a s' caps k with
        | Some x => Some x
        | None => k s caps
        end
      else k s caps
  end.

Fixpoint rmatch (r : regex) (s : jsstring) (caps : captures)
  (k : jsstring -> captures -> option A) : option A :=
  match r with
  | REps => k s caps
  | RSet a =>
      match s with
      | c :: s' => if cset_mem ic a c then k s' caps else None
      | [] => None
      end
  | RStar a => star_match a s caps k
  | RPlus a =>
      match s with
      | c :: s' => if cset_mem ic a c then star_match a s' caps k else None
      | [] => None
      end
  | ROpt a =>
      match s with
      | c :: s' =>
          if cset_mem ic a c then
            match k s' caps with
            | Some x => Some x
            | None => k s caps
            end
          else k s caps
      | [] => k [] caps
      end
  | RCat r1 r2 =>
      rmatch r1 s caps (fun s1 caps1 => rmatch r2 s1 caps1 k)
  | RAlt r1 r2 =>
      match rmatch r1 s caps k with
      | Some x => Some x
      | None => rmatch r2 s caps k
      end
  | RGroup r1 =>
      rmatch r1 s caps (fun s1 caps1 => k s1 (caps1 ++ [consumed s s1]))
  end.

End Matcher.

(** A successful match: [m[0]], the captured groups, and what follows. *)
Record rmatch_result : Type := mkMatch {
  matched : jsstring;
  groups : captures;
  after : jsstring
}.

(** One attempt at the start of [s]. *)
Definition exec_at (ic : bool) (r : regex) (s : jsstring)
  : option rmatch_result :=
  rmatch ic r s []
    (fun rest caps => Some (mkMatch (consumed s rest) caps rest)).

(** [s.match(r)] without the [g] flag: the leftmost match, or null. *)
Fixpoint str_match (ic : bool) (r : regex) (s : jsstring)
  : option rmatch_result :=
  match exec_at ic r s with
  | Some m => Some m
  | None =>
      match s with
      | [] => None
      | _ :: s' => str_match ic r s'
      end
  end.

(** The successive matches of a global pattern, left to right.  After a
    match of [n > 0] code units the search resumes behind it ([skip]
    counts what is left of the match); after an empty match it resumes one
    code unit further. *)
Fixpoint match_all_go (ic : bool) (r : regex) (s : jsstring) (skip : nat)
  : list jsstring :=
  match s with
  | [] =>
      match skip with
      | S _ => []
      | O =>
          match exec_at ic r [] with
          | Some m => [matched m]
          | None => []
          end
      end
  | _ :: s' =>
      match skip with
      | S n => match_all_go ic r s' n
      | O =>
          match exec_at ic r s with
          | Some m =>
              matched m :: match_all_go ic r s' (length (matched m) - 1)
          | None => match_all_go ic r s' 0
          end
      end
  end.

(** [s.match(r)] with the [g] flag: every match, or null when there is
    none. *)
Definition str_match_g (ic : bool) (r : regex) (s : jsstring)
  : option (list jsstring) :=
  match match_all_go ic r s 0 with
  | [] => None
  | l => Some l
  end.

(** A literal word as a pattern. *)
Fixpoint rlit (s : jsstring) : regex :=
  match s with
  | [] => REps
  | c :: s' => RCat (RSet (CChar c)) (rlit s')
  end.

Definition rseq (l : list regex) : regex := fold_right RCat REps l.

(** [Response [A-Z]] *)
Definition re_label : regex :=
  RCat (rlit (js "Response ")) (RSet (CRange 65 90)).

(** [(HIGH|MEDIUM|LOW)] *)
Definition re_level : regex :=
  RGroup (RAlt (rlit (js "HIGH")) (RAlt (rlit (js "MEDIUM")) (rlit (js "LOW")))).

(** [\d+\.\s*Response [A-Z]\s*\(?(HIGH|MEDIUM|LOW)\)?] *)
Definition re_numbered_confidence : regex :=
  rseq [RPlus CDigit; RSet (CChar 46); RStar CSpace; re_label; RStar CSpace;
        ROpt (CChar 40); re_level; ROpt (CChar 41)].

(** [\((HIGH|MEDIUM|LOW)\)] *)
Definition re_confidence : regex :=
  rseq [RSet (CChar 40); re_level; RSet (CChar 41)].

(** [\d+\.\s*Response [A-Z]] *)
Definition re_numbered : regex :=
  rseq [RPlus CDigit; RSet (CChar 46); RStar CSpace; re_label].

(* ===================================================================== *)
(** * Plain objects used as maps *)
(* ===================================================================== *)

(** The own properties, in creation order. *)
Definition obj (V : Type) := list (jsstring * V).

(** The property names a plain object inherits from [Object.prototype]. *)
Definition Object_prototype_names : list jsstring :=
  map js ["constructor"; "__defineGetter__"; "__defineSetter__";
          "hasOwnProperty"; "__lookupGetter__"; "__lookupSetter__";
          "isPrototypeOf"; "propertyIsEnumerable"; "toString"; "valueOf";
          "__proto__"; "toLocaleString"]%string.

Definition inherited (k : jsstring) : bool :=
  existsb (str_eqb k) Object_prototype_names.

(** What [o[k]] evaluates to: an own value, an inherited member of
    [Object.prototype] (a function or an object: truthy, and not an
    array), or [undefined]. *)
Inductive property (V : Type) : Type :=
| Own (v : V)
| Inherited
| Undefined.
Arguments Inherited {V}.
Arguments Undefined {V}.

Fixpoint own_get {V : Type} (o : obj V) (k : jsstring) : option V :=
  match o with
  | [] => None
  | (k', v) :: o' => if str_eqb k' k then Some v else own_get o' k
  end.

Definition obj_get {V : Type} (o : obj V) (k : jsstring) : property V :=
  match own_get o k with
  | Some v => Own v
  | None => if inherited k then Inherited else Undefined
  end.

(** [o[k] = v] for a name other than [__proto__]: overwrite the own
    property in place, or create it behind the existing ones. *)
Fixpoint obj_set {V : Type} (o : obj V) (k : jsstring) (v : V) : obj V :=
  match o with
  | [] => [(k, v)]
  | (k', v') :: o' =>
      if str_eqb k' k then (k, v) :: o' else (k', v') :: obj_set o' k v
  end.

(** An array index: the canonical decimal form of an integer below
    2^32 - 1. *)
Fixpoint digits_value (s : jsstring) (acc : N) : option N :=
  match s with
  | [] => Some acc
  | c :: s' =>
      if in_range 48 57 c then digits_value s' (acc * 10 + (c - 48))%N
      else None
  end.

Definition array_index (k : jsstring) : option N :=
  match k with
  | [] => None
  | c :: rest =>
      if (c =? 48)%N then
        match rest with [] => Some 0%N | _ :: _ => None end
      else
        match digits_value k 0 with
        | Some n => if (n <=? 4294967294)%N then Some n else None
        | None => None
        end
  end.

Definition is_index (k : jsstring) : bool :=
  match array_index k with Some _ => true | None => false end.

Definition index_of (k : jsstring) : N :=
  match array_index k with Some n => n | None => 0%N end.

Fixpoint insert_index {V : Type} (e : jsstring * V) (l : obj V) : obj V :=
  match l with
  | [] => [e]
  | e' :: l' =>
      if (index_of (fst e) <=? index_of (fst e'))%N then e :: l
      else e' :: insert_index e l'
  end.

(** [Object.entries(o)]: array-index names first, in ascending numeric
    order, then the other names in creation order. *)
Definition Object_entries {V : Type} (o : obj V) : list (jsstring * V) :=
  fold_right insert_index [] (filter (fun e => is_index (fst e)) o)
  ++ filter (fun e => negb (is_index (fst e))) o.

Definition Object_keys {V : Type} (o : obj V) : list jsstring :=
  map fst (Object_entries o).

Definition Object_values {V : Type} (o : obj V) : list V :=
  map snd (Object_entries o).

(* ===================================================================== *)
(** * Parsing a ranking reply *)
(* ===================================================================== *)

Inductive Confidence : Type := HIGH | MEDIUM | LOW.

(** The three strings a confidence entry can hold. *)
Definition Confidence_of_string (s : jsstring) : option Confidence :=
  if str_eqb s (js "HIGH") then Some HIGH
  else if str_eqb s (js "MEDIUM") then Some MEDIUM
  else if str_eqb s (js "LOW") then Some LOW
  else None.

(** [confidenceMatch[1].toUpperCase()].  The group matched
    [HIGH|MEDIUM|LOW] without regard to case, so the last branch is never
    taken (lemma [level_of_group_total]). *)
Definition level_of_group (g : jsstring) : Confidence :=
  match Confidence_of_string (toUpperCase g) with
  | Some c => c
  | None => MEDIUM
  end.

Record ParsedRanking : Type := mkParsed {
  ranking : list jsstring;
  confidenceScores : obj Confidence
}.

Definition parsed_empty : ParsedRanking := mkParsed [] [].

(** [ranking.push(label); confidenceScores[label] = c]. *)
Definition record_label (acc : ParsedRanking) (label : jsstring)
  (c : Confidence) : ParsedRanking :=
  mkParsed (ranking acc ++ [label]) (obj_set (confidenceScores acc) label c).

Definition FINAL_RANKING : jsstring := js "FINAL RANKING:".

(** The body of [numberedMatches.forEach] in the first tier. *)
Definition record_numbered_confidence (acc : ParsedRanking) (m : jsstring)
  : ParsedRanking :=
  match str_match true re_label m with
  | Some labelMatch =>
      let label := matched labelMatch in
      match str_match true re_confidence m with
      | Some confidenceMatch =>
          record_label acc label (level_of_group (nth 0 (groups confidenceMatch) []))
      | None => record_label acc label MEDIUM
      end
  | None => acc
  end.

(** The body of [numberedMatchesSimple.forEach] in the second tier. *)
Definition record_numbered (acc : ParsedRanking) (m : jsstring)
  : ParsedRanking :=
  match str_match false re_label m with
  | Some mt => record_label acc (matched mt) MEDIUM
  | None => acc
  end.

(** The body of [matches.forEach] in the last two tiers. *)
Definition record_plain (acc : ParsedRanking) (label : jsstring)
  : ParsedRanking :=
  record_label acc label MEDIUM.

(** The final fallback: every [Response X] of the whole text. *)
Definition parse_whole_text (text : jsstring) : ParsedRanking :=
  match str_match_g false re_label text with
  | Some matches => fold_left record_plain matches parsed_empty
  | None => parsed_empty
  end.

Definition parseRankingWithConfidence (text : jsstring) : ParsedRanking :=
  if includes text FINAL_RANKING then
    let parts := split text FINAL_RANKING in
    if 2 <=? length parts then
      let rankingSection := nth 1 parts [] in
      match str_match_g true re_numbered_confidence rankingSection with
      | Some numberedMatches =>
          fold_left record_numbered_confidence numberedMatches parsed_empty
      | None =>
          match str_match_g false re_numbered rankingSection with
          | Some numberedMatchesSimple =>
              fold_left record_numbered numberedMatchesSimple parsed_empty
          | None =>
              match str_match_g false re_label rankingSection with
              | Some matches => fold_left record_plain matches parsed_empty
              | None => parse_whole_text text
              end
          end
      end
    else parse_whole_text text
  else parse_whole_text text.

Definition parseRanking (text : jsstring) : list jsstring :=
  ranking (parseRankingWithConfidence text).

(** [new Set(ranking).size] *)
Definition set_size (l : list jsstring) : nat :=
  length (nodup (list_eq_dec N.eq_dec) l).

Definition validateRanking (ranking : list jsstring) (expectedCount : nat)
  : bool :=
  if length ranking =? 0 then false
  else if length ranking <? expectedCount then false
  else if negb (set_size ranking =? length ranking) then false
  else true.

(* ===================================================================== *)
(** * Numbers *)
(* ===================================================================== *)

Definition Qltb (a b : Q) : bool := negb (Qle_bool b a).

Definition Qsum (l : list Q) : Q := fold_left Qplus l 0.

Definition Q_of_nat (n : nat) : Q := inject_Z (Z.of_nat n).

(** [Math.round(x)]: the nearest integer, halves going up. *)
Definition Math_round (x : Q) : Q := inject_Z (Qfloor (x + (1 # 2))).

(** [Math.round(x * 100) / 100], on the exact value of [x]: the result
    is within 0.005 of [x].  On doubles the source can land one hundredth
    away from it when [x * 100] is next to a half. *)
Definition round2 (x : Q) : Q := Math_round (x * 100) / 100.

Definition Qmax (a b : Q) : Q := if Qle_bool a b then b else a.

(** The result of a division that may have a zero divisor. *)
Inductive JsNum : Type :=
| Num (q : Q)
| PosInf
| NegInf
| NaN.

(** [a / b] for finite [a] and a finite, non-negative-zero [b]. *)
Definition js_div (a b : Q) : JsNum :=
  if Qeq_bool b 0 then
    if Qeq_bool a 0 then NaN else if Qltb 0 a then PosInf else NegInf
  else Num (a / b).

(** [1 - x] *)
Definition js_one_minus (x : JsNum) : JsNum :=
  match x with
  | Num q => Num (1 - q)
  | PosInf => NegInf
  | NegInf => PosInf
  | NaN => NaN
  end.

(** [Math.max(0, x)] *)
Definition js_max0 (x : JsNum) : JsNum :=
  match x with
  | Num q => Num (Qmax 0 q)
  | PosInf => PosInf
  | NegInf => Num 0
  | NaN => NaN
  end.

(** [Math.round(x * 100) / 100] *)
Definition js_round2 (x : JsNum) : JsNum :=
  match x with
  | Num q => Num (round2 q)
  | other => other
  end.

(** [Math.sqrt(v)], kept symbolic: the non-negative root of [v]. *)
Inductive Root : Type := Math_sqrt (v : Q).

(** [r > 1.0]; the root of [v] exceeds one exactly when [v] does. *)
Definition exceeds_one (r : Root) : bool :=
  match r with Math_sqrt v => Qltb 1 v end.

(** [Array.prototype.sort(cmp)]: the stable sort.  An element stays in
    front of the later elements that [cmp] does not put before it. *)
Fixpoint sort_insert {A : Type} (cmp : A -> A -> Q) (x : A) (l : list A)
  : list A :=
  match l with
  | [] => [x]
  | y :: l' =>
      if Qle_bool (cmp x y) 0 then x :: l else y :: sort_insert cmp x l'
  end.

Definition js_sort {A : Type} (cmp : A -> A -> Q) (l : list A) : list A :=
  fold_right (sort_insert cmp) [] l.

(* ===================================================================== *)
(** * Exceptions *)
(* ===================================================================== *)

Inductive JsError : Type :=
| Error (message : jsstring)
| TypeError (message : jsstring).

Definition message_of (e : JsError) : jsstring :=
  match e with Error m => m | TypeError m => m end.

Inductive JsResult (A : Type) : Type :=
| Ok (a : A)
| Throw (e : JsError).
Arguments Throw {A}.

Definition rbind {A B : Type} (r : JsResult A) (f : A -> JsResult B)
  : JsResult B :=
  match r with
  | Ok a => f a
  | Throw e => Throw e
  end.

(** A loop over an array whose body may throw. *)
Fixpoint rfold {A St : Type} (f : St -> A -> JsResult St) (l : list A)
  (s : St) : JsResult St :=
  match l with
  | [] => Ok s
  | x :: l' => rbind (f s x) (rfold f l')
  end.

(** [arr.forEach((x, index) => ...)], [index] counting from [from]. *)
Fixpoint rfold_indexed {A St : Type} (f : St -> nat -> A -> JsResult St)
  (l : list A) (from : nat) (s : St) : JsResult St :=
  match l with
  | [] => Ok s
  | x :: l' => rbind (f s from x) (rfold_indexed f l' (S from))
  end.

Definition not_a_function : JsError :=
  TypeError (js "push is not a function").

(* ===================================================================== *)
(** * Records of the data model *)
(* ===================================================================== *)

(** A candidate response; the synthesis result has the same shape. *)
Record Response : Type := mkResponse {
  modelId : jsstring;
  modelName : jsstring;
  content : jsstring
}.

(** A value of [labelToModel]. *)
Record ModelInfo : Type := mkInfo {
  info_modelId : jsstring;
  info_modelName : jsstring
}.

(** What [extractRankingCriteria] returns: the [mentioned] keywords. *)
Definition Criteria := list jsstring.

Record Ranking : Type := mkRanking {
  rk_modelId : jsstring;
  rk_modelName : jsstring;
  fullRanking : jsstring;
  parsedRanking : list jsstring;
  rk_confidenceScores : obj Confidence;
  rankingCriteria : option Criteria;
  isValid : bool;
  error : option jsstring
}.

(** An element of [getAllModelStats()], the fields the aggregator reads. *)
Record ModelStats : Type := mkStats {
  st_modelId : jsstring;
  avgQualityScore : option Q;
  errorRate : Q
}.

(** The [options] argument; an absent field takes its default [true]. *)
Record Options : Type := mkOptions {
  useWeightedAggregation : option bool;
  useConfidenceWeighting : option bool
}.

Definition with_default (o : option bool) : bool :=
  match o with Some b => b | None => true end.

Record WeightedPosition : Type := mkWP {
  position : nat;
  weight : Q
}.

Record ConfidenceDistribution : Type := mkDist {
  dist_HIGH : nat;
  dist_MEDIUM : nat;
  dist_LOW : nat
}.

Record AggregateEntry : Type := mkEntry {
  label : jsstring;
  agg_modelId : jsstring;
  agg_modelName : jsstring;
  avgRank : Q;
  rankingsCount : nat;
  avgConfidence : Q;
  confidenceDistribution : ConfidenceDistribution;
  totalWeight : Q
}.

(* ===================================================================== *)
(** * The aggregator *)
(* ===================================================================== *)

(** [o[k].push(x)] *)
Definition obj_push {A : Type} (o : obj (list A)) (k : jsstring) (x : A)
  : JsResult (obj (list A)) :=
  match obj_get o k with
  | Own arr => Ok (obj_set o k (arr ++ [x]))
  | Inherited => Throw not_a_function
  | Undefined => Throw (TypeError (js "cannot read properties of undefined"))
  end.

(** [new Map(allModelStats.map(s => [s.modelId, s])).get(id)]: a later
    element replaces an earlier one with the same id. *)
Definition Map_get (allModelStats : list ModelStats) (id : jsstring)
  : option ModelStats :=
  find (fun s => str_eqb (st_modelId s) id) (rev allModelStats).

(** The table [confidenceWeights]. *)
Definition confidenceWeights (c : Confidence) : Q :=
  match c with
  | HIGH => 1
  | MEDIUM => 7 # 10
  | LOW => 4 # 10
  end.

(** The weight of one ranking, from the history of its model. *)
Definition modelWeight_of (useWeighted : bool)
  (allModelStats : list ModelStats) (r : Ranking) : Q :=
  if useWeighted then
    match Map_get allModelStats (rk_modelId r) with
    | Some stats =>
        let qualityWeight :=
          match avgQualityScore stats with
          | Some q => if Qeq_bool q 0 then 1 # 2 else q / 100
          | None => 1 # 2
          end in
        let errorPenalty := errorRate stats in
        (1 # 2) + (qualityWeight * (1 - errorPenalty)) * 1
    | None => 1
    end
  else 1.

(** [effectiveWeight] for one label of one ranking. *)
Definition effectiveWeight_of (useConfidence : bool) (modelWeight : Q)
  (scores : obj Confidence) (lbl : jsstring) : Q :=
  if useConfidence then
    match obj_get scores lbl with
    | Own c => modelWeight * confidenceWeights c
    | Inherited => modelWeight * (7 # 10)
    | Undefined => modelWeight
    end
  else modelWeight.

Definition PositionTable := obj (list WeightedPosition).
Definition ConfidenceTable := obj (list Confidence).

(** The body of the inner [for] loop.  An inherited name is truthy under
    [positionsByLabel] without being an array, so the first [push] throws;
    past it the label is no inherited name and [confidenceScores[label]]
    is the own entry or undefined. *)
Definition record_position (useConfidence : bool) (modelWeight : Q)
  (scores : obj Confidence) (st : PositionTable * ConfidenceTable)
  (index : nat) (lbl : jsstring)
  : JsResult (PositionTable * ConfidenceTable) :=
  let st1 :=
    match obj_get (fst st) lbl with
    | Undefined => (obj_set (fst st) lbl [], obj_set (snd st) lbl [])
    | _ => st
    end in
  let effectiveWeight := effectiveWeight_of useConfidence modelWeight scores lbl in
  rbind (obj_push (fst st1) lbl (mkWP (index + 1) effectiveWeight))
    (fun positionsByLabel =>
  rbind (obj_push (snd st1) lbl
           (match own_get scores lbl with Some c => c | None => MEDIUM end))
    (fun confidenceByLabel =>
  Ok (positionsByLabel, confidenceByLabel))).

(** [!ranking.isValid && ranking.parsedRanking.length === 0] *)
Definition skipped (r : Ranking) : bool :=
  negb (isValid r) && (length (parsedRanking r) =? 0).

(** The body of the outer [for] loop. *)
Definition record_ranking (useWeighted useConfidence : bool)
  (allModelStats : list ModelStats)
  (st : PositionTable * ConfidenceTable) (r : Ranking)
  : JsResult (PositionTable * ConfidenceTable) :=
  if skipped r then Ok st
  else
    rfold_indexed
      (record_position useConfidence
         (modelWeight_of useWeighted allModelStats r) (rk_confidenceScores r))
      (parsedRanking r) 0 st.

Definition count_conf (c : Confidence) (l : list Confidence) : nat :=
  length (filter (fun x => match x, c with
                           | HIGH, HIGH | MEDIUM, MEDIUM | LOW, LOW => true
                           | _, _ => false
                           end) l).

(** The body of the loop over [Object.entries(positionsByLabel)]: the
    entry pushed for a label, if any.  The label is an own name of
    [positionsByLabel], hence no inherited name, and [labelToModel[label]]
    is truthy exactly when it is an own property. *)
Definition aggregate_entry (labelToModel : obj ModelInfo)
  (confidenceByLabel : ConfidenceTable)
  (e : jsstring * list WeightedPosition) : option AggregateEntry :=
  let lbl := fst e in
  let weightedPositions := snd e in
  if 0 <? length weightedPositions then
    match own_get labelToModel lbl with
    | Some info =>
        let totalWeight :=
          fold_left (fun sum wp => sum + weight wp) weightedPositions 0 in
        let weightedSum :=
          fold_left (fun sum wp => sum + Q_of_nat (position wp) * weight wp)
            weightedPositions 0 in
        let avgRank :=
          if Qltb 0 totalWeight then weightedSum / totalWeight else 0 in
        let confidences :=
          match own_get confidenceByLabel lbl with
          | Some l => l
          | None => []
          end in
        let confidenceDist :=
          mkDist (count_conf HIGH confidences) (count_conf MEDIUM confidences)
            (count_conf LOW confidences) in
        let avgConfidence :=
          if 0 <? length confidences then
            (Q_of_nat (dist_HIGH confidenceDist) * 1
             + Q_of_nat (dist_MEDIUM confidenceDist) * (7 # 10)
             + Q_of_nat (dist_LOW confidenceDist) * (4 # 10))
            / Q_of_nat (length confidences)
          else 7 # 10 in
        Some (mkEntry lbl (info_modelId info) (info_modelName info)
                (round2 avgRank) (length weightedPositions)
                (round2 avgConfidence) confidenceDist (round2 totalWeight))
    | None => None
    end
  else None.

Definition filter_map {A B : Type} (f : A -> option B) (l : list A) : list B :=
  flat_map (fun x => match f x with Some y => [y] | None => [] end) l.

Section Aggregator.

(** The performance store, as [getAllModelStats()] reads it. *)
Variable getAllModelStats : unit -> list ModelStats.

Definition calculateAggregateRankings (rankings : list Ranking)
  (labelToModel : obj ModelInfo) (options : Options)
  : JsResult (list AggregateEntry) :=
  let useWeighted := with_default (useWeightedAggregation options) in
  let useConfidence := with_default (useConfidenceWeighting options) in
  let allModelStats := if useWeighted then getAllModelStats tt else [] in
  rbind (rfold (record_ranking useWeighted useConfidence allModelStats)
           rankings ([], []))
    (fun st =>
       let aggregate :=
         filter_map (aggregate_entry labelToModel (snd st))
           (Object_entries (fst st)) in
       Ok (js_sort (fun a b => avgRank a - avgRank b) aggregate)).

End Aggregator.

(* ===================================================================== *)
(** * The disagreement analyzer *)
(* ===================================================================== *)

Record LabelStats : Type := mkLabelStats {
  mean : Q;
  variance : Q;
  stdDev : Root;
  positions : list nat
}.

Record RankRange : Type := mkRange {
  range_min : nat;
  range_max : nat
}.

Record Disagreement : Type := mkDisagreement {
  d_label : jsstring;
  d_modelName : jsstring;
  d_variance : Q;
  d_stdDev : Root;
  d_positions : list nat;
  rankRange : RankRange
}.

Record Contested : Type := mkContested {
  c_label : jsstring;
  c_modelName : jsstring;
  c_variance : Q;
  c_stdDev : Root
}.

Record DisagreementReport : Type := mkReport {
  consensus : JsNum;
  disagreements : list Disagreement;
  mostContested : option Contested;
  positionMatrix : option (obj (list nat))
}.

(** [r.isValid && r.parsedRanking.length > 0] *)
Definition usable (r : Ranking) : bool :=
  isValid r && (0 <? length (parsedRanking r)).

(** The body of [ranking.parsedRanking.forEach]. *)
Definition note_position (pm : obj (list nat)) (index : nat) (lbl : jsstring)
  : JsResult (obj (list nat)) :=
  match obj_get pm lbl with
  | Own arr => Ok (obj_set pm lbl (arr ++ [(index + 1)%nat]))
  | Inherited => Throw not_a_function
  | Undefined => Ok pm
  end.

(** The statistics of a non-empty list of positions.  The mean and the
    variance are exact here.  In doubles two labels of equal variance can
    come out one unit in the last place apart, which decides their order
    in [disagreements] and which of them is [mostContested]; what is
    stated about the two leaves the order of equal variances open. *)
Definition label_stats (ps : list nat) : LabelStats :=
  let n := Q_of_nat (length ps) in
  let mean := fold_left (fun a b => a + Q_of_nat b) ps 0 / n in
  let variance :=
    fold_left (fun sum pos => sum + (Q_of_nat pos - mean) * (Q_of_nat pos - mean))
      ps 0 / n in
  mkLabelStats mean variance (Math_sqrt variance) ps.

(** The body of the [labels.forEach] that fills [variances]; every label
    was given an own entry of [positionMatrix] before. *)
Definition note_variance (pm : obj (list nat)) (vs : obj LabelStats)
  (lbl : jsstring) : obj LabelStats :=
  match own_get pm lbl with
  | Some ps => if length ps =? 0 then vs else obj_set vs lbl (label_stats ps)
  | None => vs
  end.

(** [labelToModel[label]?.modelName || label] *)
Definition display_name (labelToModel : obj ModelInfo) (lbl : jsstring)
  : jsstring :=
  match obj_get labelToModel lbl with
  | Own info =>
      match info_modelName info with
      | [] => lbl
      | name => name
      end
  | _ => lbl
  end.

Definition list_min (l : list nat) : nat := fold_right Nat.min (hd 0%nat l) l.
Definition list_max (l : list nat) : nat := fold_right Nat.max (hd 0%nat l) l.

Definition analyzeDisagreements (rankings : list Ranking)
  (labelToModel : obj ModelInfo) : JsResult DisagreementReport :=
  let validRankings := filter usable rankings in
  if length validRankings <? 2 then
    Ok (mkReport (Num 1) [] None None)
  else
    let labels := Object_keys labelToModel in
    let positionMatrix0 := fold_left (fun pm lbl => obj_set pm lbl []) labels [] in
    rbind (rfold (fun pm r => rfold_indexed note_position (parsedRanking r) 0 pm)
             validRankings positionMatrix0)
      (fun positionMatrix =>
         let variances := fold_left (note_variance positionMatrix) labels [] in
         let mostContested :=
           hd_error (js_sort (fun a b => variance (snd b) - variance (snd a))
                       (Object_entries variances)) in
         let totalVariance :=
           fold_left (fun sum v => sum + variance v) (Object_values variances) 0 in
         let maxPossibleVariance :=
           Q_of_nat (length labels) * Q_of_nat (length labels) / 12 in
         let consensus :=
           js_max0 (js_one_minus
                      (js_div totalVariance
                         (maxPossibleVariance * Q_of_nat (length labels)))) in
         let disagreements :=
           js_sort (fun a b => d_variance b - d_variance a)
             (map (fun e =>
                     mkDisagreement (fst e) (display_name labelToModel (fst e))
                       (variance (snd e)) (stdDev (snd e)) (positions (snd e))
                       (mkRange (list_min (positions (snd e)))
                                (list_max (positions (snd e)))))
                (filter (fun e => exceeds_one (stdDev (snd e)))
                   (Object_entries variances))) in
         Ok (mkReport (js_round2 consensus) disagreements
               (match mostContested with
                | Some mc =>
                    Some (mkContested (fst mc) (display_name labelToModel (fst mc))
                            (variance (snd mc)) (stdDev (snd mc)))
                | None => None
                end)
               (Some positionMatrix))).

(* ===================================================================== *)
(** * Effects: the completion service and the console *)
(* ===================================================================== *)

Record Message : Type := mkMessage {
  role : jsstring;
  msg_content : jsstring
}.

(** What the council module does to the outside world: the completion
    requests it sends and the lines it prints.  What the client does
    within one request (its retries, its own console output) belongs to
    the completion service. *)
Inductive Event : Type :=
| ChatCompletion (model : jsstring) (messages : list Message) (apiKey : jsstring)
| ConsoleError (line : jsstring) (err : JsError)
| ConsoleWarn (line : jsstring).

Definition Trace := list Event.

(** A computation that may throw and that extends the trace of events. *)
Definition M (A : Type) : Type := Trace -> JsResult A * Trace.

Definition mret {A : Type} (a : A) : M A := fun tr => (Ok a, tr).

Definition mthrow {A : Type} (e : JsError) : M A := fun tr => (Throw e, tr).

Definition mbind {A B : Type} (c : M A) (f : A -> M B) : M B :=
  fun tr =>
    match c tr with
    | (Ok a, tr1) => f a tr1
    | (Throw e, tr1) => (Throw e, tr1)
    end.

(** [try { c } catch (error) { h(error) }] *)
Definition mcatch {A : Type} (c : M A) (h : JsError -> M A) : M A :=
  fun tr =>
    match c tr with
    | (Ok a, tr1) => (Ok a, tr1)
    | (Throw e, tr1) => h e tr1
    end.

Definition emit (ev : Event) : M unit := fun tr => (Ok tt, tr ++ [ev]).

(** A synchronous call that may throw. *)
Definition lift {A : Type} (r : JsResult A) : M A := fun tr => (r, tr).

Notation "x <- c ;; k" := (mbind c (fun x => k))
  (at level 61, c at next level, right associativity).
Notation "c ;;; k" := (mbind c (fun _ => k))
  (at level 61, right associativity).

(** The calls [f x] for the elements of [l], one after the other; the
    results are collected by index. *)
Fixpoint mmap {A B : Type} (f : A -> M B) (l : list A) : M (list B) :=
  match l with
  | [] => mret []
  | x :: l' => y <- f x ;; ys <- mmap f l' ;; mret (y :: ys)
  end.

(** [await Promise.all(l.map(async x => ...))] for a callback with one
    [await]: [l.map] runs every callback up to its [await], which is
    [start x] and yields the pending promise, here the outcome it will
    have; only then the promises are settled and the callbacks run on,
    [finish x outcome], in the order of [l]. *)
Definition Promise_all_map {A P B : Type} (start : A -> M P)
  (finish : A -> P -> M B) (l : list A) : M (list B) :=
  pending <- mmap start l ;;
  mmap (fun xp => finish (fst xp) (snd xp)) (combine l pending).

Definition nl : jsstring := [10%N].
Definition dq : jsstring := [34%N].

(** The lines of a template literal. *)
Definition lines (l : list jsstring) : jsstring := join nl l.

(** The decimal form of a count, as a template literal prints it. *)
Definition nat_to_js (n : nat) : jsstring :=
  js (DecimalString.NilZero.string_of_uint (Nat.to_uint n)).

(** [l.map((x, i) => f x i)], [i] counting from [from]. *)
Fixpoint mapi {A B : Type} (f : A -> nat -> B) (l : list A) (from : nat)
  : list B :=
  match l with
  | [] => []
  | x :: l' => f x from :: mapi f l' (S from)
  end.

Record Collected : Type := mkCollected {
  collected_rankings : list Ranking;
  collected_labelToModel : obj ModelInfo
}.

Record InvalidDetail : Type := mkDetail {
  detail_modelName : jsstring;
  detail_error : jsstring
}.

Record RankingValidation : Type := mkValidation {
  totalRankings : nat;
  validRankings : nat;
  invalidRankings : nat;
  invalidDetails : list InvalidDetail
}.

Record CouncilResult : Type := mkCouncil {
  rankings : list Ranking;
  labelToModel : obj ModelInfo;
  aggregateRankings : list AggregateEntry;
  synthesis : Response;
  disagreementAnalysis : DisagreementReport;
  rankingValidation : RankingValidation
}.

(** The prompt of stage 2. *)
Definition rankingPrompt (userQuery responsesText : jsstring) : jsstring :=
  lines
    [js "You are evaluating different responses to the following question:";
     [];
     js "Question: " ++ userQuery;
     [];
     js "Here are the responses from different models (anonymized):";
     [];
     responsesText;
     [];
     js "Your task:";
     js "1. First, evaluate each response individually. For each response, explain:";
     js "   - What it does well (strengths)";
     js "   - What it does poorly (weaknesses)";
     js "   - What criteria you're using to evaluate (accuracy, completeness, clarity, relevance, etc.)";
     js "   - Your confidence level in this evaluation (HIGH, MEDIUM, or LOW)";
     js "2. Then, at the very end of your response, provide a final ranking with confidence scores.";
     [];
     js "IMPORTANT: Your final ranking MUST be formatted EXACTLY as follows:";
     js "- Start with the line " ++ dq ++ js "FINAL RANKING:" ++ dq
       ++ js " (all caps, with colon)";
     js "- Then list the responses from best to worst as a numbered list";
     js "- Each line should be: number, period, space, response label, space, confidence in parentheses";
     js "- Format: " ++ dq ++ js "1. Response A (HIGH)" ++ dq ++ js " or "
       ++ dq ++ js "2. Response B (MEDIUM)" ++ dq ++ js " or "
       ++ dq ++ js "3. Response C (LOW)" ++ dq;
     js "- Do not add any other text or explanations in the ranking section";
     [];
     js "Example of the correct format for your ENTIRE response:";
     [];
     js "Response A provides good detail on X but misses Y. Criteria: accuracy (good), completeness (partial). Confidence: MEDIUM.";
     js "Response B is accurate but lacks depth on Z. Criteria: accuracy (excellent), depth (lacking). Confidence: HIGH.";
     js "Response C offers the most comprehensive answer. Criteria: all aspects strong. Confidence: HIGH.";
     [];
     js "FINAL RANKING:";
     js "1. Response C (HIGH)";
     js "2. Response B (HIGH)";
     js "3. Response A (MEDIUM)";
     [];
     js "Now provide your evaluation and ranking:"].

(** The prompt of stage 3. *)
Definition chairmanPrompt (userQuery stage1Text stage2Text : jsstring)
  : jsstring :=
  lines
    [js "You are the Chairman of an LLM Council. Multiple AI models have provided responses to a user's question, and then ranked each other's responses.";
     [];
     js "Original Question: " ++ userQuery;
     [];
     js "STAGE 1 - Individual Responses:";
     stage1Text;
     [];
     js "STAGE 2 - Peer Rankings:";
     stage2Text;
     [];
     js "Your task as Chairman is to synthesize all of this information into a single, comprehensive, accurate answer to the user's original question. Consider:";
     js "- The individual responses and their insights";
     js "- The peer rankings and what they reveal about response quality";
     js "- Any patterns of agreement or disagreement";
     [];
     js "Provide a clear, well-reasoned final answer that represents the council's collective wisdom:"].

(** [x || fallback] on a string. *)
Definition or_else (x fallback : jsstring) : jsstring :=
  match x with [] => fallback | _ => x end.

(** The [i]-th label: [String.fromCharCode(65 + i)]. *)
Definition label_of_index (i : nat) : jsstring :=
  fromCharCode (65 + N.of_nat i).

(** [responses.map((_, i) => String.fromCharCode(65 + i))] *)
Definition make_labels (responses : list Response) : list jsstring :=
  mapi (fun _ i => label_of_index i) responses 0.

(** The [labels.forEach] that fills [labelToModel]. *)
Definition make_labelToModel (labels : list jsstring)
  (responses : list Response) : obj ModelInfo :=
  fold_left
    (fun o lr =>
       obj_set o (js "Response " ++ fst lr)
         (mkInfo (modelId (snd lr)) (modelName (snd lr))))
    (combine labels responses) [].

(** [chairmanModelId || responses[0].modelId], the argument defaulting to
    null. *)
Definition chairman_of (chairmanModelId : option jsstring)
  (responses : list Response) : jsstring :=
  or_else (match chairmanModelId with Some id => id | None => [] end)
    (match responses with r :: _ => modelId r | [] => [] end).

Section Council.

(** The completion service: the text that
    [extractMessageContent(await sendChatCompletion(model, messages, apiKey))]
    yields, or the error the call throws, given the events before it. *)
Variable completion :
  Trace -> jsstring -> list Message -> jsstring -> JsResult jsstring.

(** The performance store, as [getAllModelStats()] reads it. *)
Variable getAllModelStats : unit -> list ModelStats.

(** [extractRankingCriteria]: a pure scan of the reply for evaluation
    keywords; its result is stored in the ranking and read by no stage. *)
Variable extractRankingCriteria : jsstring -> option Criteria.

(** The call [sendChatCompletion(model, messages, apiKey)] sends the
    request; the promise it returns is settled later, with this outcome. *)
Definition send (model : jsstring) (messages : list Message)
  (apiKey : jsstring) : M (JsResult jsstring) :=
  fun tr =>
    (Ok (completion tr model messages apiKey),
     tr ++ [ChatCompletion model messages apiKey]).

(** [extractMessageContent(await sendChatCompletion(model, messages,
    apiKey))] where nothing else runs in between. *)
Definition chat (model : jsstring) (messages : list Message)
  (apiKey : jsstring) : M jsstring :=
  fun tr =>
    (completion tr model messages apiKey,
     tr ++ [ChatCompletion model messages apiKey]).

(** The async callback of [responses.map] in [collectRankings], from its
    [await] on: [reply] is the outcome of the request of [r]. *)
Definition rank_with (labelCount : nat) (r : Response)
  (reply : JsResult jsstring) : M Ranking :=
  mcatch
    (content <- lift reply ;;
     let parsed := parseRankingWithConfidence content in
     mret (mkRanking (modelId r) (modelName r) content (ranking parsed)
             (confidenceScores parsed) (extractRankingCriteria content)
             (validateRanking (ranking parsed) labelCount) None))
    (fun error =>
       emit (ConsoleError
               (js "Error getting ranking from " ++ modelName r ++ js ":")
               error) ;;;
       mret (mkRanking (modelId r) (modelName r)
               (js "Error: " ++ message_of error) [] [] None false
               (Some (message_of error)))).

Definition collectRankings (userQuery : jsstring) (responses : list Response)
  (apiKey : jsstring) : M Collected :=
  let labels := make_labels responses in
  let labelToModel := make_labelToModel labels responses in
  let responsesText :=
    join (nl ++ nl)
      (map (fun lr => js "Response " ++ fst lr ++ js ":" ++ nl ++ content (snd lr))
         (combine labels responses)) in
  let messages := [mkMessage (js "user") (rankingPrompt userQuery responsesText)] in
  rankings <-
    Promise_all_map (fun r => send (modelId r) messages apiKey)
      (rank_with (length labels)) responses ;;
  mret (mkCollected rankings labelToModel).

(** The messages of the synthesis request. *)
Definition synthesis_messages (userQuery : jsstring)
  (responses : list Response) (rankings : list Ranking) : list Message :=
  let stage1Text :=
    join (nl ++ nl)
      (map (fun r => js "Model: " ++ modelName r ++ nl ++ js "Response: " ++ content r)
         responses) in
  let stage2Text :=
    join (nl ++ nl)
      (map (fun r => js "Model: " ++ rk_modelName r ++ nl ++ js "Ranking: "
                     ++ fullRanking r)
         rankings) in
  [mkMessage (js "user") (chairmanPrompt userQuery stage1Text stage2Text)].

Definition synthesizeFinal (userQuery : jsstring) (responses : list Response)
  (rankings : list Ranking) (chairmanModelId apiKey : jsstring) : M Response :=
  let messages := synthesis_messages userQuery responses rankings in
  mcatch
    (content <- chat chairmanModelId messages apiKey ;;
     let chairmanModel :=
       find (fun r => str_eqb (modelId r) chairmanModelId) responses in
     mret (mkResponse chairmanModelId
             (match chairmanModel with
              | Some r => or_else (modelName r) (js "Chairman")
              | None => js "Chairman"
              end)
             content))
    (fun error =>
       emit (ConsoleError (js "Error in chairman synthesis:") error) ;;;
       mret (mkResponse chairmanModelId (js "Chairman")
               (js "Error synthesizing response: " ++ message_of error))).

(** The error of the first statement of [runCouncil]. *)
Definition InsufficientResponsesError : JsError :=
  Error (js "Council requires at least 2 responses").

Definition runCouncil (userQuery : jsstring) (responses : list Response)
  (apiKey : jsstring) (chairmanModelId : option jsstring) (options : Options)
  : M CouncilResult :=
  if length responses <? 2 then mthrow InsufficientResponsesError
  else
    let chairman := chairman_of chairmanModelId responses in
    collected <- collectRankings userQuery responses apiKey ;;
    let rankings := collected_rankings collected in
    let labelToModel := collected_labelToModel collected in
    let validRankings := filter isValid rankings in
    let invalidRankings := filter (fun r => negb (isValid r)) rankings in
    (if (0 <? length invalidRankings)
        && (length rankings <=? 2 * length invalidRankings)
     then emit (ConsoleWarn
                  (js "Warning: " ++ nat_to_js (length invalidRankings)
                   ++ js " out of " ++ nat_to_js (length rankings)
                   ++ js " rankings are invalid"))
     else mret tt) ;;;
    let chosen :=
      if 0 <? length validRankings then validRankings else rankings in
    aggregateRankings <-
      lift (calculateAggregateRankings getAllModelStats chosen labelToModel options) ;;
    disagreementAnalysis <- lift (analyzeDisagreements chosen labelToModel) ;;
    synthesis <- synthesizeFinal userQuery responses rankings chairman apiKey ;;
    mret (mkCouncil rankings labelToModel aggregateRankings synthesis
            disagreementAnalysis
            (mkValidation (length rankings) (length validRankings)
               (length invalidRankings)
               (map (fun r =>
                       mkDetail (rk_modelName r)
                         (or_else (match error r with Some e => e | None => [] end)
                            (js "Incomplete ranking")))
                  invalidRankings))).

End Council.

(* ===================================================================== *)
(** * Reference notions used by the statements *)
(* ===================================================================== *)

(** The 1-based positions at which [lbl] stands in [parsed], the first
    element having position [from + 1]. *)
Fixpoint positions_in (lbl : jsstring) (parsed : list jsstring) (from : nat)
  : list nat :=
  match parsed with
  | [] => []
  | l :: rest =>
      (if str_eqb l lbl then [S from] else []) ++ positions_in lbl rest (S from)
  end.

(** The positions the rankings of [rs] give to [lbl], ranking after
    ranking. *)
Definition label_positions (lbl : jsstring) (rs : list Ranking) : list nat :=
  flat_map (fun r => positions_in lbl (parsedRanking r) 0) rs.

(** The positions given to [lbl] by the rankings flagged valid. *)
Definition valid_positions (lbl : jsstring) (rs : list Ranking) : list nat :=
  label_positions lbl (filter isValid rs).

Definition arithmetic_mean (l : list nat) : Q :=
  Qsum (map Q_of_nat l) / Q_of_nat (length l).

(** The population variance: the mean squared distance to the mean. *)
Definition population_variance (l : list nat) : Q :=
  Qsum (map (fun x => (Q_of_nat x - arithmetic_mean l) ^ 2) l)
  / Q_of_nat (length l).

(** The sum of the variances of the labels that received a position. *)
Definition total_variance (labelToModel : obj ModelInfo) (rs : list Ranking)
  : Q :=
  Qsum (map (fun lbl => population_variance (valid_positions lbl rs))
          (filter (fun lbl => 0 <? length (valid_positions lbl rs))
             (Object_keys labelToModel))).

(** [labelCount^2 / 12] *)
Definition max_possible_variance (labelCount : nat) : Q :=
  Q_of_nat labelCount ^ 2 / 12.

(** The rankings that are flagged valid and have a non-empty order. *)
Definition valid_count (rs : list Ranking) : nat :=
  length (filter (fun r => isValid r) (filter (fun r => negb (length (parsedRanking r) =? 0)) rs)).

(** An object built by a literal and assignments: its own names are
    distinct and [__proto__], an accessor of the prototype, is not among
    them. *)
Definition plain_object {V : Type} (o : obj V) : Prop :=
  NoDup (map fst o) /\ ~ In (js "__proto__") (map fst o).

(** The number of code units a pattern without quantifier matches. *)
Fixpoint width (r : regex) : option nat :=
  match r with
  | REps => Some 0%nat
  | RSet _ => Some 1%nat
  | RStar _ | RPlus _ | ROpt _ => None
  | RCat r1 r2 =>
      match width r1, width r2 with
      | Some a, Some b => Some (a + b)%nat
      | _, _ => None
      end
  | RAlt r1 r2 =>
      match width r1, width r2 with
      | Some a, Some b => if a =? b then Some a else None
      | _, _ => None
      end
  | RGroup r1 => width r1
  end.

(** An upper-case ASCII letter. *)
Definition is_upper_letter (c : N) : bool := in_range 65 90 c.


(** The array stored under [k], or the empty one. *)
Definition entry_list {A : Type} (o : obj (list A)) (k : jsstring) : list A :=
  match own_get o k with
  | Some l => l
  | None => []
  end.

(** The two tables of the aggregator are in step: the own names of
    [positionsByLabel] are distinct, none of them is an inherited name,
    and each is an own name of [confidenceByLabel] too. *)
Definition tables_ok (st : PositionTable * ConfidenceTable) : Prop :=
  NoDup (map fst (fst st))
  /\ (forall k, In k (map fst (fst st)) -> inherited k = false)
  /\ (forall k, In k (map fst (fst st)) -> In k (map fst (snd st))).

(** The weight the aggregator gives to label [lbl] of ranking [r]. *)
Definition weight_in (useWeighted useConfidence : bool)
  (allModelStats : list ModelStats) (r : Ranking) (lbl : jsstring) : Q :=
  effectiveWeight_of useConfidence (modelWeight_of useWeighted allModelStats r)
    (rk_confidenceScores r) lbl.

(** The weighted positions the rankings of [rs] give to [lbl]. *)
Definition weighted_positions (useWeighted useConfidence : bool)
  (allModelStats : list ModelStats) (lbl : jsstring) (rs : list Ranking)
  : list WeightedPosition :=
  flat_map
    (fun r =>
       map (fun p => mkWP p (weight_in useWeighted useConfidence allModelStats r lbl))
         (positions_in lbl (parsedRanking r) 0))
    rs.

(** No label of the ranking is a name inherited from [Object.prototype]. *)
Definition own_labels (r : Ranking) : Prop :=
  Forall (fun l => inherited l = false) (parsedRanking r).

(** The weighted rank of the specification:
    [sum (position * weight) / sum weight], and 0 when the weights do not
    add up to a positive number. *)
Definition weighted_average (wl : list WeightedPosition) : Q :=
  let totalWeight := fold_left (fun sum wp => sum + weight wp) wl 0 in
  let weightedSum :=
    fold_left (fun sum wp => sum + Q_of_nat (position wp) * weight wp) wl 0 in
  if Qltb 0 totalWeight then weightedSum / totalWeight else 0.

(** Three rankings of two responses, used as a concrete input. *)
Definition vote (id : string) (order : list jsstring) : Ranking :=
  mkRanking (js id) (js id) [] order (map (fun l => (l, HIGH)) order) None
    true None.

Definition two_labels : obj ModelInfo :=
  [(js "Response A", mkInfo (js "m1") (js "Model One"));
   (js "Response B", mkInfo (js "m2") (js "Model Two"))].

Definition three_labels : obj ModelInfo :=
  two_labels ++ [(js "Response C", mkInfo (js "m3") (js "Model Three"))].

Definition three_votes : list Ranking :=
  [vote "m1" [js "Response A"; js "Response B"];
   vote "m2" [js "Response A"; js "Response B"];
   vote "m3" [js "Response B"; js "Response A"]].


Definition unweighted : Options := mkOptions (Some false) (Some false).

(** Is [k] an own name of [o]? *)
Definition has_own {V : Type} (o : obj V) (k : jsstring) : bool :=
  match own_get o k with
  | Some _ => true
  | None => false
  end.

(** A label the analyzer can look up in [pm] without throwing: an own
    name of [pm], or a name that is not inherited. *)
Definition safe_label {V : Type} (pm : obj V) (l : jsstring) : Prop :=
  has_own pm l = true \/ inherited l = false.

(** The decision procedure for [plain_object]. *)
Fixpoint distinct (l : list jsstring) : bool :=
  match l with
  | [] => true
  | x :: rest => negb (existsb (str_eqb x) rest) && distinct rest
  end.

Definition plain_objectb {V : Type} (o : obj V) : bool :=
  distinct (map fst o) && negb (existsb (str_eqb (js "__proto__")) (map fst o)).

(** The decision procedure for [own_labels] over a list of rankings. *)
Definition all_own_labels (rs : list Ranking) : bool :=
  forallb (fun r => forallb (fun l => negb (inherited l)) (parsedRanking r)) rs.

(** The letter of the [i]-th response: the code unit [65 + i]. *)
Definition letter (i : nat) : N := (65 + N.of_nat i)%N.

(** The label map of the specification: the [i]-th response under
    [Response] followed by the [i]-th letter. *)
Definition labels_in_order (responses : list Response) : obj ModelInfo :=
  mapi (fun r i => (js "Response " ++ [letter i],
                    mkInfo (modelId r) (modelName r)))
    responses 0.

(** A label as the parser produces it: ten code units. *)
Definition label_shaped (l : jsstring) : Prop := length l = 10%nat.

Definition response_of (id : string) : Response :=
  mkResponse (js id) (js id) (js "An answer.").

(** A completion service that is down. *)
Definition service_down (tr : Trace) (model : jsstring)
  (messages : list Message) (apiKey : jsstring) : JsResult jsstring :=
  Throw (Error (js "API request failed: 503")).

Definition two_responses : list Response :=
  [response_of "m1"; response_of "m2"].

Definition twenty_seven_responses : list Response :=
  repeat (response_of "m") 27.

(* ===================================================================== *)
(** * The completion client: the messages it sends *)
(* ===================================================================== *)

From Stdlib Require Import Sorting.Sorted Lqa.

Definition CONCISE_COMPLETE_SYSTEM_MESSAGE : jsstring :=
  js "You must provide concise but complete responses. Be brief and direct while ensuring your answer fully addresses the question. Avoid unnecessary elaboration. Aim for 2-3 sentences that are complete and self-contained.".

Definition is_system (m : Message) : bool := str_eqb (role m) (js "system").
Definition is_user (m : Message) : bool := str_eqb (role m) (js "user").

Definition ensureConciseCompleteMessages (messages : list Message)
  : list Message :=
  let hasSystemMessage := existsb is_system messages in
  if hasSystemMessage then
    map (fun msg =>
           if is_system msg then
             mkMessage (role msg)
               (CONCISE_COMPLETE_SYSTEM_MESSAGE ++ nl ++ nl ++ msg_content msg)
           else msg)
      messages
  else mkMessage (js "system") CONCISE_COMPLETE_SYSTEM_MESSAGE :: messages.

(** The index the backward [for] loop of [createRetryPrompt] stops at:
    the last message of role [user], if there is one. *)
Fixpoint lastUserIndex (messages : list Message) : option nat :=
  match messages with
  | [] => None
  | m :: rest =>
      match lastUserIndex rest with
      | Some i => Some (S i)
      | None => if is_user m then Some 0%nat else None
      end
  end.

(** [arr[i] = f(arr[i])] on a copy, [i] being an index of the array. *)
Fixpoint update_at {A : Type} (l : list A) (i : nat) (f : A -> A) : list A :=
  match l, i with
  | [], _ => []
  | x :: rest, O => f x :: rest
  | x :: rest, S j => x :: update_at rest j f
  end.

Definition RETRY_INSTRUCTION : jsstring :=
  js "IMPORTANT: Provide a concise but complete answer in 2-3 sentences. Be brief but ensure your response fully addresses the question.".

Definition createRetryPrompt (originalMessages : list Message)
  : list Message :=
  match lastUserIndex originalMessages with
  | None => originalMessages
  | Some i =>
      update_at originalMessages i
        (fun lastUserMessage =>
           mkMessage (js "user")
             (msg_content lastUserMessage ++ nl ++ nl ++ RETRY_INSTRUCTION))
  end.

(** [createRetryPrompt] applied [k] times. *)
Fixpoint retry_prompt (k : nat) (messages : list Message) : list Message :=
  match k with
  | O => messages
  | S k' => createRetryPrompt (retry_prompt k' messages)
  end.

(* ===================================================================== *)
(** * The completion client: replies and requests *)
(* ===================================================================== *)

(** A value as [response.json()] yields it, and [undefined], which
    reading an absent property gives. *)
#[warnings="-register-all"]
Inductive JsValue : Type :=
| VUndefined
| VNull
| VBool (b : bool)
| VNum (q : Q)
| VStr (s : jsstring)
| VArr (l : list JsValue)
| VObj (o : list (jsstring * JsValue)).

(** The truthiness of a value. *)
Definition truthy (v : JsValue) : bool :=
  match v with
  | VUndefined | VNull => false
  | VBool b => b
  | VNum q => negb (Qeq_bool q 0)
  | VStr s => match s with [] => false | _ => true end
  | VArr _ | VObj _ => true
  end.

Definition nullish (v : JsValue) : bool :=
  match v with
  | VUndefined | VNull => true
  | _ => false
  end.

(** The [TypeError] of reading a property of [undefined] or [null]; the
    wording is the engine's. *)
Definition cannot_read (value name : jsstring) : JsError :=
  TypeError (js "Cannot read properties of " ++ value ++ js " (reading '"
             ++ name ++ js "')").

(** [v.name], for the names the client reads: [choices], [message],
    [content], [finish_reason], [error] and [retryAfter].  No prototype
    defines any of them, so only an object can have one. *)
Definition get_property (v : JsValue) (name : jsstring) : JsResult JsValue :=
  match v with
  | VUndefined => Throw (cannot_read (js "undefined") name)
  | VNull => Throw (cannot_read (js "null") name)
  | VObj o =>
      Ok (match own_get o name with Some x => x | None => VUndefined end)
  | _ => Ok VUndefined
  end.

(** [v[0]]: the first element of an array, the first code unit of a
    string, the property [0] of an object. *)
Definition get_first (v : JsValue) : JsResult JsValue :=
  match v with
  | VUndefined => Throw (cannot_read (js "undefined") (js "0"))
  | VNull => Throw (cannot_read (js "null") (js "0"))
  | VArr l => Ok (match l with x :: _ => x | [] => VUndefined end)
  | VStr s => Ok (match s with c :: _ => VStr [c] | [] => VUndefined end)
  | VObj o =>
      Ok (match own_get o (js "0") with Some x => x | None => VUndefined end)
  | _ => Ok VUndefined
  end.

(** [v?.name] and [v?.[0]] *)
Definition get_optional (v : JsValue) (name : jsstring) : JsResult JsValue :=
  if nullish v then Ok VUndefined else get_property v name.

Definition get_first_optional (v : JsValue) : JsResult JsValue :=
  if nullish v then Ok VUndefined else get_first v.

(** [a || b] *)
Definition js_or (a b : JsValue) : JsValue := if truthy a then a else b.

(** A message as a value: [{role, content}]. *)
Definition message_value (m : Message) : JsValue :=
  VObj [(js "role", VStr (role m)); (js "content", VStr (msg_content m))].

(** [{...base, ...options}]: the own properties of [options], in the
    order in which they are enumerated, are defined on a copy of [base].
    A name [base] has already keeps its place and takes the new value; a
    new name comes behind.  A spread defines data properties, so that
    [__proto__] is a name like any other here. *)
Definition spread {V : Type} (base options : obj V) : obj V :=
  fold_left (fun o e => obj_set o (fst e) (snd e)) (Object_entries options)
    base.

(** [{model: modelId, messages: processedMessages, max_tokens: 200,
    ...options}] *)
Definition requestBody (modelId : jsstring) (processedMessages : list Message)
  (options : obj JsValue) : obj JsValue :=
  spread
    [(js "model", VStr modelId);
     (js "messages", VArr (map message_value processedMessages));
     (js "max_tokens", VNum 200)]
    options.

(** A [POST] request; [request_body] is the object that [JSON.stringify]
    turns into the body. *)
Record Request : Type := mkRequest {
  request_endpoint : jsstring;
  request_headers : obj jsstring;
  request_body : obj JsValue
}.

Inductive ClientEvent : Type :=
| Fetch (request : Request)
| LogError (line : jsstring) (err : JsError).

Definition Log := list ClientEvent.

(** The outcome of [fetch]: the promise is rejected, or it gives a
    response with its [ok] flag, its [status] and the outcome of
    [response.json()]. *)
Inductive FetchOutcome : Type :=
| Rejected (err : JsError)
| Responded (ok : bool) (status : nat) (json : JsResult JsValue).

(** [isTruncated(response)] *)
Definition isTruncated (response : JsValue) : bool :=
  match
    rbind (get_property response (js "choices")) (fun choices =>
    rbind (get_first_optional choices) (fun first =>
    get_optional first (js "finish_reason")))
  with
  | Ok (VStr s) => str_eqb s (js "length")
  | Ok _ => false
  | Throw _ => false
  end.

(** [extractMessageContent(response)]: the value returned and the log. *)
Definition extractMessageContent (response : JsValue) (log : Log)
  : JsValue * Log :=
  match
    rbind (get_property response (js "choices")) (fun choices =>
    rbind (get_first choices) (fun first =>
    rbind (get_optional first (js "message")) (fun message =>
    get_optional message (js "content"))))
  with
  | Ok v => (js_or v (VStr []), log)
  | Throw err =>
      (VStr [],
       log ++ [LogError (js "Failed to extract message content:") err])
  end.

Definition OPENROUTER_BASE_URL : jsstring := js "https://openrouter.ai/api/v1".

Definition maxRetries : nat := 2.

(** What one pass through the loop of [sendChatCompletion] ends in. *)
Inductive PassOutcome : Type :=
| Return (data : JsValue)
| Raise (err : JsError)
| Continue (processedMessages : list Message).

(** What the loop ends in: a [return] or [throw] from its body, or the
    condition [retryCount <= maxRetries] turning false. *)
Inductive LoopOutcome : Type :=
| Returned (result : JsResult JsValue)
| Exited (processedMessages : list Message).

Section Client.

(** [config.useProxy], by its truthiness, and [window.location.origin]. *)
Variable useProxy : bool.
Variable origin : jsstring.

(** The network: the outcome of a [fetch], given what happened before. *)
Variable fetch : Log -> Request -> FetchOutcome.

(** The conversion of a value to a string in [new Error(v)] and in a
    template literal, for a value that is no string. *)
Variable ToString_other : JsValue -> JsResult jsstring.

Definition ToString (v : JsValue) : JsResult jsstring :=
  match v with
  | VStr s => Ok s
  | other => ToString_other other
  end.

(** [throw new Error(v)] *)
Definition throw_Error (v : JsValue) : JsResult JsValue :=
  rbind (ToString v) (fun message => Throw (Error message)).

(** The request of one attempt: the body, with the properties of
    [options] written over the three defaults, the endpoint and the
    headers. *)
Definition request_for (modelId : jsstring) (processedMessages : list Message)
  (apiKey : jsstring) (options : obj JsValue) : Request :=
  let endpoint :=
    if useProxy then js "/api/chat"
    else OPENROUTER_BASE_URL ++ js "/chat/completions" in
  let headers := [(js "Content-Type", js "application/json")] in
  let headers :=
    if useProxy then headers
    else
      obj_set (obj_set (obj_set headers (js "Authorization")
                          (js "Bearer " ++ apiKey))
                 (js "HTTP-Referer") origin)
        (js "X-Title") (js "AI Brainstorm") in
  mkRequest endpoint headers (requestBody modelId processedMessages options).

(** [errorData.error?.message || errorData.error ||
    `API request failed: ${response.status}`], then [throw new Error]. *)
Definition throw_api_error (errorData : JsValue) (status : nat)
  : JsResult JsValue :=
  rbind (get_property errorData (js "error")) (fun err =>
  rbind (get_optional err (js "message")) (fun message =>
  throw_Error
    (js_or message
       (js_or err (VStr (js "API request failed: " ++ nat_to_js status)))))).

(** The statements of the [try] block after a response that is not
    [ok]; they always throw. *)
Definition reject_response (status : nat) (json : JsResult JsValue)
  : JsResult JsValue :=
  let errorData := match json with Ok v => v | Throw _ => VObj [] end in
  rbind (if status =? 429
         then rbind (get_property errorData (js "retryAfter"))
                (fun retryAfter => Ok (truthy retryAfter))
         else Ok false)
    (fun rateLimited =>
       if rateLimited then
         rbind (get_property errorData (js "retryAfter")) (fun retryAfter =>
         rbind (ToString retryAfter) (fun seconds =>
         Throw (Error (js "Rate limit exceeded. Please try again in "
                       ++ seconds ++ js " seconds."))))
       else throw_api_error errorData status).

(** The [catch] block: the error is printed unless this is a retry and
    its message holds [TRUNCATED]; it is thrown again either way. *)
Definition caught (retryCount : nat) (err : JsError) (log : Log)
  : PassOutcome * Log :=
  if (retryCount =? 0) || negb (includes (message_of err) (js "TRUNCATED"))
  then (Raise err, log ++ [LogError (js "OpenRouter API error:") err])
  else (Raise err, log).

(** One pass through the body of the [while] loop. *)
Definition pass (modelId apiKey : jsstring) (options : obj JsValue)
  (retryCount : nat) (processedMessages : list Message) (log : Log)
  : PassOutcome * Log :=
  let request := request_for modelId processedMessages apiKey options in
  let log1 := log ++ [Fetch request] in
  match fetch log request with
  | Rejected err => caught retryCount err log1
  | Responded ok status json =>
      if negb ok then
        match reject_response status json with
        | Ok data => (Return data, log1)
        | Throw err => caught retryCount err log1
        end
      else
        match json with
        | Throw err => caught retryCount err log1
        | Ok data =>
            if isTruncated data && (retryCount <? maxRetries)
            then (Continue (createRetryPrompt processedMessages), log1)
            else (Return data, log1)
        end
  end.

(** The [while] loop; [fuel] bounds the number of passes, [None] meaning
    that it ran out. *)
Fixpoint send_loop (fuel : nat) (modelId apiKey : jsstring)
  (options : obj JsValue) (retryCount : nat)
  (processedMessages : list Message) (log : Log)
  : option (LoopOutcome * Log) :=
  match fuel with
  | O => None
  | S fuel' =>
      if retryCount <=? maxRetries then
        match pass modelId apiKey options retryCount processedMessages log with
        | (Return data, log1) => Some (Returned (Ok data), log1)
        | (Raise err, log1) => Some (Returned (Throw err), log1)
        | (Continue retryMessages, log1) =>
            send_loop fuel' modelId apiKey options (S retryCount) retryMessages
              log1
        end
      else Some (Exited processedMessages, log)
  end.

(** The statements behind the loop: a last attempt, outside any [try]. *)
Definition final_attempt (modelId apiKey : jsstring) (options : obj JsValue)
  (processedMessages : list Message) (log : Log) : JsResult JsValue * Log :=
  let request := request_for modelId processedMessages apiKey options in
  let log1 := log ++ [Fetch request] in
  match fetch log request with
  | Rejected err => (Throw err, log1)
  | Responded ok status json =>
      if negb ok then
        let errorData := match json with Ok v => v | Throw _ => VObj [] end in
        (throw_api_error errorData status, log1)
      else (json, log1)
  end.

(** [sendChatCompletion(modelId, messages, apiKey, options = {})]; an
    absent or empty key is falsy, and a call without [options] has the
    empty object [[]]. *)
Definition sendChatCompletion (fuel : nat) (modelId : jsstring)
  (messages : list Message) (apiKey : jsstring) (options : obj JsValue)
  (log : Log) : option (JsResult JsValue * Log) :=
  if negb useProxy && (match apiKey with [] => true | _ => false end) then
    Some (Throw (Error (js "API key is required")), log)
  else
    let processedMessages := ensureConciseCompleteMessages messages in
    match send_loop fuel modelId apiKey options 0 processedMessages log with
    | Some (Returned result, log1) => Some (result, log1)
    | Some (Exited lastMessages, log1) =>
        Some (final_attempt modelId apiKey options lastMessages log1)
    | None => None
    end.

End Client.

(* ===================================================================== *)
(** * The quality heuristic of the analytics module *)
(* ===================================================================== *)

(** The value of [score] when [calculateQualityScore] reaches its
    [return]: the base of 50 and the four adjustments.  [responseTime] is
    a number or absent; every comparison with an absent one is false. *)
Definition quality_points (response : jsstring) (responseTime : option Q)
  : Z :=
  let score := 50%Z in
  let len := Z.of_nat (length response) in
  let score :=
    if ((50 <? len) && (len <? 2000))%Z then (score + 20)%Z
    else if (len <? 20)%Z then (score - 20)%Z
    else score in
  let score :=
    match responseTime with
    | Some t =>
        if Qltb 0 t && Qltb t 5000 then (score + 10)%Z
        else if Qltb 30000 t then (score - 10)%Z
        else score
    | None => score
    end in
  let score :=
    if includes response (js "?") || includes response (js "!")
    then (score + 5)%Z else score in
  let score :=
    if (1 <? length (split response nl))%nat then (score + 5)%Z else score in
  score.

(** [calculateQualityScore(response, responseTime, error)], [error] by its
    truthiness. *)
Definition calculateQualityScore (response : jsstring)
  (responseTime : option Q) (error : bool) : Z :=
  if error then 0%Z
  else Z.max 0 (Z.min 100 (quality_points response responseTime)).

(* ===================================================================== *)
(** * The performance store of the analytics module *)
(* ===================================================================== *)

(** The models below cover model ids and task types that are no names of
    [Object.prototype].  With such a name the source reaches a built-in
    object instead of an entry of the store, writes to it, and fails with
    a [TypeError] before the store is saved; the model gives the error
    and the store, not the change of the built-in object. *)

Record TaskCount : Type := mkTaskCount {
  tc_count : nat;
  tc_avgQualityScore : Q;
  tc_totalQualityScore : Q;
  tc_qualityScoreCount : nat
}.

(** An entry of [analytics.modelStats]. *)
Record StatsEntry : Type := mkStatsEntry {
  se_modelId : jsstring;
  se_modelName : option jsstring;
  se_totalInteractions : nat;
  se_totalResponseTime : Q;
  se_totalTokens : Q;
  se_totalCost : Q;
  se_totalQualityScore : Q;
  se_qualityScoreCount : nat;
  se_totalUserRating : Q;
  se_userRatingCount : nat;
  se_errorCount : nat;
  se_taskTypes : obj TaskCount;
  se_lastUsed : Q
}.

Record ModelTaskStats : Type := mkModelTaskStats {
  mt_modelId : jsstring;
  mt_modelName : option jsstring;
  mt_count : nat;
  mt_avgQualityScore : Q;
  mt_totalQualityScore : Q;
  mt_qualityScoreCount : nat
}.

(** An entry of [analytics.taskTypeStats]. *)
Record TaskTypeStats : Type := mkTaskTypeStats {
  tt_totalInteractions : nat;
  tt_models : obj ModelTaskStats;
  tt_avgResponseTime : Q;
  tt_totalResponseTime : Q;
  tt_avgQualityScore : Q;
  tt_totalQualityScore : Q;
  tt_qualityScoreCount : nat
}.

(** The argument of [recordInteraction]; an absent field is [None]. *)
Record Interaction : Type := mkInteraction {
  in_modelId : jsstring;
  in_modelName : option jsstring;
  in_taskType : option jsstring;
  in_responseTime : option Q;
  in_promptTokens : option Q;
  in_completionTokens : option Q;
  in_totalTokens : option Q;
  in_cost : option Q;
  in_qualityScore : option Q;
  in_userRating : option Q;
  in_error : option jsstring;
  in_finishReason : option jsstring;
  in_responseLength : option Q
}.

(** The record stored for an interaction. *)
Record InteractionRecord : Type := mkInteractionRecord {
  ir_id : jsstring;
  ir_timestamp : Q;
  ir_modelId : jsstring;
  ir_modelName : option jsstring;
  ir_taskType : jsstring;
  ir_responseTime : Q;
  ir_promptTokens : Q;
  ir_completionTokens : Q;
  ir_totalTokens : Q;
  ir_cost : Q;
  ir_qualityScore : option Q;
  ir_userRating : option Q;
  ir_error : option jsstring;
  ir_finishReason : option jsstring;
  ir_responseLength : Q
}.

(** What is kept under [model_analytics] in [localStorage]. *)
Record Analytics : Type := mkAnalytics {
  an_interactions : list InteractionRecord;
  an_modelStats : obj StatsEntry;
  an_taskTypeStats : obj TaskTypeStats;
  an_lastUpdated : Q
}.

(** The store: the item is absent, or it is what the module saved. *)
Definition Store := option Analytics.

(** What one call reads from the clock and the random generator: the
    times read by [initAnalytics], [getAnalytics], for the record and by
    [saveAnalytics], and the id of the record. *)
Record Readings : Type := mkReadings {
  rd_init : Q;
  rd_read : Q;
  rd_id : jsstring;
  rd_timestamp : Q;
  rd_saved : Q
}.

(** [x || 0], [x || null] on a number, [x || null] and [x || 'general']
    on a string. *)
Definition number_or_0 (x : option Q) : Q :=
  match x with Some q => q | None => 0 end.

Definition number_or_null (x : option Q) : option Q :=
  match x with
  | Some q => if Qeq_bool q 0 then None else Some q
  | None => None
  end.

Definition string_or_null (x : option jsstring) : option jsstring :=
  match x with
  | Some [] => None
  | other => other
  end.

(** [initAnalytics(); JSON.parse(localStorage.getItem(STORAGE_KEY))] with
    the defaults of [getAnalytics]: the data read and the store. *)
Definition getAnalytics (rd : Readings) (store : Store) : Analytics * Store :=
  match store with
  | None =>
      (mkAnalytics [] [] [] (if Qeq_bool (rd_init rd) 0 then rd_read rd
                             else rd_init rd),
       Some (mkAnalytics [] [] [] (rd_init rd)))
  | Some data =>
      (mkAnalytics (an_interactions data) (an_modelStats data)
         (an_taskTypeStats data)
         (if Qeq_bool (an_lastUpdated data) 0 then rd_read rd
          else an_lastUpdated data),
       store)
  end.

(** [updateModelStats(analytics, record)], on [analytics.modelStats]. *)
Definition updateModelStats (modelStats : obj StatsEntry)
  (record : InteractionRecord) : JsResult (obj StatsEntry) :=
  let modelId := ir_modelId record in
  match obj_get modelStats modelId with
  | Inherited =>
      Throw (cannot_read (js "undefined") (ir_taskType record))
  | found =>
      let stats :=
        match found with
        | Own entry => entry
        | _ =>
            mkStatsEntry modelId (ir_modelName record) 0 0 0 0 0 0 0 0 0 []
              (ir_timestamp record)
        end in
      let quality :=
        match ir_qualityScore record with
        | Some q => (se_totalQualityScore stats + q,
                     S (se_qualityScoreCount stats))
        | None => (se_totalQualityScore stats, se_qualityScoreCount stats)
        end in
      let rating :=
        match ir_userRating record with
        | Some u => (se_totalUserRating stats + u,
                     S (se_userRatingCount stats))
        | None => (se_totalUserRating stats, se_userRatingCount stats)
        end in
      let errorCount :=
        match ir_error record with
        | Some _ => S (se_errorCount stats)
        | None => se_errorCount stats
        end in
      let taskTypes :=
        match obj_get (se_taskTypes stats) (ir_taskType record) with
        | Inherited => se_taskTypes stats
        | foundTask =>
            let taskStats :=
              match foundTask with
              | Own t => t
              | _ => mkTaskCount 0 0 0 0
              end in
            obj_set (se_taskTypes stats) (ir_taskType record)
              (match ir_qualityScore record with
               | Some q =>
                   mkTaskCount (S (tc_count taskStats))
                     ((tc_totalQualityScore taskStats + q)
                      / Q_of_nat (S (tc_qualityScoreCount taskStats)))
                     (tc_totalQualityScore taskStats + q)
                     (S (tc_qualityScoreCount taskStats))
               | None =>
                   mkTaskCount (S (tc_count taskStats))
                     (tc_avgQualityScore taskStats)
                     (tc_totalQualityScore taskStats)
                     (tc_qualityScoreCount taskStats)
               end)
        end in
      Ok (obj_set modelStats modelId
            (mkStatsEntry (se_modelId stats) (se_modelName stats)
               (S (se_totalInteractions stats))
               (se_totalResponseTime stats + ir_responseTime record)
               (se_totalTokens stats + ir_totalTokens record)
               (se_totalCost stats + ir_cost record)
               (fst quality) (snd quality) (fst rating) (snd rating)
               errorCount taskTypes (ir_timestamp record)))
  end.

(** [updateTaskTypeStats(analytics, record)], on
    [analytics.taskTypeStats]. *)
Definition updateTaskTypeStats (taskTypeStats : obj TaskTypeStats)
  (record : InteractionRecord) : JsResult (obj TaskTypeStats) :=
  let taskType := ir_taskType record in
  match obj_get taskTypeStats taskType with
  | Inherited => Throw (cannot_read (js "undefined") (ir_modelId record))
  | found =>
      let taskStats :=
        match found with
        | Own t => t
        | _ => mkTaskTypeStats 0 [] 0 0 0 0 0
        end in
      let totalInteractions := S (tt_totalInteractions taskStats) in
      let totalResponseTime :=
        tt_totalResponseTime taskStats + ir_responseTime record in
      let quality :=
        match ir_qualityScore record with
        | Some q =>
            ((tt_totalQualityScore taskStats + q)
             / Q_of_nat (S (tt_qualityScoreCount taskStats)),
             tt_totalQualityScore taskStats + q,
             S (tt_qualityScoreCount taskStats))
        | None =>
            (tt_avgQualityScore taskStats, tt_totalQualityScore taskStats,
             tt_qualityScoreCount taskStats)
        end in
      let models :=
        match obj_get (tt_models taskStats) (ir_modelId record) with
        | Inherited => tt_models taskStats
        | foundModel =>
            let modelTaskStats :=
              match foundModel with
              | Own m => m
              | _ =>
                  mkModelTaskStats (ir_modelId record) (ir_modelName record)
                    0 0 0 0
              end in
            obj_set (tt_models taskStats) (ir_modelId record)
              (match ir_qualityScore record with
               | Some q =>
                   mkModelTaskStats (mt_modelId modelTaskStats)
                     (mt_modelName modelTaskStats)
                     (S (mt_count modelTaskStats))
                     ((mt_totalQualityScore modelTaskStats + q)
                      / Q_of_nat (S (mt_qualityScoreCount modelTaskStats)))
                     (mt_totalQualityScore modelTaskStats + q)
                     (S (mt_qualityScoreCount modelTaskStats))
               | None =>
                   mkModelTaskStats (mt_modelId modelTaskStats)
                     (mt_modelName modelTaskStats)
                     (S (mt_count modelTaskStats))
                     (mt_avgQualityScore modelTaskStats)
                     (mt_totalQualityScore modelTaskStats)
                     (mt_qualityScoreCount modelTaskStats)
               end)
        end in
      Ok (obj_set taskTypeStats taskType
            (mkTaskTypeStats totalInteractions models
               (totalResponseTime / Q_of_nat totalInteractions)
               totalResponseTime
               (fst (fst quality)) (snd (fst quality)) (snd quality)))
  end.

(** [arr.slice(-n)] *)
Definition slice_last {A : Type} (n : nat) (l : list A) : list A :=
  skipn (length l - n) l.

(** [recordInteraction(interaction)]: the record returned, or the error
    thrown, and the store afterwards. *)
Definition recordInteraction (rd : Readings) (interaction : Interaction)
  (store : Store) : JsResult InteractionRecord * Store :=
  let (analytics, store1) := getAnalytics rd store in
  let record :=
    mkInteractionRecord (rd_id rd) (rd_timestamp rd)
      (in_modelId interaction) (in_modelName interaction)
      (match in_taskType interaction with
       | Some (c :: t) => c :: t
       | _ => js "general"
       end)
      (number_or_0 (in_responseTime interaction))
      (number_or_0 (in_promptTokens interaction))
      (number_or_0 (in_completionTokens interaction))
      (number_or_0 (in_totalTokens interaction))
      (number_or_0 (in_cost interaction))
      (number_or_null (in_qualityScore interaction))
      (number_or_null (in_userRating interaction))
      (string_or_null (in_error interaction))
      (string_or_null (in_finishReason interaction))
      (number_or_0 (in_responseLength interaction)) in
  let interactions := an_interactions analytics ++ [record] in
  match updateModelStats (an_modelStats analytics) record with
  | Throw err => (Throw err, store1)
  | Ok modelStats =>
      match updateTaskTypeStats (an_taskTypeStats analytics) record with
      | Throw err => (Throw err, store1)
      | Ok taskTypeStats =>
          let interactions :=
            if (1000 <? length interactions)%nat
            then slice_last 1000 interactions
            else interactions in
          (Ok record,
           Some (mkAnalytics interactions modelStats taskTypeStats
                   (rd_saved rd)))
      end
  end.

(** The fields [getAllModelStats] adds to an entry. *)
Record Averages : Type := mkAverages {
  av_avgResponseTime : Q;
  av_avgQualityScore : option Q;
  av_avgUserRating : option Q;
  av_errorRate : Q;
  av_avgCostPerInteraction : Q
}.

(** [getAllModelStats()]: the entries with their averages, and the
    store. *)
Definition getAllModelStats (rd : Readings) (store : Store)
  : list (StatsEntry * Averages) * Store :=
  let (analytics, store1) := getAnalytics rd store in
  (map (fun stats =>
          (stats,
           mkAverages
             (if (0 <? se_totalInteractions stats)%nat
              then se_totalResponseTime stats
                   / Q_of_nat (se_totalInteractions stats)
              else 0)
             (if (0 <? se_qualityScoreCount stats)%nat
              then Some (se_totalQualityScore stats
                         / Q_of_nat (se_qualityScoreCount stats))
              else None)
             (if (0 <? se_userRatingCount stats)%nat
              then Some (se_totalUserRating stats
                         / Q_of_nat (se_userRatingCount stats))
              else None)
             (if (0 <? se_totalInteractions stats)%nat
              then Q_of_nat (se_errorCount stats)
                   / Q_of_nat (se_totalInteractions stats)
              else 0)
             (if (0 <? se_totalInteractions stats)%nat
              then se_totalCost stats / Q_of_nat (se_totalInteractions stats)
              else 0)))
     (Object_values (an_modelStats analytics)),
   store1).

(** What the council reads of an element of [getAllModelStats()]. *)
Definition read_by_council (s : StatsEntry * Averages) : ModelStats :=
  mkStats (se_modelId (fst s)) (av_avgQualityScore (snd s))
    (av_errorRate (snd s)).

(* ===================================================================== *)
(** * Further notions used by the statements *)
(* ===================================================================== *)

(** An ASCII letter, of either case. *)
Definition is_letter (c : N) : bool := in_range 65 90 c || in_range 97 122 c.

(** A label as the parser cuts it from the text: the word [Response] in
    any case, a space, and one ASCII letter. *)
Definition response_label (l : jsstring) : Prop :=
  exists pre c,
    l = pre ++ [c]
    /\ toUpperCase pre = js "RESPONSE "
    /\ is_letter c = true.

(** The history of a model is in range: a quality score between 0 and
    100, as [calculateQualityScore] clamps it, and an error rate between
    0 and 1. *)
Definition stats_in_range (s : ModelStats) : Prop :=
  match avgQualityScore s with
  | Some q => 0 <= q /\ q <= 100
  | None => True
  end
  /\ 0 <= errorRate s /\ errorRate s <= 1.

(** The confidence the aggregator notes for label [lbl] of ranking [r]:
    [confidenceScores[label] || 'MEDIUM']. *)
Definition confidence_in (r : Ranking) (lbl : jsstring) : Confidence :=
  match own_get (rk_confidenceScores r) lbl with
  | Some c => c
  | None => MEDIUM
  end.

(** The confidences noted for [lbl], one for each position it is given. *)
Definition confidences_of (lbl : jsstring) (rs : list Ranking)
  : list Confidence :=
  flat_map
    (fun r => map (fun _ => confidence_in r lbl)
                (positions_in lbl (parsedRanking r) 0))
    rs.

(** Two rankings cast the same vote: the same model, order and
    confidences.  The texts, the criteria, the validity flag and the
    error may differ. *)
Definition same_vote (r r' : Ranking) : Prop :=
  rk_modelId r = rk_modelId r'
  /\ parsedRanking r = parsedRanking r'
  /\ rk_confidenceScores r = rk_confidenceScores r'.

(** The length of the longest order among the rankings. *)
Definition longest_order (rs : list Ranking) : nat :=
  fold_right Nat.max 0%nat (map (fun r => length (parsedRanking r)) rs).

(** The sum of the weights of a list of weighted positions. *)
Definition weight_sum (wl : list WeightedPosition) : Q :=
  Qsum (map weight wl).

(** A performance store with two models, and the default options. *)
Definition history (_ : unit) : list ModelStats :=
  [mkStats (js "m1") (Some 80) (1 # 10); mkStats (js "m2") None 0].

Definition weighted : Options := mkOptions None None.

(** The statistics the analyzer keeps: for every label of [labelToModel]
    that the valid rankings give a position, the statistics of its
    positions, in the order of the labels. *)
Definition label_variances (labelToModel : obj ModelInfo) (rs : list Ranking)
  : obj LabelStats :=
  map (fun l => (l, label_stats (valid_positions l rs)))
    (filter (fun l => 0 <? length (valid_positions l rs))%nat
       (Object_keys labelToModel)).

(** All usable rankings give the same order. *)
Definition unanimous (order : list jsstring) (rs : list Ranking) : Prop :=
  forall r, In r rs -> usable r = true -> parsedRanking r = order.

(** Two rankings of four responses that disagree on the first and the
    last. *)
Definition four_labels : obj ModelInfo :=
  three_labels ++ [(js "Response D", mkInfo (js "m4") (js "Model Four"))].

Definition split_votes : list Ranking :=
  [vote "m1" [js "Response A"; js "Response B"; js "Response C";
              js "Response D"];
   vote "m2" [js "Response D"; js "Response B"; js "Response C";
              js "Response A"]].

(** Two rankings that agree. *)
Definition agreeing_votes : list Ranking :=
  [vote "m1" [js "Response B"; js "Response A"];
   vote "m2" [js "Response B"; js "Response A"]].

(** The same two rankings, the first with a label that no response
    carries in front. *)
Definition stray_votes : list Ranking :=
  [vote "m1" [js "Response Z"; js "Response B"; js "Response A"];
   vote "m2" [js "Response B"; js "Response A"]].

(** The completion requests of a trace, in order. *)
Definition requests (tr : Trace) : list (jsstring * list Message * jsstring) :=
  filter_map (fun ev => match ev with
                        | ChatCompletion model messages apiKey =>
                            Some (model, messages, apiKey)
                        | _ => None
                        end) tr.

(** The events of the collector: its requests, in the order of the
    responses, then what the handling of each reply has printed. *)
Definition collector_events (messages : list Message) (apiKey : jsstring)
  (responses : list Response) (handled : list (Ranking * Trace)) : Trace :=
  map (fun r => ChatCompletion (modelId r) messages apiKey) responses
  ++ concat (map snd handled).

(** The lines printed by [console.warn]. *)
Definition warnings (tr : Trace) : list jsstring :=
  filter_map (fun ev => match ev with
                        | ConsoleWarn line => Some line
                        | _ => None
                        end) tr.

(** The errors printed by [console.error]. *)
Definition logged_errors (tr : Trace) : list JsError :=
  filter_map (fun ev => match ev with
                        | ConsoleError _ err => Some err
                        | _ => None
                        end) tr.

(** The requests of a log, and the errors it prints. *)
Definition fetches (log : Log) : list Request :=
  filter_map (fun ev => match ev with Fetch r => Some r | _ => None end) log.

Definition printed (log : Log) : list JsError :=
  filter_map (fun ev => match ev with LogError _ e => Some e | _ => None end)
    log.

(** A reply with one choice, its content and its finish reason. *)
Definition reply (text reason : string) : JsValue :=
  VObj [(js "choices",
         VArr [VObj [(js "message",
                      VObj [(js "role", VStr (js "assistant"));
                            (js "content", VStr (js text))]);
                     (js "finish_reason", VStr (js reason))]])].

(** A network that always answers with the same truncated reply, and one
    that refuses every request. *)
Definition always_truncated (_ : Log) (_ : Request) : FetchOutcome :=
  Responded true 200 (Ok (reply "Too long to" "length")).

Definition always_refused (_ : Log) (_ : Request) : FetchOutcome :=
  Responded false 401
    (Ok (VObj [(js "error", VObj [(js "message", VStr (js "No auth"))])])).

Definition no_conversion (_ : JsValue) : JsResult jsstring :=
  Throw (TypeError (js "Cannot convert object to primitive value")).

(** The store after a series of calls of [recordInteraction]. *)
Definition record_all (calls : list (Readings * Interaction)) (store : Store)
  : Store :=
  fold_left (fun s call => snd (recordInteraction (fst call) (snd call) s))
    calls store.

(** A quality score, when given, lies between 0 and 100. *)
Definition scored_in_range (i : Interaction) : Prop :=
  match in_qualityScore i with
  | Some q => 0 <= q /\ q <= 100
  | None => True
  end.

(** Three interactions of two models, one of them failed. *)
Definition at_time (t : Z) : Readings :=
  mkReadings (inject_Z t) (inject_Z t) (js "interaction") (inject_Z t)
    (inject_Z t).

Definition interaction_of (id : string) (score : option Q)
  (err : option jsstring) : Interaction :=
  mkInteraction (js id) (Some (js id)) None (Some 1200) None None (Some 150)
    None score None err None (Some 80).

Definition three_interactions : list (Readings * Interaction) :=
  [(at_time 1000, interaction_of "m1" (Some 85) None);
   (at_time 2000, interaction_of "m2" (Some 0) (Some (js "timeout")));
   (at_time 3000, interaction_of "m1" (Some 75) None)].
(* ===================================================================== *)
(** * Properties *)
(* ===================================================================== *)

(** ** Strings and objects *)

Lemma str_eqb_eq (a b : jsstring) : str_eqb a b = true <-> a = b.
Proof.
  unfold str_eqb. destruct (list_eq_dec N.eq_dec a b); split; congruence.
Qed.

Lemma str_eqb_neq (a b : jsstring) : str_eqb a b = false <-> a <> b.
Proof.
  unfold str_eqb. destruct (list_eq_dec N.eq_dec a b); split; congruence.
Qed.

Lemma str_eqb_refl (a : jsstring) : str_eqb a a = true.
Proof. now apply str_eqb_eq. Qed.

Lemma str_eqb_sym (a b : jsstring) : str_eqb a b = str_eqb b a.
Proof.
  destruct (str_eqb b a) eqn:E.
  - apply str_eqb_eq in E. subst. apply str_eqb_refl.
  - apply str_eqb_neq in E. apply str_eqb_neq. congruence.
Qed.

Lemma consumed_app (pre s : jsstring) : consumed (pre ++ s) s = pre.
Proof.
  unfold consumed. rewrite length_app.
  replace (length pre + length s - length s)%nat with (length pre) by lia.
  rewrite firstn_app, Nat.sub_diag, firstn_all. simpl. apply app_nil_r.
Qed.

(** ** C1: the orchestrator refuses fewer than two responses *)

(** C1.  With fewer than two responses [runCouncil] throws the error of
    its first statement, whatever the completion service and the store
    would answer; no result is returned and the trace of events is the one
    it started from: no completion request, no console output. *)
Theorem runCouncil_insufficient_responses :
  forall completion getAllModelStats extractRankingCriteria
         userQuery responses apiKey chairmanModelId options tr,
    (length responses < 2)%nat ->
    runCouncil completion getAllModelStats extractRankingCriteria
      userQuery responses apiKey chairmanModelId options tr
    = (Throw InsufficientResponsesError, tr).
Proof.
  intros completion stats crit userQuery responses apiKey chairman options tr H.
  unfold runCouncil.
  apply Nat.ltb_lt in H. rewrite H. reflexivity.
Qed.

Lemma runCouncil_insufficient_responses_witness :
  runCouncil (fun _ _ _ _ => Ok (js "FINAL RANKING: 1. Response A (HIGH)"))
    (fun _ => []) (fun _ => None)
    (js "Which is best?") [mkResponse (js "m1") (js "Model One") (js "An answer")]
    (js "key") None (mkOptions None None) []
  = (Throw InsufficientResponsesError, []).
Proof.
  apply runCouncil_insufficient_responses. simpl. lia.
Defined.

(** ** C2: the first tier of the parser *)

(** C2.  On the text [FINAL RANKING:\n1. Response B (HIGH)\n2. Response A
    (LOW)] the parser returns the labels in their order of appearance,
    [Response B] then [Response A], with the confidence stated for each. *)
Theorem parse_final_ranking_with_confidence :
  parseRankingWithConfidence
    (js "FINAL RANKING:" ++ nl ++ js "1. Response B (HIGH)" ++ nl
     ++ js "2. Response A (LOW)")
  = mkParsed [js "Response B"; js "Response A"]
      [(js "Response B", HIGH); (js "Response A", LOW)].
Proof. vm_compute. reflexivity. Qed.

(** ** C6: fewer than two usable rankings *)

Lemma usable_count (rs : list Ranking) :
  length (filter usable rs) = valid_count rs.
Proof.
  unfold valid_count. induction rs as [|r rs IH]; simpl; [reflexivity|].
  unfold usable at 1.
  destruct (parsedRanking r) as [|l p] eqn:E; simpl.
  - rewrite andb_false_r. exact IH.
  - rewrite andb_true_r. destruct (isValid r); simpl; now rewrite IH.
Qed.

(** C6.  When fewer than two rankings are both flagged valid and
    non-empty, the analyzer returns at once: consensus 1.0, no
    disagreement, no most contested label (and no position matrix). *)
Theorem analyzeDisagreements_short_circuit :
  forall (rs : list Ranking) (ltm : obj ModelInfo),
    (valid_count rs < 2)%nat ->
    analyzeDisagreements rs ltm = Ok (mkReport (Num 1) [] None None).
Proof.
  intros rs ltm H. unfold analyzeDisagreements.
  rewrite usable_count. apply Nat.ltb_lt in H. now rewrite H.
Qed.

Lemma analyzeDisagreements_short_circuit_witness :
  analyzeDisagreements
    [mkRanking (js "m1") (js "Model One") (js "Response B then Response A")
       [js "Response B"; js "Response A"]
       [(js "Response B", MEDIUM); (js "Response A", MEDIUM)] None true None;
     mkRanking (js "m2") (js "Model Two") (js "Error: timeout") [] [] None
       false (Some (js "timeout"))]
    [(js "Response A", mkInfo (js "m1") (js "Model One"));
     (js "Response B", mkInfo (js "m2") (js "Model Two"))]
  = Ok (mkReport (Num 1) [] None None).
Proof.
  apply analyzeDisagreements_short_circuit. vm_compute. lia.
Defined.

(** ** C3: the whole-text fallback keeps duplicates *)

Lemma parse_without_marker (text : jsstring) :
  includes text FINAL_RANKING = false ->
  parseRankingWithConfidence text = parse_whole_text text.
Proof. intros H. unfold parseRankingWithConfidence. now rewrite H. Qed.

(** No label starts at a code unit other than [R]. *)
Lemma exec_label_miss (c : N) (s : jsstring) :
  c <> 82%N -> exec_at false re_label (c :: s) = None.
Proof.
  intros H. unfold exec_at, re_label.
  change (rlit (js "Response "))
    with (RCat (RSet (CChar 82)) (rlit (js "esponse "))).
  cbn [rmatch cset_mem].
  destruct (N.eqb_spec 82 c) as [E|E]; [congruence|reflexivity].
Qed.

Lemma rmatch_rlit (A : Type) (w : jsstring) (r : regex) (s : jsstring)
  (caps : captures) (k : jsstring -> captures -> option A) :
  rmatch false (RCat (rlit w) r) (w ++ s) caps k = rmatch false r s caps k.
Proof.
  induction w as [|c w IH]; [reflexivity|].
  cbn [rlit app rmatch cset_mem] in *. rewrite N.eqb_refl. exact IH.
Qed.

Lemma match_all_gap (p s : jsstring) :
  ~ In 82%N p ->
  match_all_go false re_label (p ++ s) 0 = match_all_go false re_label s 0.
Proof.
  induction p as [|c p IH]; intros H; [reflexivity|].
  simpl app. simpl match_all_go.
  rewrite exec_label_miss by (intros E; apply H; left; congruence).
  apply IH. intros E. apply H. now right.
Qed.

Lemma match_all_tail (p : jsstring) :
  ~ In 82%N p -> match_all_go false re_label p 0 = [].
Proof.
  intros H. rewrite <- (app_nil_r p). rewrite match_all_gap by assumption.
  reflexivity.
Qed.

(** A label at the front of the text is matched and the search resumes
    behind it. *)
Lemma match_all_hit (x : N) (s : jsstring) :
  in_range 65 90 x = true ->
  match_all_go false re_label (js "Response " ++ x :: s) 0
  = (js "Response " ++ [x]) :: match_all_go false re_label s 0.
Proof.
  intros H.
  assert (E : exec_at false re_label (js "Response " ++ x :: s)
              = Some (mkMatch (js "Response " ++ [x]) [] s)).
  { unfold exec_at, re_label. rewrite rmatch_rlit.
    cbn [rmatch cset_mem]. rewrite H.
    replace (js "Response " ++ x :: s) with ((js "Response " ++ [x]) ++ s)
      by (now rewrite <- app_assoc).
    now rewrite consumed_app. }
  change (js "Response " ++ x :: s)
    with (82%N :: (js "esponse " ++ x :: s)) in *.
  cbn [match_all_go]. rewrite E. reflexivity.
Qed.

(** C3.  A text without the [FINAL RANKING:] marker that holds [Response
    A], then [Response C], then [Response A] again, and no capital R
    (code 82) elsewhere, hence no other label, is parsed to the order A,
    C, A, the duplicate kept; [validateRanking] with an expected count of
    3 rejects that order. *)
Theorem parse_fallback_keeps_duplicates :
  forall p0 p1 p2 p3 : jsstring,
    ~ In 82%N p0 -> ~ In 82%N p1 -> ~ In 82%N p2 -> ~ In 82%N p3 ->
    includes
      (p0 ++ js "Response A" ++ p1 ++ js "Response C" ++ p2
       ++ js "Response A" ++ p3) FINAL_RANKING = false ->
    parseRankingWithConfidence
      (p0 ++ js "Response A" ++ p1 ++ js "Response C" ++ p2
       ++ js "Response A" ++ p3)
    = mkParsed [js "Response A"; js "Response C"; js "Response A"]
        [(js "Response A", MEDIUM); (js "Response C", MEDIUM)]
    /\ validateRanking
         (ranking
            (parseRankingWithConfidence
               (p0 ++ js "Response A" ++ p1 ++ js "Response C" ++ p2
                ++ js "Response A" ++ p3))) 3
       = false.
Proof.
  intros p0 p1 p2 p3 H0 H1 H2 H3 Hmark.
  assert (E : parseRankingWithConfidence
                (p0 ++ js "Response A" ++ p1 ++ js "Response C" ++ p2
                 ++ js "Response A" ++ p3)
              = mkParsed [js "Response A"; js "Response C"; js "Response A"]
                  [(js "Response A", MEDIUM); (js "Response C", MEDIUM)]).
  { rewrite parse_without_marker by exact Hmark.
    unfold parse_whole_text, str_match_g.
    rewrite match_all_gap by exact H0.
    change (js "Response A" ++ p1 ++ js "Response C" ++ p2 ++ js "Response A" ++ p3)
      with (js "Response " ++ 65%N :: (p1 ++ js "Response C" ++ p2 ++ js "Response A" ++ p3)).
    rewrite match_all_hit by reflexivity.
    rewrite match_all_gap by exact H1.
    change (js "Response C" ++ p2 ++ js "Response A" ++ p3)
      with (js "Response " ++ 67%N :: (p2 ++ js "Response A" ++ p3)).
    rewrite match_all_hit by reflexivity.
    rewrite match_all_gap by exact H2.
    change (js "Response A" ++ p3) with (js "Response " ++ 65%N :: p3).
    rewrite match_all_hit by reflexivity.
    rewrite match_all_tail by exact H3.
    vm_compute. reflexivity. }
  split; [exact E|]. rewrite E. vm_compute. reflexivity.
Qed.

Lemma parse_fallback_keeps_duplicates_witness :
  parseRankingWithConfidence
    (js "I find " ++ js "Response A" ++ js " clear, " ++ js "Response C"
     ++ js " vague, so " ++ js "Response A" ++ js " wins.")
  = mkParsed [js "Response A"; js "Response C"; js "Response A"]
      [(js "Response A", MEDIUM); (js "Response C", MEDIUM)]
  /\ validateRanking
       (ranking
          (parseRankingWithConfidence
             (js "I find " ++ js "Response A" ++ js " clear, " ++ js "Response C"
              ++ js " vague, so " ++ js "Response A" ++ js " wins."))) 3
     = false.
Proof.
  apply parse_fallback_keeps_duplicates;
    [ vm_compute; lia | vm_compute; lia | vm_compute; lia | vm_compute; lia
    | vm_compute; reflexivity ].
Defined.

(** ** Own properties *)

Lemma own_get_set_same (V : Type) (o : obj V) (k : jsstring) (v : V) :
  own_get (obj_set o k v) k = Some v.
Proof.
  induction o as [|[k' v'] o IH]; simpl.
  - now rewrite str_eqb_refl.
  - destruct (str_eqb k' k) eqn:E; simpl.
    + now rewrite str_eqb_refl.
    + now rewrite E.
Qed.

Lemma own_get_set_other (V : Type) (o : obj V) (k k' : jsstring) (v : V) :
  k <> k' -> own_get (obj_set o k v) k' = own_get o k'.
Proof.
  intros H. induction o as [|[k0 v0] o IH]; simpl.
  - apply str_eqb_neq in H. now rewrite H.
  - destruct (str_eqb k0 k) eqn:E; simpl.
    + apply str_eqb_eq in E. subst k0. apply str_eqb_neq in H. now rewrite H.
    + destruct (str_eqb k0 k'); [reflexivity|exact IH].
Qed.

Lemma own_get_In (V : Type) (o : obj V) (k : jsstring) (v : V) :
  own_get o k = Some v -> In (k, v) o.
Proof.
  induction o as [|[k' v'] o IH]; simpl; [discriminate|].
  destruct (str_eqb k' k) eqn:E.
  - apply str_eqb_eq in E. intros [= ->]. left. now subst.
  - intros H. right. now apply IH.
Qed.

Lemma own_get_None (V : Type) (o : obj V) (k : jsstring) :
  own_get o k = None <-> ~ In k (map fst o).
Proof.
  induction o as [|[k' v'] o IH]; simpl.
  - tauto.
  - destruct (str_eqb k' k) eqn:E.
    + apply str_eqb_eq in E. split; [discriminate|]. intros H. exfalso. tauto.
    + apply str_eqb_neq in E. rewrite IH. tauto.
Qed.

Lemma In_own_get (V : Type) (o : obj V) (k : jsstring) (v : V) :
  NoDup (map fst o) -> In (k, v) o -> own_get o k = Some v.
Proof.
  induction o as [|[k' v'] o IH]; simpl; [tauto|].
  intros Hnd [H|H].
  - injection H as -> ->. now rewrite str_eqb_refl.
  - inversion Hnd as [|? ? Hk Hnd']; subst.
    destruct (str_eqb k' k) eqn:E.
    + apply str_eqb_eq in E. subst k'. exfalso. apply Hk.
      change k with (fst (k, v)). now apply in_map.
    + now apply IH.
Qed.

Lemma obj_set_fresh (V : Type) (o : obj V) (k : jsstring) (v : V) :
  ~ In k (map fst o) -> obj_set o k v = o ++ [(k, v)].
Proof.
  induction o as [|[k' v'] o IH]; simpl; intros H; [reflexivity|].
  destruct (str_eqb k' k) eqn:E.
  - apply str_eqb_eq in E. tauto.
  - f_equal. apply IH. tauto.
Qed.

Lemma obj_set_keys_known (V : Type) (o : obj V) (k : jsstring) (v : V) :
  In k (map fst o) -> map fst (obj_set o k v) = map fst o.
Proof.
  induction o as [|[k' v'] o IH]; simpl; intros H; [tauto|].
  destruct (str_eqb k' k) eqn:E; simpl.
  - apply str_eqb_eq in E. now subst.
  - f_equal. apply IH. destruct H as [H|H]; [|exact H].
    apply str_eqb_neq in E. congruence.
Qed.

Lemma obj_set_keys (V : Type) (o : obj V) (k : jsstring) (v : V) :
  map fst (obj_set o k v)
  = if in_dec (list_eq_dec N.eq_dec) k (map fst o) then map fst o
    else map fst o ++ [k].
Proof.
  destruct (in_dec (list_eq_dec N.eq_dec) k (map fst o)) as [H|H].
  - now apply obj_set_keys_known.
  - rewrite obj_set_fresh by exact H. now rewrite map_app.
Qed.

Lemma obj_set_NoDup (V : Type) (o : obj V) (k : jsstring) (v : V) :
  NoDup (map fst o) -> NoDup (map fst (obj_set o k v)).
Proof.
  intros H. rewrite obj_set_keys.
  destruct (in_dec (list_eq_dec N.eq_dec) k (map fst o)) as [Hin|Hin];
    [exact H|].
  apply NoDup_app; [exact H|repeat constructor; simpl; tauto|].
  intros x Hx [<-|[]]. contradiction.
Qed.

Lemma obj_set_In_keys (V : Type) (o : obj V) (k k' : jsstring) (v : V) :
  In k' (map fst (obj_set o k v)) <-> k' = k \/ In k' (map fst o).
Proof.
  rewrite obj_set_keys.
  destruct (in_dec (list_eq_dec N.eq_dec) k (map fst o)) as [Hin|Hin].
  - split; [tauto|]. intros [->|H]; assumption.
  - rewrite in_app_iff. simpl. split; [intros [H|[H|[]]]|intros [H|H]]; auto.
Qed.

(** ** Enumeration order does not change the set of properties *)

Lemma insert_index_perm (V : Type) (e : jsstring * V) (l : obj V) :
  Permutation (insert_index e l) (e :: l).
Proof.
  induction l as [|e' l IH]; simpl; [reflexivity|].
  destruct (index_of (fst e) <=? index_of (fst e'))%N; [reflexivity|].
  rewrite IH. apply perm_swap.
Qed.

Lemma index_sort_perm (V : Type) (l : obj V) :
  Permutation (fold_right insert_index [] l) l.
Proof.
  induction l as [|e l IH]; simpl; [reflexivity|].
  rewrite insert_index_perm. now constructor.
Qed.

Lemma filter_split_perm (A : Type) (p : A -> bool) (l : list A) :
  Permutation (filter p l ++ filter (fun x => negb (p x)) l) l.
Proof.
  induction l as [|x l IH]; simpl; [reflexivity|].
  destruct (p x); simpl.
  - now constructor.
  - rewrite <- Permutation_middle. now constructor.
Qed.

Lemma Object_entries_perm (V : Type) (o : obj V) :
  Permutation (Object_entries o) o.
Proof.
  unfold Object_entries. rewrite index_sort_perm. apply filter_split_perm.
Qed.

Lemma Object_entries_In (V : Type) (o : obj V) (e : jsstring * V) :
  In e (Object_entries o) <-> In e o.
Proof.
  split; apply Permutation_in;
    [apply Object_entries_perm | symmetry; apply Object_entries_perm].
Qed.

Lemma Object_keys_In (V : Type) (o : obj V) (k : jsstring) :
  In k (Object_keys o) <-> In k (map fst o).
Proof.
  unfold Object_keys.
  split; apply Permutation_in;
    [apply Permutation_map, Object_entries_perm
    | symmetry; apply Permutation_map, Object_entries_perm].
Qed.

Lemma Object_keys_NoDup (V : Type) (o : obj V) :
  NoDup (map fst o) -> NoDup (Object_keys o).
Proof.
  intros H. unfold Object_keys.
  eapply Permutation_NoDup; [|exact H].
  symmetry. apply Permutation_map, Object_entries_perm.
Qed.

Lemma Object_keys_length (V : Type) (o : obj V) :
  length (Object_keys o) = length o.
Proof.
  unfold Object_keys. rewrite length_map.
  apply Permutation_length, Object_entries_perm.
Qed.

Lemma sort_insert_perm (A : Type) (cmp : A -> A -> Q) (x : A) (l : list A) :
  Permutation (sort_insert cmp x l) (x :: l).
Proof.
  induction l as [|y l IH]; simpl; [reflexivity|].
  destruct (Qle_bool (cmp x y) 0); [reflexivity|].
  rewrite IH. apply perm_swap.
Qed.

Lemma js_sort_perm (A : Type) (cmp : A -> A -> Q) (l : list A) :
  Permutation (js_sort cmp l) l.
Proof.
  induction l as [|x l IH]; simpl; [reflexivity|].
  unfold js_sort in *. simpl. rewrite sort_insert_perm. now constructor.
Qed.

Lemma js_sort_In (A : Type) (cmp : A -> A -> Q) (l : list A) (x : A) :
  In x (js_sort cmp l) <-> In x l.
Proof.
  split; apply Permutation_in;
    [apply js_sort_perm | symmetry; apply js_sort_perm].
Qed.

(** ** The tables of the aggregator *)

Lemma entry_list_set_same (A : Type) (o : obj (list A)) (k : jsstring)
  (l : list A) : entry_list (obj_set o k l) k = l.
Proof. unfold entry_list. now rewrite own_get_set_same. Qed.

Lemma entry_list_set_other (A : Type) (o : obj (list A)) (k k' : jsstring)
  (l : list A) : k <> k' -> entry_list (obj_set o k l) k' = entry_list o k'.
Proof. intros H. unfold entry_list. now rewrite own_get_set_other. Qed.

Lemma own_get_Some_In_keys (V : Type) (o : obj V) (k : jsstring) (v : V) :
  own_get o k = Some v -> In k (map fst o).
Proof.
  intros H. apply own_get_In in H. change k with (fst (k, v)).
  now apply in_map.
Qed.

Lemma In_keys_own_get (V : Type) (o : obj V) (k : jsstring) :
  In k (map fst o) -> exists v, own_get o k = Some v.
Proof.
  intros H. destruct (own_get o k) as [v|] eqn:E; [now exists v|].
  apply own_get_None in E. contradiction.
Qed.

Lemma tables_ok_empty : tables_ok ([], []).
Proof. repeat split; simpl; try constructor; tauto. Qed.

(** An inherited name makes the first [push] throw. *)
Lemma record_position_throw (useC : bool) (mw : Q) (scores : obj Confidence)
  (st : PositionTable * ConfidenceTable) (i : nat) (lbl : jsstring) :
  tables_ok st -> inherited lbl = true ->
  record_position useC mw scores st i lbl = Throw not_a_function.
Proof.
  intros (_ & Hinh & _) H. unfold record_position.
  assert (E : own_get (fst st) lbl = None).
  { apply own_get_None. intros Hin. apply Hinh in Hin. congruence. }
  unfold obj_push, obj_get. rewrite E, H. simpl.
  now rewrite E.
Qed.

(** Any other label is recorded: its position, with the weight of the
    ranking, goes behind those already stored for it. *)
Lemma record_position_ok (useC : bool) (mw : Q) (scores : obj Confidence)
  (st : PositionTable * ConfidenceTable) (i : nat) (lbl : jsstring) :
  tables_ok st -> inherited lbl = false ->
  exists st',
    record_position useC mw scores st i lbl = Ok st'
    /\ tables_ok st'
    /\ (forall k,
          entry_list (fst st') k
          = entry_list (fst st) k
            ++ (if str_eqb lbl k
                then [mkWP (S i) (effectiveWeight_of useC mw scores lbl)]
                else []))
    /\ (forall k, In k (map fst (fst st')) <-> k = lbl \/ In k (map fst (fst st))).
Proof.
  intros (Hnd & Hinh & Hsub) H. destruct st as [pbl cbl]. cbn [fst snd] in *.
  unfold record_position. cbn [fst snd].
  replace (i + 1)%nat with (S i) by lia.
  destruct (own_get pbl lbl) as [arr|] eqn:E.
  - (* the label has its arrays already *)
    assert (Hin : In lbl (map fst pbl)) by (eapply own_get_Some_In_keys; eauto).
    destruct (In_keys_own_get cbl lbl (Hsub _ Hin)) as [arr2 E2].
    unfold obj_push, obj_get. cbn [fst snd]. rewrite E. cbn [fst snd].
    rewrite E, E2. cbn [rbind].
    eexists. split; [reflexivity|]. cbn [fst snd].
    split; [|split].
    + repeat split; simpl.
      * now apply obj_set_NoDup.
      * intros k Hk. apply obj_set_In_keys in Hk. destruct Hk as [->|Hk]; auto.
      * intros k Hk. apply obj_set_In_keys in Hk. apply obj_set_In_keys.
        destruct Hk as [->|Hk]; auto.
    + intros k. destruct (str_eqb lbl k) eqn:Ek.
      * apply str_eqb_eq in Ek. subst k. rewrite entry_list_set_same.
        unfold entry_list. now rewrite E.
      * apply str_eqb_neq in Ek. rewrite entry_list_set_other by exact Ek.
        now rewrite app_nil_r.
    + intros k. apply obj_set_In_keys.
  - (* first occurrence of the label *)
    unfold obj_push, obj_get. cbn [fst snd]. rewrite E, H. cbn [fst snd].
    rewrite !own_get_set_same. cbn [rbind].
    eexists. split; [reflexivity|]. cbn [fst snd].
    split; [|split].
    + repeat split; simpl.
      * now apply obj_set_NoDup, obj_set_NoDup.
      * intros k Hk. apply obj_set_In_keys in Hk. destruct Hk as [->|Hk]; auto.
        apply obj_set_In_keys in Hk. destruct Hk as [->|Hk]; auto.
      * intros k Hk. apply obj_set_In_keys in Hk. apply obj_set_In_keys.
        destruct Hk as [->|Hk]; auto.
        apply obj_set_In_keys in Hk. right. apply obj_set_In_keys.
        destruct Hk as [->|Hk]; auto.
    + intros k. destruct (str_eqb lbl k) eqn:Ek.
      * apply str_eqb_eq in Ek. subst k. rewrite entry_list_set_same.
        unfold entry_list. now rewrite E.
      * apply str_eqb_neq in Ek. rewrite !entry_list_set_other by exact Ek.
        now rewrite app_nil_r.
    + intros k. rewrite !obj_set_In_keys. tauto.
Qed.

Lemma record_positions_ok (useC : bool) (mw : Q) (scores : obj Confidence)
  (parsed : list jsstring) :
  forall (from : nat) (st : PositionTable * ConfidenceTable),
    tables_ok st ->
    Forall (fun l => inherited l = false) parsed ->
    exists st',
      rfold_indexed (record_position useC mw scores) parsed from st = Ok st'
      /\ tables_ok st'
      /\ (forall k,
            entry_list (fst st') k
            = entry_list (fst st) k
              ++ map (fun p => mkWP p (effectiveWeight_of useC mw scores k))
                   (positions_in k parsed from))
      /\ (forall k, In k (map fst (fst st'))
                    <-> In k parsed \/ In k (map fst (fst st))).
Proof.
  induction parsed as [|lbl parsed IH]; intros from st Hok Hall.
  - exists st. simpl. split; [reflexivity|]. split; [exact Hok|].
    split; intros k; [now rewrite app_nil_r|tauto].
  - inversion Hall as [|? ? Hl Hrest]; subst.
    destruct (record_position_ok useC mw scores from lbl Hok Hl)
      as (st1 & E1 & Hok1 & Hl1 & Hk1).
    destruct (IH (S from) st1 Hok1 Hrest) as (st2 & E2 & Hok2 & Hl2 & Hk2).
    exists st2. simpl. rewrite E1. simpl. split; [exact E2|].
    split; [exact Hok2|]. split.
    + intros k. rewrite Hl2, Hl1, <- app_assoc. f_equal.
      rewrite map_app. f_equal.
      destruct (str_eqb lbl k) eqn:Ek; [|reflexivity].
      apply str_eqb_eq in Ek. now subst.
    + intros k. rewrite Hk2, Hk1. simpl. intuition.
Qed.

Lemma record_positions_throw (useC : bool) (mw : Q) (scores : obj Confidence)
  (parsed : list jsstring) :
  forall (from : nat) (st : PositionTable * ConfidenceTable),
    tables_ok st ->
    Exists (fun l => inherited l = true) parsed ->
    rfold_indexed (record_position useC mw scores) parsed from st
    = Throw not_a_function.
Proof.
  induction parsed as [|lbl parsed IH]; intros from st Hok Hex.
  - inversion Hex.
  - simpl. destruct (inherited lbl) eqn:Hl.
    + now rewrite record_position_throw.
    + destruct (record_position_ok useC mw scores from lbl Hok Hl)
        as (st1 & E1 & Hok1 & _).
      rewrite E1. simpl. apply IH; [exact Hok1|].
      inversion Hex; subst; [congruence|assumption].
Qed.

Lemma skipped_empty (r : Ranking) : skipped r = true -> parsedRanking r = [].
Proof.
  unfold skipped. intros H. apply andb_prop in H. destruct H as [_ H].
  apply Nat.eqb_eq in H. now apply length_zero_iff_nil.
Qed.

Lemma record_rankings_ok (useW useC : bool) (stats : list ModelStats)
  (rs : list Ranking) :
  forall st : PositionTable * ConfidenceTable,
    tables_ok st ->
    Forall own_labels rs ->
    exists st',
      rfold (record_ranking useW useC stats) rs st = Ok st'
      /\ tables_ok st'
      /\ (forall k,
            entry_list (fst st') k
            = entry_list (fst st) k ++ weighted_positions useW useC stats k rs)
      /\ (forall k, In k (map fst (fst st'))
                    <-> (exists r, In r rs /\ In k (parsedRanking r))
                        \/ In k (map fst (fst st))).
Proof.
  induction rs as [|r rs IH]; intros st Hok Hall.
  - exists st. simpl. split; [reflexivity|]. split; [exact Hok|].
    split; intros k; [now rewrite app_nil_r|].
    split; [tauto|]. intros [(r & [] & _)|H]; exact H.
  - inversion Hall as [|? ? Hr Hrest]; subst.
    assert (Hstep : exists st1,
               record_ranking useW useC stats st r = Ok st1
               /\ tables_ok st1
               /\ (forall k,
                     entry_list (fst st1) k
                     = entry_list (fst st) k
                       ++ map (fun p => mkWP p (weight_in useW useC stats r k))
                            (positions_in k (parsedRanking r) 0))
               /\ (forall k, In k (map fst (fst st1))
                             <-> In k (parsedRanking r) \/ In k (map fst (fst st)))).
    { unfold record_ranking. destruct (skipped r) eqn:Es.
      - apply skipped_empty in Es. rewrite Es. exists st. simpl.
        split; [reflexivity|]. split; [exact Hok|].
        split; intros k; [now rewrite app_nil_r|tauto].
      - now apply record_positions_ok. }
    destruct Hstep as (st1 & E1 & Hok1 & Hl1 & Hk1).
    destruct (IH st1 Hok1 Hrest) as (st2 & E2 & Hok2 & Hl2 & Hk2).
    exists st2. simpl. rewrite E1. simpl. split; [exact E2|].
    split; [exact Hok2|]. split.
    + intros k. rewrite Hl2, Hl1, <- app_assoc. reflexivity.
    + intros k. rewrite Hk2, Hk1. split.
      * intros [(r' & Hr' & Hin)|[Hin|Hin]]; eauto.
      * intros [(r' & [<-|Hr'] & Hin)|Hin]; eauto.
Qed.

Lemma record_rankings_throw (useW useC : bool) (stats : list ModelStats)
  (rs : list Ranking) :
  forall st : PositionTable * ConfidenceTable,
    tables_ok st ->
    Exists (fun r => ~ own_labels r) rs ->
    rfold (record_ranking useW useC stats) rs st = Throw not_a_function.
Proof.
  assert (Hdec : forall l : jsstring, {inherited l = false} + {~ inherited l = false}).
  { intros l. destruct (inherited l); [right|left]; congruence. }
  induction rs as [|r rs IH]; intros st Hok Hex.
  - inversion Hex.
  - simpl. destruct (Forall_Exists_dec _ Hdec (parsedRanking r)) as [Hall|Hbad].
    + destruct (record_rankings_ok useW useC stats (rs:=[r]) Hok)
        as (st1 & E1 & Hok1 & _); [now constructor|].
      simpl in E1. destruct (record_ranking useW useC stats st r) as [st1'|e];
        [|discriminate].
      simpl in E1. injection E1 as ->. simpl. apply IH; [exact Hok1|].
      inversion Hex; subst; [contradiction|assumption].
    + unfold record_ranking. destruct (skipped r) eqn:Es.
      * apply skipped_empty in Es. rewrite Es in Hbad. inversion Hbad.
      * rewrite record_positions_throw; [reflexivity|exact Hok|].
        eapply Exists_impl; [|exact Hbad]. simpl. intros l Hl.
        destruct (inherited l); congruence.
Qed.

Lemma own_labels_dec (rs : list Ranking) :
  {Forall own_labels rs} + {Exists (fun r => ~ own_labels r) rs}.
Proof.
  apply Forall_Exists_dec. intros r. unfold own_labels.
  apply Forall_dec. intros l. destruct (inherited l); [right|left]; congruence.
Qed.

(** ** Rational arithmetic *)

Lemma Qltb_lt (a b : Q) : Qltb a b = true <-> a < b.
Proof.
  unfold Qltb. rewrite negb_true_iff. split.
  - intros H. apply Qnot_le_lt. intros Hle.
    apply Qle_bool_iff in Hle. congruence.
  - intros H. destruct (Qle_bool b a) eqn:E; [|reflexivity].
    apply Qle_bool_iff in E. exfalso. now apply (Qlt_not_le a b).
Qed.

#[export] Instance Math_round_comp : Proper (Qeq ==> Qeq) Math_round.
Proof.
  intros x y H. unfold Math_round.
  assert (E : x + (1 # 2) == y + (1 # 2)) by now rewrite H.
  now rewrite (Qfloor_comp _ _ E).
Qed.

#[export] Instance round2_comp : Proper (Qeq ==> Qeq) round2.
Proof. intros x y H. unfold round2. now rewrite H. Qed.

#[export] Instance Qmax_comp : Proper (Qeq ==> Qeq ==> Qeq) Qmax.
Proof.
  intros a b Hab c d Hcd. unfold Qmax.
  destruct (Qle_bool a c) eqn:E1, (Qle_bool b d) eqn:E2; try assumption.
  - apply Qle_bool_iff in E1. rewrite Hab, Hcd in E1.
    apply Qle_bool_iff in E1. congruence.
  - apply Qle_bool_iff in E2. rewrite <- Hab, <- Hcd in E2.
    apply Qle_bool_iff in E2. congruence.
Qed.

Lemma Q_of_nat_S (n : nat) : Q_of_nat (S n) == Q_of_nat n + 1.
Proof.
  unfold Q_of_nat. rewrite Nat2Z.inj_succ, <- Z.add_1_r.
  now rewrite inject_Z_plus.
Qed.

Lemma Q_of_nat_pos (n : nat) : (0 < n)%nat -> 0 < Q_of_nat n.
Proof.
  intros H. unfold Q_of_nat. change 0 with (inject_Z 0).
  rewrite <- Zlt_Qlt. lia.
Qed.

Lemma fold_Qplus_shift (l : list Q) (a : Q) :
  fold_left Qplus l a == a + Qsum l.
Proof.
  unfold Qsum. revert a. induction l as [|x l IH]; intros a; simpl.
  - ring.
  - rewrite IH, (IH (0 + x)). ring.
Qed.

Lemma Qsum_cons (x : Q) (l : list Q) : Qsum (x :: l) == x + Qsum l.
Proof. unfold Qsum at 1. simpl. rewrite fold_Qplus_shift. ring. Qed.

(** A fold that adds [f x] for every element is the sum of the [f x]. *)
Lemma fold_sum_map (A : Type) (f : A -> Q) (l : list A) (a : Q) :
  fold_left (fun sum x => sum + f x) l a == a + Qsum (map f l).
Proof.
  revert a. induction l as [|x l IH]; intros a; simpl.
  - unfold Qsum. simpl. ring.
  - rewrite IH, Qsum_cons. ring.
Qed.


Lemma Qsum_ext (A : Type) (f g : A -> Q) (l : list A) :
  (forall x, In x l -> f x == g x) -> Qsum (map f l) == Qsum (map g l).
Proof.
  induction l as [|x l IH]; intros H; simpl; [reflexivity|].
  rewrite !Qsum_cons. rewrite (H x) by (simpl; auto).
  rewrite IH; [reflexivity|]. intros y Hy. apply H. simpl. auto.
Qed.

Lemma Qsum_perm (l l' : list Q) : Permutation l l' -> Qsum l == Qsum l'.
Proof.
  induction 1.
  - reflexivity.
  - now rewrite !Qsum_cons, IHPermutation.
  - rewrite !Qsum_cons. ring.
  - now rewrite IHPermutation1.
Qed.

(** ** What the aggregator returns *)

Lemma filter_map_In (A B : Type) (f : A -> option B) (l : list A) (y : B) :
  In y (filter_map f l) <-> exists x, In x l /\ f x = Some y.
Proof.
  unfold filter_map. rewrite in_flat_map. split.
  - intros (x & Hx & Hy). exists x. split; [exact Hx|].
    destruct (f x); simpl in Hy; [|contradiction].
    destruct Hy as [->|[]]. reflexivity.
  - intros (x & Hx & Hy). exists x. split; [exact Hx|].
    rewrite Hy. now left.
Qed.

Lemma aggregate_entry_fields (ltm : obj ModelInfo) (cbl : ConfidenceTable)
  (k : jsstring) (wl : list WeightedPosition) (e : AggregateEntry) :
  aggregate_entry ltm cbl (k, wl) = Some e ->
  label e = k
  /\ wl <> []
  /\ (exists info, own_get ltm k = Some info
                   /\ agg_modelId e = info_modelId info
                   /\ agg_modelName e = info_modelName info)
  /\ avgRank e = round2 (weighted_average wl)
  /\ rankingsCount e = length wl.
Proof.
  unfold aggregate_entry. cbn [fst snd].
  destruct wl as [|w wl]; [discriminate|].
  destruct (own_get ltm k) as [info|]; [|discriminate].
  cbn [length Nat.ltb Nat.leb]. intros [= <-]. cbn.
  repeat split; try discriminate. now exists info.
Qed.

Lemma aggregate_entry_some (ltm : obj ModelInfo) (cbl : ConfidenceTable)
  (k : jsstring) (wl : list WeightedPosition) (info : ModelInfo) :
  wl <> [] -> own_get ltm k = Some info ->
  exists e, aggregate_entry ltm cbl (k, wl) = Some e.
Proof.
  intros Hwl Hk. unfold aggregate_entry. cbn [fst snd]. rewrite Hk.
  destruct wl as [|w wl]; [congruence|]. cbn [length Nat.ltb Nat.leb].
  eexists. reflexivity.
Qed.

(** The aggregator returns unless a label is an inherited name, which
    makes it throw. *)
Lemma calculate_throw (getStats : unit -> list ModelStats)
  (rs : list Ranking) (ltm : obj ModelInfo) (options : Options) :
  Exists (fun r => ~ own_labels r) rs ->
  calculateAggregateRankings getStats rs ltm options = Throw not_a_function.
Proof.
  intros H. unfold calculateAggregateRankings.
  rewrite record_rankings_throw; [reflexivity|apply tables_ok_empty|exact H].
Qed.

(** Every entry returned stands for an own label of [labelToModel] with
    at least one position, and carries the weighted average of the
    positions of that label, rounded in the exact arithmetic of the
    model; every such label has an entry. *)
Lemma calculate_sound (getStats : unit -> list ModelStats)
  (rs : list Ranking) (ltm : obj ModelInfo) (options : Options) :
  Forall own_labels rs ->
  exists agg,
    calculateAggregateRankings getStats rs ltm options = Ok agg
    /\ (forall e, In e agg ->
          let useW := with_default (useWeightedAggregation options) in
          let useC := with_default (useConfidenceWeighting options) in
          let wl :=
            weighted_positions useW useC
              (if useW then getStats tt else []) (label e) rs in
          wl <> []
          /\ (exists info, own_get ltm (label e) = Some info
                           /\ agg_modelId e = info_modelId info
                           /\ agg_modelName e = info_modelName info)
          /\ avgRank e = round2 (weighted_average wl)
          /\ rankingsCount e = length wl)
    /\ (forall k info,
          own_get ltm k = Some info ->
          weighted_positions (with_default (useWeightedAggregation options))
            (with_default (useConfidenceWeighting options))
            (if with_default (useWeightedAggregation options)
             then getStats tt else []) k rs <> [] ->
          exists e, In e agg /\ label e = k).
Proof.
  intros Hall. unfold calculateAggregateRankings.
  set (useW := with_default (useWeightedAggregation options)).
  set (useC := with_default (useConfidenceWeighting options)).
  set (stats := if useW then getStats tt else []).
  destruct (record_rankings_ok useW useC stats tables_ok_empty Hall)
    as (st & E & (Hnd & _ & _) & Hl & _).
  rewrite E. cbn [rbind]. eexists. split; [reflexivity|]. split.
  - intros e He. apply js_sort_In, filter_map_In in He.
    destruct He as ([k wl] & Hx & Hentry).
    apply (proj1 (Object_entries_In _ _)) in Hx.
    apply aggregate_entry_fields in Hentry.
    destruct Hentry as (Hlabel & Hwl & Hinfo & Havg & Hcount).
    apply In_own_get in Hx; [|exact Hnd].
    assert (Ewl : wl = weighted_positions useW useC stats k rs).
    { specialize (Hl k). unfold entry_list in Hl. rewrite Hx in Hl.
      exact Hl. }
    cbv zeta. rewrite Hlabel, <- Ewl. auto.
  - intros k info Hk Hwl.
    assert (Hx : own_get (fst st) k
                 = Some (weighted_positions useW useC stats k rs)).
    { specialize (Hl k). unfold entry_list in Hl. cbn [fst own_get] in Hl.
      destruct (own_get (fst st) k) as [l|]; [now rewrite Hl|].
      simpl in Hl. congruence. }
    destruct (@aggregate_entry_some ltm (snd st) k _ info Hwl Hk) as [e He].
    exists e. split.
    + apply js_sort_In, filter_map_In. eexists. split; [|exact He].
      apply Object_entries_In. now apply own_get_In.
    + now apply aggregate_entry_fields in He.
Qed.

(** ** C4: aggregation without weights *)





(** [Math.round] moves a number by a half at most, and the rounding to
    two decimals by 0.005. *)
Lemma Math_round_near (x : Q) : Qabs (Math_round x - x) <= 1 # 2.
Proof.
  unfold Math_round. apply Qabs_Qle_condition.
  pose proof (Qfloor_le (x + (1 # 2))) as H1.
  pose proof (Qlt_floor (x + (1 # 2))) as H2.
  rewrite inject_Z_plus in H2.
  change (inject_Z 1) with 1 in H2.
  generalize dependent (inject_Z (Qfloor (x + (1 # 2)))). intros m H1 H2.
  split; lra.
Qed.

Lemma round2_near (x : Q) : Qabs (round2 x - x) <= 1 # 200.
Proof.
  unfold round2. pose proof (Math_round_near (x * 100)) as H.
  apply Qabs_Qle_condition in H. apply Qabs_Qle_condition.
  generalize dependent (Math_round (x * 100)). intros m H.
  assert (E : m / 100 == m * (1 # 100)) by (unfold Qdiv; reflexivity).
  rewrite E. split; lra.
Qed.

(** A rounded number is a whole number of hundredths within 0.01 of the
    number. *)
Lemma round2_hundredths (a x : Q) :
  a == round2 x ->
  (exists n : Z, a == inject_Z n / 100) /\ Qabs (a - x) <= 1 # 100.
Proof.
  intros H. split.
  - exists (Qfloor (x * 100 + (1 # 2))). exact H.
  - rewrite H. apply Qle_trans with (1 # 200); [apply round2_near|].
    discriminate.
Qed.




(** ** The position matrix of the analyzer *)

Lemma has_own_In (V : Type) (o : obj V) (k : jsstring) :
  has_own o k = true <-> In k (map fst o).
Proof.
  unfold has_own. destruct (own_get o k) as [v|] eqn:E.
  - split; [intros _; eapply own_get_Some_In_keys; eauto|reflexivity].
  - apply own_get_None in E. split; [discriminate|contradiction].
Qed.

Lemma has_own_keys (V W : Type) (o : obj V) (o' : obj W) (k : jsstring) :
  map fst o = map fst o' -> has_own o k = has_own o' k.
Proof.
  intros H. destruct (has_own o' k) eqn:E.
  - apply has_own_In. rewrite H. now apply has_own_In.
  - destruct (has_own o k) eqn:E'; [|reflexivity].
    apply has_own_In in E'. rewrite H in E'. apply has_own_In in E'.
    congruence.
Qed.

(** The matrix starts with an empty array under every label. *)
Lemma init_matrix (labels : list jsstring) :
  forall pm : obj (list nat),
    NoDup labels ->
    (forall k, In k labels -> ~ In k (map fst pm)) ->
    fold_left (fun pm lbl => obj_set pm lbl []) labels pm
    = pm ++ map (fun l => (l, [])) labels.
Proof.
  induction labels as [|l labels IH]; intros pm Hnd Hfresh; simpl.
  - now rewrite app_nil_r.
  - inversion Hnd as [|? ? Hl Hnd']; subst.
    rewrite obj_set_fresh by (apply Hfresh; now left).
    rewrite IH; [now rewrite <- app_assoc|exact Hnd'|].
    intros k Hk. rewrite map_app, in_app_iff. simpl.
    intros [H|[<-|[]]]; [|contradiction].
    apply (Hfresh k); [now right|exact H].
Qed.

Lemma init_matrix_keys (labels : list jsstring) :
  forall pm : obj (list nat),
    forall k, In k (map fst (fold_left (fun pm lbl => obj_set pm lbl []) labels pm))
              <-> In k labels \/ In k (map fst pm).
Proof.
  induction labels as [|l labels IH]; intros pm k; simpl; [tauto|].
  rewrite IH, obj_set_In_keys. intuition.
Qed.

(** A lookup that returns keeps the names of the matrix. *)
Lemma note_position_keys (pm pm' : obj (list nat)) (i : nat) (lbl : jsstring) :
  note_position pm i lbl = Ok pm' -> map fst pm' = map fst pm.
Proof.
  unfold note_position, obj_get.
  destruct (own_get pm lbl) as [arr|] eqn:E.
  - intros [= <-]. apply obj_set_keys_known.
    eapply own_get_Some_In_keys; eauto.
  - destruct (inherited lbl); [discriminate|]. now intros [= <-].
Qed.

Lemma note_positions_keys (parsed : list jsstring) :
  forall (from : nat) (pm pm' : obj (list nat)),
    rfold_indexed note_position parsed from pm = Ok pm' ->
    map fst pm' = map fst pm.
Proof.
  induction parsed as [|l parsed IH]; intros from pm pm'; simpl.
  - now intros [= <-].
  - destruct (note_position pm from l) as [pm1|e] eqn:E; [|discriminate].
    simpl. intros H. apply IH in H. rewrite H.
    eapply note_position_keys; eauto.
Qed.

Lemma note_rankings_keys (rs : list Ranking) :
  forall pm pm' : obj (list nat),
    rfold (fun pm r => rfold_indexed note_position (parsedRanking r) 0 pm) rs pm
    = Ok pm' ->
    map fst pm' = map fst pm.
Proof.
  induction rs as [|r rs IH]; intros pm pm'; simpl.
  - now intros [= <-].
  - destruct (rfold_indexed note_position (parsedRanking r) 0 pm) as [pm1|e] eqn:E;
      [|discriminate].
    simpl. intros H. apply IH in H. rewrite H.
    eapply note_positions_keys; eauto.
Qed.

(** A safe label is looked up without an exception; its position is
    stored when the label is a name of the matrix. *)
Lemma note_position_ok (pm : obj (list nat)) (i : nat) (lbl : jsstring) :
  safe_label pm lbl ->
  exists pm',
    note_position pm i lbl = Ok pm'
    /\ map fst pm' = map fst pm
    /\ (forall k,
          entry_list pm' k
          = entry_list pm k
            ++ (if has_own pm k && str_eqb lbl k then [S i] else [])).
Proof.
  intros Hsafe. unfold note_position, obj_get.
  replace (i + 1)%nat with (S i) by lia.
  destruct (own_get pm lbl) as [arr|] eqn:E.
  - eexists. split; [reflexivity|]. split.
    + apply obj_set_keys_known. eapply own_get_Some_In_keys; eauto.
    + intros k. destruct (str_eqb lbl k) eqn:Ek.
      * apply str_eqb_eq in Ek. subst k. rewrite entry_list_set_same.
        unfold entry_list, has_own. now rewrite E.
      * apply str_eqb_neq in Ek. rewrite entry_list_set_other by exact Ek.
        now rewrite andb_false_r, app_nil_r.
  - destruct Hsafe as [H|H].
    { unfold has_own in H. rewrite E in H. discriminate. }
    rewrite H. exists pm. split; [reflexivity|]. split; [reflexivity|].
    intros k. destruct (str_eqb lbl k) eqn:Ek.
    + apply str_eqb_eq in Ek. subst k. unfold has_own. rewrite E.
      now rewrite app_nil_r.
    + now rewrite andb_false_r, app_nil_r.
Qed.

Lemma note_positions_ok (parsed : list jsstring) :
  forall (from : nat) (pm : obj (list nat)),
    Forall (safe_label pm) parsed ->
    exists pm',
      rfold_indexed note_position parsed from pm = Ok pm'
      /\ map fst pm' = map fst pm
      /\ (forall k,
            entry_list pm' k
            = entry_list pm k
              ++ (if has_own pm k then positions_in k parsed from else [])).
Proof.
  induction parsed as [|l parsed IH]; intros from pm Hall.
  - exists pm. simpl. split; [reflexivity|]. split; [reflexivity|].
    intros k. destruct (has_own pm k); now rewrite app_nil_r.
  - inversion Hall as [|? ? Hl Hrest]; subst.
    destruct (@note_position_ok pm from l Hl) as (pm1 & E1 & Hk1 & Hl1).
    assert (Hrest1 : Forall (safe_label pm1) parsed).
    { eapply Forall_impl; [|exact Hrest]. intros x [Hx|Hx]; [left|now right].
      now rewrite (@has_own_keys _ _ pm1 pm x Hk1). }
    destruct (IH (S from) pm1 Hrest1) as (pm2 & E2 & Hk2 & Hl2).
    exists pm2. simpl. rewrite E1. simpl. split; [exact E2|].
    split; [congruence|].
    intros k. rewrite Hl2, Hl1, <- app_assoc. f_equal.
    rewrite (@has_own_keys _ _ pm1 pm k Hk1).
    destruct (has_own pm k); simpl; [|reflexivity].
    now destruct (str_eqb l k).
Qed.

Lemma note_rankings_ok (rs : list Ranking) :
  forall pm : obj (list nat),
    Forall (fun r => Forall (safe_label pm) (parsedRanking r)) rs ->
    exists pm',
      rfold (fun pm r => rfold_indexed note_position (parsedRanking r) 0 pm) rs pm
      = Ok pm'
      /\ map fst pm' = map fst pm
      /\ (forall k,
            entry_list pm' k
            = entry_list pm k
              ++ (if has_own pm k then label_positions k rs else [])).
Proof.
  induction rs as [|r rs IH]; intros pm Hall.
  - exists pm. simpl. split; [reflexivity|]. split; [reflexivity|].
    intros k. destruct (has_own pm k); now rewrite app_nil_r.
  - inversion Hall as [|? ? Hr Hrest]; subst.
    destruct (@note_positions_ok (parsedRanking r) 0%nat pm Hr) as (pm1 & E1 & Hk1 & Hl1).
    assert (Hrest1 : Forall (fun r => Forall (safe_label pm1) (parsedRanking r)) rs).
    { eapply Forall_impl; [|exact Hrest]. intros r' Hr'.
      eapply Forall_impl; [|exact Hr']. intros x [Hx|Hx]; [left|now right].
      now rewrite (@has_own_keys _ _ pm1 pm x Hk1). }
    destruct (IH pm1 Hrest1) as (pm2 & E2 & Hk2 & Hl2).
    exists pm2. simpl. rewrite E1. simpl. split; [exact E2|].
    split; [congruence|].
    intros k. rewrite Hl2, Hl1, <- app_assoc. f_equal.
    rewrite (@has_own_keys _ _ pm1 pm k Hk1).
    now destruct (has_own pm k).
Qed.

(** A lookup that returned was a safe one. *)
Lemma note_position_safe (pm pm' : obj (list nat)) (i : nat) (lbl : jsstring) :
  note_position pm i lbl = Ok pm' -> safe_label pm lbl.
Proof.
  unfold note_position, obj_get, safe_label, has_own.
  destruct (own_get pm lbl); [now left|].
  destruct (inherited lbl); [discriminate|now right].
Qed.

Lemma safe_label_keys (pm pm1 : obj (list nat)) (l : jsstring) :
  map fst pm1 = map fst pm -> safe_label pm1 l -> safe_label pm l.
Proof.
  intros Hk [H|H]; [left|now right].
  now rewrite <- (@has_own_keys _ _ pm1 pm l Hk).
Qed.

Lemma note_positions_safe (parsed : list jsstring) :
  forall (from : nat) (pm pm' : obj (list nat)),
    rfold_indexed note_position parsed from pm = Ok pm' ->
    Forall (safe_label pm) parsed.
Proof.
  induction parsed as [|l parsed IH]; intros from pm pm' H; [constructor|].
  cbn [rfold_indexed] in H.
  destruct (note_position pm from l) as [pm1|e] eqn:E; [|discriminate].
  cbn [rbind] in H. constructor.
  - eapply note_position_safe; eauto.
  - apply IH in H. eapply Forall_impl; [|exact H].
    intros x. apply safe_label_keys. eapply note_position_keys; eauto.
Qed.

Lemma note_rankings_safe (rs : list Ranking) :
  forall pm pm' : obj (list nat),
    rfold (fun pm r => rfold_indexed note_position (parsedRanking r) 0 pm) rs pm
    = Ok pm' ->
    Forall (fun r => Forall (safe_label pm) (parsedRanking r)) rs.
Proof.
  induction rs as [|r rs IH]; intros pm pm' H; [constructor|].
  cbn [rfold] in H.
  destruct (rfold_indexed note_position (parsedRanking r) 0 pm) as [pm1|e] eqn:E;
    [|discriminate].
  cbn [rbind] in H. constructor.
  - eapply note_positions_safe; eauto.
  - apply IH in H. eapply Forall_impl; [|exact H].
    intros r' Hr'. eapply Forall_impl; [|exact Hr'].
    intros x. apply safe_label_keys. eapply note_positions_keys; eauto.
Qed.

(** A ranking without labels gives no position, so the usable rankings
    and the valid ones give the same positions. *)
Lemma label_positions_usable (k : jsstring) (rs : list Ranking) :
  label_positions k (filter usable rs) = valid_positions k rs.
Proof.
  unfold valid_positions, label_positions.
  induction rs as [|r rs IH]; simpl; [reflexivity|].
  unfold usable at 1. destruct (isValid r); simpl; [|exact IH].
  destruct (parsedRanking r) as [|l p] eqn:E; simpl.
  - exact IH.
  - rewrite E. now rewrite IH.
Qed.

(** ** Variances and consensus *)

Lemma variances_keys (pm : obj (list nat)) (labels : list jsstring) :
  forall (acc : obj LabelStats) (k : jsstring),
    In k (map fst (fold_left (note_variance pm) labels acc)) ->
    In k labels \/ In k (map fst acc).
Proof.
  induction labels as [|l labels IH]; intros acc k; simpl; [tauto|].
  intros H. apply IH in H. destruct H as [H|H]; [tauto|].
  unfold note_variance in H. destruct (own_get pm l) as [ps|]; [|tauto].
  destruct (length ps =? 0)%nat; [tauto|].
  apply obj_set_In_keys in H. destruct H as [->|H]; tauto.
Qed.

Lemma variances_shape (pm : obj (list nat)) (labels : list jsstring) :
  forall acc : obj LabelStats,
    NoDup labels ->
    (forall l, In l labels -> has_own pm l = true) ->
    (forall l, In l labels -> ~ In l (map fst acc)) ->
    fold_left (note_variance pm) labels acc
    = acc ++ map (fun l => (l, label_stats (entry_list pm l)))
               (filter (fun l => 0 <? length (entry_list pm l))%nat labels).
Proof.
  induction labels as [|l labels IH]; intros acc Hnd Hown Hfresh; simpl.
  - now rewrite app_nil_r.
  - inversion Hnd as [|? ? Hl Hnd']; subst.
    assert (Hl_own : has_own pm l = true) by (apply Hown; now left).
    unfold note_variance at 2. unfold entry_list at 2.
    unfold has_own in Hl_own.
    destruct (own_get pm l) as [ps|] eqn:E; [|discriminate].
    destruct ps as [|p ps]; cbn [length Nat.eqb Nat.ltb Nat.leb].
    + apply IH; [exact Hnd'| |].
      * intros x Hx. apply Hown. now right.
      * intros x Hx. apply Hfresh. now right.
    + rewrite obj_set_fresh by (apply Hfresh; now left).
      rewrite IH; [|exact Hnd'| |].
      * rewrite <- app_assoc. cbn [map app]. unfold entry_list at 3.
        now rewrite E.
      * intros x Hx. apply Hown. now right.
      * intros x Hx. rewrite map_app, in_app_iff. cbn.
        intros [H|[<-|[]]]; [|contradiction].
        apply (Hfresh x); [now right|exact H].
Qed.

Lemma label_stats_mean (ps : list nat) :
  mean (label_stats ps) == arithmetic_mean ps.
Proof.
  unfold label_stats, arithmetic_mean. cbn [mean].
  rewrite fold_sum_map. now rewrite Qplus_0_l.
Qed.

Lemma label_stats_variance (ps : list nat) :
  variance (label_stats ps) == population_variance ps.
Proof.
  pose proof (label_stats_mean ps) as Hm.
  unfold label_stats in *. cbn [mean variance] in *.
  unfold population_variance.
  rewrite fold_sum_map, Qplus_0_l.
  rewrite (Qsum_ext
             (fun pos =>
                (Q_of_nat pos
                 - fold_left (fun a b => a + Q_of_nat b) ps 0
                   / Q_of_nat (length ps))
                * (Q_of_nat pos
                   - fold_left (fun a b => a + Q_of_nat b) ps 0
                     / Q_of_nat (length ps)))
             (fun x => (Q_of_nat x - arithmetic_mean ps) ^ 2));
    [reflexivity|].
  intros x _. rewrite Hm. ring.
Qed.

Lemma own_get_init (labels : list jsstring) (k : jsstring) :
  own_get (map (fun l : jsstring => (l, @nil nat)) labels) k
  = if in_dec (list_eq_dec N.eq_dec) k labels then Some [] else None.
Proof.
  induction labels as [|l labels IH]; simpl; [reflexivity|].
  destruct (str_eqb l k) eqn:E.
  - apply str_eqb_eq in E. subst.
    destruct (list_eq_dec N.eq_dec k k); [reflexivity|congruence].
  - apply str_eqb_neq in E.
    destruct (list_eq_dec N.eq_dec l k); [congruence|].
    rewrite IH. now destruct (in_dec (list_eq_dec N.eq_dec) k labels).
Qed.

(** What the analyzer has computed when it returns with at least two
    usable rankings: the matrix holds, under each label of
    [labelToModel], the positions the valid rankings give to it, and the
    consensus is the formula of the source applied to the sum of the
    population variances. *)
Lemma analyze_spec (rs : list Ranking) (ltm : obj ModelInfo)
  (report : DisagreementReport) :
  plain_object ltm ->
  (2 <= valid_count rs)%nat ->
  analyzeDisagreements rs ltm = Ok report ->
  exists pm tv,
    positionMatrix report = Some pm
    /\ map fst pm = Object_keys ltm
    /\ (forall k, In k (Object_keys ltm) ->
                  entry_list pm k = valid_positions k rs)
    /\ consensus report
       = js_round2
           (js_max0
              (js_one_minus
                 (js_div tv
                    (Q_of_nat (length (Object_keys ltm))
                     * Q_of_nat (length (Object_keys ltm)) / 12
                     * Q_of_nat (length (Object_keys ltm))))))
    /\ tv == total_variance ltm rs.
Proof.
  intros [Hnd _] Hcount Hrun. unfold analyzeDisagreements in Hrun.
  rewrite usable_count in Hrun.
  replace (valid_count rs <? 2)%nat with false in Hrun
    by (symmetry; apply Nat.ltb_ge; exact Hcount).
  set (labels := Object_keys ltm) in *.
  assert (Hlabels : NoDup labels) by now apply Object_keys_NoDup.
  rewrite (@init_matrix labels [] Hlabels) in Hrun by (intros k _ []).
  cbn [app] in Hrun.
  set (pm0 := map (fun l : jsstring => (l, @nil nat)) labels) in *.
  assert (Hk0 : map fst pm0 = labels).
  { unfold pm0. rewrite map_map. cbn [fst]. apply map_id. }
  match type of Hrun with
  | context [rfold ?f (filter usable rs) pm0] =>
      destruct (rfold f (filter usable rs) pm0) as [pm|err] eqn:E;
        [|discriminate]
  end.
  cbn [rbind] in Hrun. injection Hrun as <-.
  destruct (@note_rankings_ok (filter usable rs) pm0 (note_rankings_safe _ _ E))
    as (pm' & E' & Hk & Hl).
  rewrite E in E'. injection E' as <-.
  assert (Hpos : forall k, In k labels -> entry_list pm k = valid_positions k rs).
  { intros k Hin. rewrite Hl.
    assert (H0 : has_own pm0 k = true) by (apply has_own_In; now rewrite Hk0).
    rewrite H0. unfold entry_list, pm0. rewrite own_get_init.
    destruct (in_dec (list_eq_dec N.eq_dec) k labels); [|contradiction].
    cbn [app]. apply label_positions_usable. }
  exists pm. eexists.
  split; [reflexivity|].
  split; [now rewrite Hk|]. split; [exact Hpos|].
  split; [reflexivity|].
  (* the sum of the variances *)
  rewrite fold_sum_map, Qplus_0_l.
  rewrite (@variances_shape pm labels [] Hlabels);
    [|intros l Hin; apply has_own_In; now rewrite Hk, Hk0|intros l _ []].
  cbn [app]. unfold Object_values.
  rewrite (Qsum_perm
             (Permutation_map variance
                (Permutation_map snd (Object_entries_perm _)))).
  rewrite !map_map. cbn [snd]. unfold total_variance. fold labels.
  rewrite (filter_ext_in
             (fun l => 0 <? length (entry_list pm l))%nat
             (fun l => 0 <? length (valid_positions l rs))%nat)
    by (intros l Hin; now rewrite Hpos).
  apply Qsum_ext. intros l Hin. apply filter_In in Hin.
  rewrite Hpos by apply Hin. apply label_stats_variance.
Qed.

(** The analyzer throws only on a label that is an inherited name. *)
Lemma analyze_returns (rs : list Ranking) (ltm : obj ModelInfo) :
  Forall own_labels rs ->
  exists report, analyzeDisagreements rs ltm = Ok report.
Proof.
  intros Hall. unfold analyzeDisagreements.
  destruct (length (filter usable rs) <? 2)%nat; [eexists; reflexivity|].
  match goal with
  | |- context [rfold ?f (filter usable rs) ?pm0] =>
      destruct (@note_rankings_ok (filter usable rs) pm0) as (pm & E & _)
  end.
  { apply Forall_forall. intros r Hr. apply filter_In in Hr.
    destruct Hr as [Hr _].
    pose proof (proj1 (Forall_forall _ _) Hall r Hr) as Hown.
    eapply Forall_impl; [|exact Hown]. intros l Hl. now right. }
  rewrite E. eexists. reflexivity.
Qed.

Lemma existsb_str_eqb (x : jsstring) (l : list jsstring) :
  existsb (str_eqb x) l = true <-> In x l.
Proof.
  rewrite existsb_exists. split.
  - intros (y & Hy & E). apply str_eqb_eq in E. now subst.
  - intros H. exists x. split; [exact H|apply str_eqb_refl].
Qed.

Lemma distinct_NoDup (l : list jsstring) : distinct l = true -> NoDup l.
Proof.
  induction l as [|x l IH]; simpl; [constructor|].
  intros H. apply andb_prop in H. destruct H as [Hx Hl].
  constructor; [|now apply IH].
  intros Hin. apply existsb_str_eqb in Hin. rewrite Hin in Hx. discriminate.
Qed.

Lemma plain_object_check (V : Type) (o : obj V) :
  plain_objectb o = true -> plain_object o.
Proof.
  unfold plain_objectb, plain_object. intros H. apply andb_prop in H.
  destruct H as [Hd Hp]. split; [now apply distinct_NoDup|].
  intros Hin. apply existsb_str_eqb in Hin. rewrite Hin in Hp. discriminate.
Qed.

Lemma all_own_labels_check (rs : list Ranking) :
  all_own_labels rs = true -> Forall own_labels rs.
Proof.
  unfold all_own_labels, own_labels. intros H.
  apply Forall_forall. intros r Hr. apply Forall_forall. intros l Hl.
  rewrite forallb_forall in H. specialize (H r Hr).
  rewrite forallb_forall in H. specialize (H l Hl).
  now apply negb_true_iff in H.
Qed.

(** ** C5: the consensus score *)

Lemma denominator_nonzero (n : nat) :
  (0 < n)%nat ->
  Qeq_bool (Q_of_nat n * Q_of_nat n / 12 * Q_of_nat n) 0 = false.
Proof.
  intros H. apply Q_of_nat_pos in H.
  destruct (Qeq_bool (Q_of_nat n * Q_of_nat n / 12 * Q_of_nat n) 0) eqn:E;
    [|reflexivity].
  apply Qeq_bool_iff in E. exfalso.
  assert (Hpos : 0 < Q_of_nat n * Q_of_nat n / 12 * Q_of_nat n).
  { apply Qmult_lt_0_compat; [|exact H].
    apply Qlt_shift_div_l; [reflexivity|]. rewrite Qmult_0_l.
    now apply Qmult_lt_0_compat. }
  rewrite E in Hpos. now apply (Qlt_irrefl 0).
Qed.

Lemma consensus_sound (rs : list Ranking) (ltm : obj ModelInfo)
  (report : DisagreementReport) :
  plain_object ltm ->
  (1 <= length (Object_keys ltm))%nat ->
  (2 <= valid_count rs)%nat ->
  analyzeDisagreements rs ltm = Ok report ->
  exists c,
    consensus report = Num c
    /\ c == round2
              (Qmax 0
                 (1 - total_variance ltm rs
                      / (max_possible_variance (length (Object_keys ltm))
                         * Q_of_nat (length (Object_keys ltm))))).
Proof.
  intros Hplain Hne Hcount Hrun.
  destruct (@analyze_spec rs ltm report Hplain Hcount Hrun)
    as (pm & tv & _ & _ & _ & Hc & Htv).
  unfold js_div in Hc. rewrite (denominator_nonzero Hne) in Hc.
  cbn [js_one_minus js_max0 js_round2] in Hc.
  eexists. split; [exact Hc|].
  rewrite Htv. unfold max_possible_variance.
  assert (Hden : Q_of_nat (length (Object_keys ltm))
                 * Q_of_nat (length (Object_keys ltm)) / 12
                 * Q_of_nat (length (Object_keys ltm))
                 == Q_of_nat (length (Object_keys ltm)) ^ 2 / 12
                    * Q_of_nat (length (Object_keys ltm))).
  { unfold Qdiv. ring. }
  now rewrite Hden.
Qed.




(** Without any label the division is 0/0 and the consensus is NaN. *)
Lemma consensus_of_no_labels (rs : list Ranking) :
  (2 <= valid_count rs)%nat ->
  Forall own_labels rs ->
  exists report,
    analyzeDisagreements rs [] = Ok report /\ consensus report = NaN.
Proof.
  intros Hcount Hall.
  assert (Hplain : plain_object (@nil (jsstring * ModelInfo))).
  { split; [constructor|intros []]. }
  destruct (@analyze_returns rs [] Hall) as (report & E).
  destruct (@analyze_spec rs [] report Hplain Hcount E) as (pm & tv & _ & _ & _ & Hc & Htv).
  exists report. split; [exact E|]. rewrite Hc.
  assert (H0 : Qeq_bool tv 0 = true).
  { apply Qeq_bool_iff. rewrite Htv. reflexivity. }
  unfold js_div. cbn [Object_keys Object_entries filter fold_right app map length].
  rewrite H0. reflexivity.
Qed.

(** ** Labels produced by the parser *)

(** A pattern without quantifier consumes exactly its width. *)
Lemma rmatch_width (A : Type) (ic : bool) (r : regex) :
  forall (n : nat) (s : jsstring) (caps : captures)
         (k : jsstring -> captures -> option A) (x : A),
    width r = Some n ->
    rmatch ic r s caps k = Some x ->
    exists pre rest caps',
      s = pre ++ rest /\ length pre = n /\ k rest caps' = Some x.
Proof.
  induction r as [|a|a|a|a|r1 IH1 r2 IH2|r1 IH1 r2 IH2|r1 IH1];
    intros n s caps k x Hw Hm; cbn [width rmatch] in *.
  - injection Hw as <-. exists [], s, caps. auto.
  - injection Hw as <-. destruct s as [|c s']; [discriminate|].
    destruct (cset_mem ic a c); [|discriminate].
    exists [c], s', caps. auto.
  - discriminate.
  - discriminate.
  - discriminate.
  - destruct (width r1) as [a|]; [|discriminate].
    destruct (width r2) as [b|]; [|discriminate].
    injection Hw as <-.
    destruct (IH1 a s caps _ x eq_refl Hm) as (p1 & rest1 & c1 & -> & <- & H1).
    destruct (IH2 b rest1 c1 k x eq_refl H1) as (p2 & rest2 & c2 & -> & <- & H2).
    exists (p1 ++ p2), rest2, c2. rewrite <- app_assoc, length_app. auto.
  - destruct (width r1) as [a|]; [|discriminate].
    destruct (width r2) as [b|]; [|discriminate].
    destruct (a =? b)%nat eqn:E; [|discriminate].
    apply Nat.eqb_eq in E. subst b. injection Hw as <-.
    destruct (rmatch ic r1 s caps k) as [y|] eqn:E1.
    + injection Hm as ->. eapply IH1; eauto.
    + eapply IH2; eauto.
  - destruct (IH1 n s caps _ x Hw Hm) as (p & rest & c & -> & <- & H).
    exists p, rest, (c ++ [consumed (p ++ rest) rest]). auto.
Qed.

Lemma exec_at_width (ic : bool) (r : regex) (n : nat) (s : jsstring)
  (m : rmatch_result) :
  width r = Some n -> exec_at ic r s = Some m -> length (matched m) = n.
Proof.
  intros Hw Hm. unfold exec_at in Hm.
  destruct (rmatch_width ic r s [] _ Hw Hm) as (p & rest & c & -> & <- & H).
  injection H as <-. cbn [matched]. now rewrite consumed_app.
Qed.

Lemma str_match_width (ic : bool) (r : regex) (n : nat) (s : jsstring)
  (m : rmatch_result) :
  width r = Some n -> str_match ic r s = Some m -> length (matched m) = n.
Proof.
  intros Hw. induction s as [|c s IH]; cbn [str_match].
  - destruct (exec_at ic r []) as [m'|] eqn:E; [|discriminate].
    intros [= <-]. eapply exec_at_width; eauto.
  - destruct (exec_at ic r (c :: s)) as [m'|] eqn:E; [|exact IH].
    intros [= <-]. eapply exec_at_width; eauto.
Qed.

Lemma match_all_width (ic : bool) (r : regex) (n : nat) (s : jsstring) :
  width r = Some n ->
  forall skip, Forall (fun x => length x = n) (match_all_go ic r s skip).
Proof.
  intros Hw. induction s as [|c s IH]; intros skip; cbn [match_all_go].
  - destruct skip; [|constructor].
    destruct (exec_at ic r []) as [m|] eqn:E; [|constructor].
    constructor; [|constructor]. eapply exec_at_width; eauto.
  - destruct skip; [|apply IH].
    destruct (exec_at ic r (c :: s)) as [m|] eqn:E; [|apply IH].
    constructor; [|apply IH]. eapply exec_at_width; eauto.
Qed.

Lemma str_match_g_width (ic : bool) (r : regex) (n : nat) (s : jsstring)
  (l : list jsstring) :
  width r = Some n -> str_match_g ic r s = Some l ->
  Forall (fun x => length x = n) l.
Proof.
  intros Hw. unfold str_match_g.
  pose proof (match_all_width ic r s Hw 0) as H.
  destruct (match_all_go ic r s 0); [discriminate|].
  now intros [= <-].
Qed.

Lemma width_re_label : width re_label = Some 10%nat.
Proof. reflexivity. Qed.

Lemma record_label_shaped (acc : ParsedRanking) (l : jsstring) (c : Confidence) :
  Forall label_shaped (ranking acc) -> label_shaped l ->
  Forall label_shaped (ranking (record_label acc l c)).
Proof.
  intros Hacc Hl. unfold record_label. cbn [ranking].
  apply Forall_app. split; [exact Hacc|]. now constructor.
Qed.

Lemma fold_shaped (f : ParsedRanking -> jsstring -> ParsedRanking)
  (l : list jsstring) :
  (forall acc m, Forall label_shaped (ranking acc) ->
                 Forall label_shaped (ranking (f acc m))) ->
  forall acc, Forall label_shaped (ranking acc) ->
              Forall label_shaped (ranking (fold_left f l acc)).
Proof.
  intros Hf. induction l as [|m l IH]; intros acc Hacc; simpl; [exact Hacc|].
  apply IH. now apply Hf.
Qed.

Lemma record_numbered_confidence_shaped (acc : ParsedRanking) (m : jsstring) :
  Forall label_shaped (ranking acc) ->
  Forall label_shaped (ranking (record_numbered_confidence acc m)).
Proof.
  intros Hacc. unfold record_numbered_confidence.
  destruct (str_match true re_label m) as [lm|] eqn:E; [|exact Hacc].
  pose proof (str_match_width _ _ _ width_re_label E) as Hl.
  destruct (str_match true re_confidence m);
    now apply record_label_shaped.
Qed.

Lemma record_numbered_shaped (acc : ParsedRanking) (m : jsstring) :
  Forall label_shaped (ranking acc) ->
  Forall label_shaped (ranking (record_numbered acc m)).
Proof.
  intros Hacc. unfold record_numbered.
  destruct (str_match false re_label m) as [lm|] eqn:E; [|exact Hacc].
  pose proof (str_match_width _ _ _ width_re_label E) as Hl.
  now apply record_label_shaped.
Qed.

Lemma fold_plain_shaped (l : list jsstring) :
  Forall label_shaped l ->
  forall acc, Forall label_shaped (ranking acc) ->
              Forall label_shaped (ranking (fold_left record_plain l acc)).
Proof.
  induction l as [|m l IH]; intros Hl acc Hacc; simpl; [exact Hacc|].
  inversion Hl; subst. apply IH; [assumption|].
  now apply record_label_shaped.
Qed.

Lemma parse_whole_text_shaped (text : jsstring) :
  Forall label_shaped (ranking (parse_whole_text text)).
Proof.
  unfold parse_whole_text.
  destruct (str_match_g false re_label text) as [l|] eqn:E; [|constructor].
  apply fold_plain_shaped; [|constructor].
  eapply str_match_g_width; eauto. exact width_re_label.
Qed.

(** Whatever the text, every label the parser returns has the ten code
    units of [Response X]. *)
Lemma parse_labels_shaped (text : jsstring) :
  Forall label_shaped (ranking (parseRankingWithConfidence text)).
Proof.
  unfold parseRankingWithConfidence.
  destruct (includes text FINAL_RANKING); [|apply parse_whole_text_shaped].
  destruct (2 <=? length (split text FINAL_RANKING))%nat;
    [|apply parse_whole_text_shaped].
  cbv zeta.
  destruct (str_match_g true re_numbered_confidence _) as [l1|].
  { apply fold_shaped; [apply record_numbered_confidence_shaped|constructor]. }
  destruct (str_match_g false re_numbered _) as [l2|].
  { apply fold_shaped; [apply record_numbered_shaped|constructor]. }
  destruct (str_match_g false re_label _) as [l3|] eqn:E3;
    [|apply parse_whole_text_shaped].
  apply fold_plain_shaped; [|constructor].
  eapply str_match_g_width; eauto. exact width_re_label.
Qed.

(** No name inherited from [Object.prototype] has ten code units. *)
Lemma label_shaped_not_inherited (l : jsstring) :
  label_shaped l -> inherited l = false.
Proof.
  unfold label_shaped, inherited. intros H.
  destruct (existsb (str_eqb l) Object_prototype_names) eqn:E; [|reflexivity].
  apply existsb_exists in E. destruct E as (name & Hin & Heq).
  apply str_eqb_eq in Heq. subst name. exfalso.
  assert (Hall : Forall (fun name => length name <> 10%nat) Object_prototype_names).
  { repeat constructor; vm_compute; discriminate. }
  exact (proj1 (Forall_forall _ _) Hall l Hin H).
Qed.

(** ** The confidence group *)

Lemma rmatch_rlit_folded (A : Type) (w : jsstring) :
  forall (s : jsstring) (caps : captures)
         (k : jsstring -> captures -> option A) (x : A),
    rmatch true (rlit w) s caps k = Some x ->
    exists pre rest,
      s = pre ++ rest /\ toUpperCase pre = toUpperCase w
      /\ k rest caps = Some x.
Proof.
  induction w as [|c w IH]; intros s caps k x H; cbn [rlit rmatch] in H.
  - exists [], s. auto.
  - destruct s as [|d s']; [discriminate|].
    cbn [cset_mem] in H.
    destruct (N.eqb_spec (to_upper c) (to_upper d)) as [E|E]; [|discriminate].
    destruct (IH s' caps k x H) as (pre & rest & -> & Hup & Hk).
    exists (d :: pre), rest. cbn [app toUpperCase map].
    unfold toUpperCase in Hup. rewrite Hup, E. auto.
Qed.

(** The group of [(HIGH|MEDIUM|LOW)] captures one of the three words, in
    any case. *)
Lemma re_level_group (A : Type) (s : jsstring) (caps : captures)
  (k : jsstring -> captures -> option A) (x : A) :
  rmatch true re_level s caps k = Some x ->
  exists pre rest,
    s = pre ++ rest
    /\ (exists c, Confidence_of_string (toUpperCase pre) = Some c)
    /\ k rest (caps ++ [pre]) = Some x.
Proof.
  unfold re_level. cbn [rmatch]. intros H.
  assert (Hcase :
    exists w,
      (w = js "HIGH" \/ w = js "MEDIUM" \/ w = js "LOW")
      /\ rmatch true (rlit w) s caps
           (fun s1 caps1 => k s1 (caps1 ++ [consumed s s1])) = Some x).
  { destruct (rmatch true (rlit (js "HIGH")) s caps _) eqn:E1.
    - exists (js "HIGH"). split; [auto|]. now rewrite E1.
    - destruct (rmatch true (rlit (js "MEDIUM")) s caps _) eqn:E2.
      + exists (js "MEDIUM"). split; [auto|]. now rewrite E2.
      + exists (js "LOW"). auto. }
  destruct Hcase as (w & Hw & Hm).
  apply rmatch_rlit_folded in Hm. destruct Hm as (pre & rest & -> & Hup & Hk).
  rewrite consumed_app in Hk. exists pre, rest.
  split; [reflexivity|]. split; [|exact Hk].
  rewrite Hup. destruct Hw as [->|[->| ->]]; eexists; reflexivity.
Qed.

Lemma str_match_exec (ic : bool) (r : regex) (s : jsstring) (m : rmatch_result) :
  str_match ic r s = Some m -> exists s', exec_at ic r s' = Some m.
Proof.
  induction s as [|c s IH]; cbn [str_match].
  - destruct (exec_at ic r []) eqn:E; [|discriminate].
    intros [= <-]. eauto.
  - destruct (exec_at ic r (c :: s)) eqn:E; [|exact IH].
    intros [= <-]. eauto.
Qed.

(** The default branch of [level_of_group] is never taken on a match of
    the confidence pattern. *)
Lemma level_of_group_total (m : jsstring) (cm : rmatch_result) :
  str_match true re_confidence m = Some cm ->
  Confidence_of_string (toUpperCase (nth 0 (groups cm) []))
  = Some (level_of_group (nth 0 (groups cm) [])).
Proof.
  intros H. apply str_match_exec in H. destruct H as (s & H).
  unfold exec_at, re_confidence, rseq in H. cbn [fold_right] in H.
  cbn [rmatch] in H. destruct s as [|d s1]; [discriminate|].
  destruct (cset_mem true (CChar 40) d); [|discriminate].
  apply re_level_group in H.
  destruct H as (pre & rest & -> & (c & Hc) & H).
  cbn [app] in H. destruct rest as [|e rest']; [discriminate|].
  destruct (cset_mem true (CChar 41) e); [|discriminate].
  injection H as <-. cbn [groups nth].
  unfold level_of_group. now rewrite Hc.
Qed.

(** ** The label map of the collector *)

Lemma mapi_length (A B : Type) (f : A -> nat -> B) (l : list A) :
  forall from, length (mapi f l from) = length l.
Proof. induction l as [|x l IH]; intros from; simpl; [|rewrite IH]; reflexivity. Qed.

Lemma mapi_nth_error (A B : Type) (f : A -> nat -> B) (l : list A) :
  forall from i x,
    nth_error l i = Some x ->
    nth_error (mapi f l from) i = Some (f x (from + i)%nat).
Proof.
  induction l as [|y l IH]; intros from i x H.
  - destruct i; discriminate.
  - destruct i as [|i]; simpl in *.
    + injection H as ->. now rewrite Nat.add_0_r.
    + rewrite (IH (S from) i x H). f_equal. f_equal. lia.
Qed.

Lemma letter_inj (i j : nat) : letter i = letter j -> i = j.
Proof. unfold letter. lia. Qed.

Lemma label_of_index_letter (i : nat) :
  (N.of_nat i < 65471)%N -> label_of_index i = [letter i].
Proof.
  intros H. unfold label_of_index, fromCharCode, letter.
  rewrite N.mod_small by lia. reflexivity.
Qed.

Lemma response_key_inj (a b : N) :
  js "Response " ++ [a] = js "Response " ++ [b] -> a = b.
Proof. intros H. cbn in H. now injection H. Qed.

Lemma labels_in_order_keys (rs : list Response) :
  forall from k,
    In k (map fst (mapi (fun r i => (js "Response " ++ [letter i],
                                     mkInfo (modelId r) (modelName r)))
                     rs from)) ->
    exists i, (from <= i)%nat /\ k = js "Response " ++ [letter i].
Proof.
  induction rs as [|r rs IH]; intros from k; simpl; [tauto|].
  intros [<-|H].
  - exists from. auto.
  - destruct (IH (S from) k H) as (i & Hi & ->). exists i. split; [lia|auto].
Qed.

Lemma labels_in_order_NoDup (rs : list Response) :
  forall from,
    NoDup (map fst (mapi (fun r i => (js "Response " ++ [letter i],
                                      mkInfo (modelId r) (modelName r)))
                      rs from)).
Proof.
  induction rs as [|r rs IH]; intros from; simpl; constructor; [|apply IH].
  intros H. apply labels_in_order_keys in H. destruct H as (i & Hi & E).
  assert (E' : letter from = letter i) by (apply response_key_inj; exact E).
  apply letter_inj in E'. lia.
Qed.

(** As long as the code units do not wrap around, each assignment creates
    a new property, so the map lists the responses in input order. *)
Lemma make_labelToModel_go (rs : list Response) :
  forall (from : nat) (o : obj ModelInfo),
    (N.of_nat (from + length rs) <= 65471)%N ->
    (forall i, (from <= i)%nat ->
               ~ In (js "Response " ++ [letter i]) (map fst o)) ->
    fold_left
      (fun o lr =>
         obj_set o (js "Response " ++ fst lr)
           (mkInfo (modelId (snd lr)) (modelName (snd lr))))
      (combine (mapi (fun _ i => label_of_index i) rs from) rs) o
    = o ++ mapi (fun r i => (js "Response " ++ [letter i],
                             mkInfo (modelId r) (modelName r)))
            rs from.
Proof.
  induction rs as [|r rs IH]; intros from o Hlen Hfresh.
  - simpl. now rewrite app_nil_r.
  - cbn [mapi combine fold_left fst snd length] in *.
    rewrite label_of_index_letter by lia.
    rewrite obj_set_fresh by (apply Hfresh; lia).
    rewrite IH; [now rewrite <- app_assoc|lia|].
    intros i Hi. rewrite map_app, in_app_iff. cbn [map fst In].
    intros [H|[H|[]]].
    + apply (Hfresh i); [lia|exact H].
    + assert (E' : letter from = letter i) by (apply response_key_inj; exact H).
      apply letter_inj in E'. lia.
Qed.

Lemma make_labelToModel_in_order (rs : list Response) :
  (N.of_nat (length rs) <= 65471)%N ->
  make_labelToModel (make_labels rs) rs = labels_in_order rs.
Proof.
  intros H. unfold make_labelToModel, make_labels, labels_in_order.
  rewrite make_labelToModel_go; [reflexivity|simpl; lia|intros i _ []].
Qed.

Lemma letter_upper (i : nat) : (i < 26)%nat -> is_upper_letter (letter i) = true.
Proof.
  intros H. unfold is_upper_letter, in_range, letter.
  apply andb_true_intro. split; apply N.leb_le; lia.
Qed.

(** ** The collector, the synthesizer and the orchestrator *)

Lemma mmap_ok (A B : Type) (f : A -> M B) (P : B -> Prop) :
  (forall x tr, exists y tr', f x tr = (Ok y, tr') /\ P y) ->
  forall l tr,
    exists ys tr',
      mmap f l tr = (Ok ys, tr') /\ length ys = length l /\ Forall P ys.
Proof.
  intros Hf. induction l as [|x l IH]; intros tr.
  - exists [], tr. simpl. auto.
  - destruct (Hf x tr) as (y & tr1 & E1 & Hy).
    destruct (IH tr1) as (ys & tr2 & E2 & Hlen & Hys).
    exists (y :: ys), tr2. cbn [mmap]. unfold mbind at 1. rewrite E1.
    unfold mbind at 1. rewrite E2. unfold mret. simpl.
    split; [reflexivity|]. split; [now rewrite Hlen|now constructor].
Qed.

Section CouncilProperties.

Variable completion :
  Trace -> jsstring -> list Message -> jsstring -> JsResult jsstring.
Variable getStats : unit -> list ModelStats.
Variable crit : jsstring -> option Criteria.

(** Sending the requests: one event for each response, in order, and
    for each the outcome the completion service will give. *)
Lemma send_all (messages : list Message) (apiKey : jsstring)
  (responses : list Response) :
  forall tr,
    exists replies,
      mmap (fun r => send completion (modelId r) messages apiKey) responses tr
      = (Ok replies,
         tr ++ map (fun r => ChatCompletion (modelId r) messages apiKey)
                 responses)
      /\ Forall2
           (fun r reply =>
              exists tr0, reply = completion tr0 (modelId r) messages apiKey)
           responses replies.
Proof.
  induction responses as [|r responses IH]; intros tr.
  - exists []. cbn. rewrite app_nil_r. split; [reflexivity|constructor].
  - destruct (IH (tr ++ [ChatCompletion (modelId r) messages apiKey]))
      as (replies & E & H).
    exists (completion tr (modelId r) messages apiKey :: replies).
    cbn [mmap map]. unfold mbind at 1, send at 1.
    unfold mbind at 1. rewrite E. unfold mret. rewrite <- app_assoc.
    split; [reflexivity|]. constructor; [now exists tr|exact H].
Qed.

(** Handling a reply never throws: a failure of the service is turned
    into an invalid ranking. *)
Lemma rank_with_ok (n : nat) (r : Response) (reply : JsResult jsstring)
  (tr : Trace) :
  exists rk tr',
    rank_with crit n r reply tr = (Ok rk, tr') /\ own_labels rk.
Proof.
  unfold rank_with, mcatch, mbind, lift, mret, emit.
  destruct reply as [text|err].
  - eexists. eexists. split; [reflexivity|].
    unfold own_labels. cbn [parsedRanking].
    eapply Forall_impl; [|apply parse_labels_shaped].
    intros l. apply label_shaped_not_inherited.
  - eexists. eexists. split; [reflexivity|]. constructor.
Qed.

Lemma collectRankings_ok (userQuery : jsstring) (responses : list Response)
  (apiKey : jsstring) (tr : Trace) :
  exists c tr',
    collectRankings completion crit userQuery responses apiKey tr = (Ok c, tr')
    /\ length (collected_rankings c) = length responses
    /\ Forall own_labels (collected_rankings c)
    /\ collected_labelToModel c
       = make_labelToModel (make_labels responses) responses.
Proof.
  unfold collectRankings, Promise_all_map. cbv zeta.
  match goal with
  | |- context [mmap (fun r => send _ _ ?msgs _) responses] =>
      set (messages := msgs);
      destruct (send_all messages apiKey responses tr)
        as (replies & E0 & Hrep)
  end.
  apply Forall2_length in Hrep.
  match goal with
  | |- context [mmap ?f (combine responses _)] =>
      destruct (@mmap_ok _ _ f own_labels
                  (fun x tr0 => rank_with_ok _ (fst x) (snd x) tr0)
                  (combine responses replies)
                  (tr ++ map (fun r => ChatCompletion (modelId r) messages
                                         apiKey)
                           responses))
        as (rks & tr1 & E & Hlen & Hall)
  end.
  unfold mbind. rewrite E0, E. unfold mret.
  eexists. eexists. split; [reflexivity|]. cbn.
  rewrite Hlen, length_combine, <- Hrep, Nat.min_id. auto.
Qed.

(** When the request fails, the synthesizer returns the error text as
    content. *)
Lemma synthesizeFinal_failure (userQuery : jsstring) (responses : list Response)
  (rks : list Ranking) (chairman apiKey : jsstring) (tr : Trace)
  (err : JsError) :
  completion tr chairman (synthesis_messages userQuery responses rks) apiKey
  = Throw err ->
  synthesizeFinal completion userQuery responses rks chairman apiKey tr
  = (Ok (mkResponse chairman (js "Chairman")
           (js "Error synthesizing response: " ++ message_of err)),
     tr ++ [ChatCompletion chairman
              (synthesis_messages userQuery responses rks) apiKey;
            ConsoleError (js "Error in chairman synthesis:") err]).
Proof.
  intros H. unfold synthesizeFinal, mcatch, mbind, chat, mret, emit.
  rewrite H. now rewrite <- app_assoc.
Qed.

Lemma synthesizeFinal_ok (userQuery : jsstring) (responses : list Response)
  (rks : list Ranking) (chairman apiKey : jsstring) (tr : Trace) :
  exists s tr',
    synthesizeFinal completion userQuery responses rks chairman apiKey tr
    = (Ok s, tr').
Proof.
  unfold synthesizeFinal, mcatch, mbind, chat, mret, emit.
  destruct (completion tr chairman _ apiKey); eexists; eexists; reflexivity.
Qed.

End CouncilProperties.

(** ** C7: the label map for at most 26 responses *)

(** C7 (amended).  For 2 to 26 responses the collector returns, and its
    [labelToModel] has one entry per response, in input order: the [i]-th
    response stands under [Response] followed by the [i]-th upper-case
    letter, so the labels are distinct single letters. *)
Theorem labels_unique_in_input_order :
  forall completion crit userQuery (responses : list Response) apiKey tr,
    (2 <= length responses <= 26)%nat ->
    exists c tr',
      collectRankings completion crit userQuery responses apiKey tr = (Ok c, tr')
      /\ length (collected_labelToModel c) = length responses
      /\ NoDup (map fst (collected_labelToModel c))
      /\ (forall i r,
            nth_error responses i = Some r ->
            nth_error (collected_labelToModel c) i
            = Some (js "Response " ++ [letter i],
                    mkInfo (modelId r) (modelName r))
            /\ is_upper_letter (letter i) = true).
Proof.
  intros completion crit userQuery responses apiKey tr [Hlo Hhi].
  destruct (collectRankings_ok completion crit userQuery responses apiKey tr)
    as (c & tr' & E & _ & _ & Hltm).
  exists c, tr'. split; [exact E|].
  rewrite Hltm, make_labelToModel_in_order by lia.
  unfold labels_in_order. split; [apply mapi_length|].
  split; [apply labels_in_order_NoDup|].
  intros i r Hi. split.
  - now rewrite (mapi_nth_error _ _ 0 i Hi).
  - apply letter_upper.
    assert (i < length responses)%nat by (apply nth_error_Some; congruence).
    lia.
Qed.

Lemma labels_unique_in_input_order_witness :
  exists c tr',
    collectRankings service_down (fun _ => None) (js "Which is best?")
      two_responses (js "key") [] = (Ok c, tr')
    /\ length (collected_labelToModel c) = length two_responses
    /\ NoDup (map fst (collected_labelToModel c))
    /\ (forall i r,
          nth_error two_responses i = Some r ->
          nth_error (collected_labelToModel c) i
          = Some (js "Response " ++ [letter i],
                  mkInfo (modelId r) (modelName r))
          /\ is_upper_letter (letter i) = true).
Proof.
  apply labels_unique_in_input_order. simpl. lia.
Defined.

(** C7 as stated fails at 27 responses: the 27th label is the code unit
    91, an opening bracket. *)
Lemma label_27_is_not_a_letter :
  exists c tr',
    collectRankings service_down (fun _ => None) (js "Which is best?")
      twenty_seven_responses (js "key") [] = (Ok c, tr')
    /\ nth_error (map fst (collected_labelToModel c)) 26
       = Some (js "Response " ++ [91%N])
    /\ is_upper_letter 91 = false.
Proof.
  eexists. eexists. split; [vm_compute; reflexivity|].
  split; reflexivity.
Qed.

(** ** C8: more than 26 responses *)

(** The collector has no guard on the number of responses.  With more
    than 26 of them it does not fail: it returns one ranking per
    response, and, as long as the code units [65 + i] do not wrap around,
    a [labelToModel] that continues the labels behind [Z] with the next
    code units, the 27th response standing under [Response] followed by
    an opening bracket. *)
Lemma collectRankings_beyond_26 :
  forall completion crit userQuery (responses : list Response) apiKey tr,
    (26 < length responses)%nat ->
    exists c tr',
      collectRankings completion crit userQuery responses apiKey tr = (Ok c, tr')
      /\ length (collected_rankings c) = length responses
      /\ ((N.of_nat (length responses) <= 65471)%N ->
          collected_labelToModel c = labels_in_order responses
          /\ forall r,
               nth_error responses 26 = Some r ->
               nth_error (collected_labelToModel c) 26
               = Some (js "Response " ++ [91%N],
                       mkInfo (modelId r) (modelName r))).
Proof.
  intros completion crit userQuery responses apiKey tr Hlen.
  destruct (collectRankings_ok completion crit userQuery responses apiKey tr)
    as (c & tr' & E & Hrk & _ & Hltm).
  exists c, tr'. split; [exact E|]. split; [exact Hrk|].
  intros Hbound. rewrite Hltm, make_labelToModel_in_order by exact Hbound.
  split; [reflexivity|]. intros r Hr. unfold labels_in_order.
  now rewrite (mapi_nth_error _ _ 0 26 Hr).
Qed.

(** C8 (a defect of the code).  On 27 responses the collector does not
    fail with a label overflow: it returns 27 rankings and a
    [labelToModel] of 27 names, and the 27th name is [Response]
    followed by an opening bracket, the code unit behind [Z].  The labels
    are meant to be the letters [A, B, C...], as the comment at their
    computation says, and the parser reads letters only: of a reply that
    ranks this label nothing is parsed. *)
Theorem collectRankings_27_returns :
  exists c tr',
    collectRankings service_down (fun _ => None) (js "Which is best?")
      twenty_seven_responses (js "key") [] = (Ok c, tr')
    /\ length (collected_rankings c) = 27%nat
    /\ length (collected_labelToModel c) = 27%nat
    /\ nth_error (collected_labelToModel c) 26
       = Some (js "Response [", mkInfo (js "m") (js "m"))
    /\ ranking (parseRankingWithConfidence (js "FINAL RANKING: 1. Response ["))
       = [].
Proof.
  eexists. eexists. split; [vm_compute; reflexivity|].
  repeat split; reflexivity.
Qed.

(** ** Filtered rankings *)

Lemma Forall_filter (A : Type) (P : A -> Prop) (f : A -> bool) (l : list A) :
  Forall P l -> Forall P (filter f l).
Proof.
  intros H. apply Forall_forall. intros x Hx. apply filter_In in Hx.
  exact (proj1 (Forall_forall _ _) H x (proj1 Hx)).
Qed.

(** ** C10: labels outside [labelToModel] *)

Lemma In_fst_keys (V : Type) (o : obj V) (e : jsstring * V) :
  In e o -> In (fst e) (map fst o).
Proof. apply in_map. Qed.

(** The statistics are computed for labels of [labelToModel] only. *)
Lemma variances_entries_known (ltm : obj ModelInfo) (pm : obj (list nat))
  (e : jsstring * LabelStats) :
  In e (Object_entries (fold_left (note_variance pm) (Object_keys ltm) [])) ->
  In (fst e) (Object_keys ltm).
Proof.
  intros H. apply (proj1 (Object_entries_In _ _)) in H.
  apply In_fst_keys in H. apply variances_keys in H.
  destruct H as [H|[]]. exact H.
Qed.

Lemma weighted_positions_length (useW useC : bool) (stats : list ModelStats)
  (k : jsstring) (rs : list Ranking) :
  length (weighted_positions useW useC stats k rs)
  = length (label_positions k rs).
Proof.
  unfold weighted_positions, label_positions.
  induction rs as [|r rs IH]; [reflexivity|].
  cbn [flat_map]. now rewrite !length_app, length_map, IH.
Qed.

(** C10 (amended).  Whatever the rankings hold, an entry of the
    aggregate ranking carries a label that is an own name of
    [labelToModel], and the analyzer keeps positions, statistics and
    disagreements for the names of [labelToModel] only: the position
    matrix has exactly these names.  A parsed label outside
    [labelToModel] therefore has no aggregate entry and no row in the
    matrix, and labels of the shape the parser produces (such as a letter
    outside the candidate set, or a lower-case variant) raise no
    exception in either function.  Such a label keeps its place in the
    ranking, though: the positions counted for a label of [labelToModel]
    are its 1-based places in the rankings as they were parsed, unknown
    labels included.  These are the positions of the rows of the matrix,
    and the positions the rank of an entry averages, the rank being
    within 0.01 of their weighted average. *)
Theorem unknown_labels_keep_their_place :
  forall (getStats : unit -> list ModelStats) (rs : list Ranking)
         (ltm : obj ModelInfo) (options : Options),
    plain_object ltm ->
    (forall agg,
        calculateAggregateRankings getStats rs ltm options = Ok agg ->
        forall e, In e agg ->
          In (label e) (Object_keys ltm)
          /\ rankingsCount e = length (label_positions (label e) rs)
          /\ Qabs (avgRank e
                   - weighted_average
                       (weighted_positions
                          (with_default (useWeightedAggregation options))
                          (with_default (useConfidenceWeighting options))
                          (if with_default (useWeightedAggregation options)
                           then getStats tt else [])
                          (label e) rs))
             <= 1 # 100)
    /\ (forall report,
          analyzeDisagreements rs ltm = Ok report ->
          (forall pm, positionMatrix report = Some pm ->
                      map fst pm = Object_keys ltm
                      /\ forall k, In k (Object_keys ltm) ->
                                   entry_list pm k = valid_positions k rs)
          /\ (forall d, In d (disagreements report) ->
                        In (d_label d) (Object_keys ltm))
          /\ (forall c, mostContested report = Some c ->
                        In (c_label c) (Object_keys ltm)))
    /\ (Forall (fun r => Forall label_shaped (parsedRanking r)) rs ->
        (exists agg,
            calculateAggregateRankings getStats rs ltm options = Ok agg)
        /\ (exists report, analyzeDisagreements rs ltm = Ok report)).
Proof.
  intros getStats rs ltm options Hplain. pose proof Hplain as [Hnd _].
  split; [|split].
  3: { intros Hshape.
       assert (Hall : Forall own_labels rs).
       { eapply Forall_impl; [|exact Hshape]. intros r Hr.
         eapply Forall_impl; [|exact Hr].
         intros l. apply label_shaped_not_inherited. }
       split; [|now apply (@analyze_returns rs ltm)].
       destruct (calculate_sound getStats ltm options Hall) as (agg & E & _).
       now exists agg. }
  - intros agg H e He.
    destruct (own_labels_dec rs) as [Hall|Hbad].
    + destruct (calculate_sound getStats ltm options Hall)
        as (agg' & E & Hsound & _).
      rewrite E in H. injection H as ->.
      destruct (Hsound e He) as (_ & (info & Hinfo & _) & Havg & Hcount).
      split; [|split].
      * apply Object_keys_In. eapply own_get_Some_In_keys; eauto.
      * rewrite Hcount. apply weighted_positions_length.
      * apply round2_hundredths. rewrite Havg. reflexivity.
    + rewrite (calculate_throw getStats ltm options Hbad) in H. discriminate.
  - intros report H. split.
    { intros pm Hpm.
      destruct (Nat.ltb_spec (valid_count rs) 2) as [Hfew|Hcount].
      - unfold analyzeDisagreements in H. rewrite usable_count in H.
        replace (valid_count rs <? 2)%nat with true in H
          by (symmetry; now apply Nat.ltb_lt).
        injection H as <-. discriminate.
      - destruct (@analyze_spec rs ltm report Hplain Hcount H)
          as (pm' & tv & Hpm' & Hkeys & Hrows & _).
        rewrite Hpm in Hpm'. injection Hpm' as <-. auto. }
    unfold analyzeDisagreements in H.
    destruct (length (filter usable rs) <? 2)%nat.
    { injection H as <-. cbn. split; [tauto|discriminate]. }
    destruct (rfold _ (filter usable rs) _) as [pm|err] eqn:E; [|discriminate].
    cbn [rbind] in H. injection H as <-.
    cbn [positionMatrix disagreements mostContested]. split.
    + intros d Hd. apply (proj1 (js_sort_In _ _ _)) in Hd.
      apply in_map_iff in Hd. destruct Hd as (e & <- & He).
      cbn [d_label]. apply filter_In in He. destruct He as [He _].
      eapply variances_entries_known; eauto.
    + intros c Hc.
      destruct (hd_error _) as [mc|] eqn:Emc; [|discriminate].
      injection Hc as <-. cbn [c_label].
      assert (Hin : In mc (js_sort
                             (fun a b => variance (snd b) - variance (snd a))
                             (Object_entries
                                (fold_left (note_variance pm) (Object_keys ltm) [])))).
      { destruct (js_sort _ _) as [|x l]; [discriminate|].
        injection Emc as ->. now left. }
      apply (proj1 (js_sort_In _ _ _)) in Hin.
      eapply variances_entries_known; eauto.
Qed.

Lemma unknown_labels_keep_their_place_witness :
  (forall agg,
      calculateAggregateRankings (fun _ => []) stray_votes two_labels
        (mkOptions None None) = Ok agg ->
      forall e, In e agg ->
        In (label e) (Object_keys two_labels)
        /\ rankingsCount e = length (label_positions (label e) stray_votes)
        /\ Qabs (avgRank e
                 - weighted_average
                     (weighted_positions
                        (with_default
                           (useWeightedAggregation (mkOptions None None)))
                        (with_default
                           (useConfidenceWeighting (mkOptions None None)))
                        (if with_default
                              (useWeightedAggregation (mkOptions None None))
                         then (fun _ : unit => @nil ModelStats) tt else [])
                        (label e) stray_votes))
           <= 1 # 100)
  /\ (forall report,
        analyzeDisagreements stray_votes two_labels = Ok report ->
        (forall pm, positionMatrix report = Some pm ->
                    map fst pm = Object_keys two_labels
                    /\ forall k, In k (Object_keys two_labels) ->
                                 entry_list pm k
                                 = valid_positions k stray_votes)
        /\ (forall d, In d (disagreements report) ->
                      In (d_label d) (Object_keys two_labels))
        /\ (forall c, mostContested report = Some c ->
                      In (c_label c) (Object_keys two_labels)))
  /\ (Forall (fun r => Forall label_shaped (parsedRanking r)) stray_votes ->
      (exists agg,
          calculateAggregateRankings (fun _ => []) stray_votes two_labels
            (mkOptions None None) = Ok agg)
      /\ (exists report,
            analyzeDisagreements stray_votes two_labels = Ok report)).
Proof.
  apply (@unknown_labels_keep_their_place (fun _ => []) stray_votes
           two_labels (mkOptions None None)).
  apply plain_object_check. vm_compute. reflexivity.
Defined.

(** C10 as stated fails: a label outside [labelToModel] does contribute
    to the statistics.  With [Response Z] in front of one of two equal
    rankings, B and A stand at the places 2 and 3 there: their ranks are
    1.5 and 2.5 instead of 1 and 2, the rows of the matrix are [2, 1] and
    [3, 2] instead of [1, 1] and [2, 2], and the consensus is 0.25
    instead of 1. *)
Lemma unknown_label_changes_statistics :
  exists agg agg' report report',
    calculateAggregateRankings (fun _ => []) stray_votes two_labels unweighted
    = Ok agg
    /\ calculateAggregateRankings (fun _ => []) agreeing_votes two_labels
         unweighted
       = Ok agg'
    /\ map (fun e => (label e, avgRank e)) agg
       = [(js "Response B", 150 # 100); (js "Response A", 250 # 100)]
    /\ map (fun e => (label e, avgRank e)) agg'
       = [(js "Response B", 100 # 100); (js "Response A", 200 # 100)]
    /\ analyzeDisagreements stray_votes two_labels = Ok report
    /\ analyzeDisagreements agreeing_votes two_labels = Ok report'
    /\ positionMatrix report
       = Some [(js "Response A", [3; 2]); (js "Response B", [2; 1])]%nat
    /\ positionMatrix report'
       = Some [(js "Response A", [2; 2]); (js "Response B", [1; 1])]%nat
    /\ consensus report = Num (25 # 100)
    /\ consensus report' = Num (100 # 100).
Proof.
  do 4 eexists.
  split; [vm_compute; reflexivity|]. split; [vm_compute; reflexivity|].
  split; [reflexivity|]. split; [reflexivity|].
  split; [vm_compute; reflexivity|]. split; [vm_compute; reflexivity|].
  split; [reflexivity|]. split; [reflexivity|].
  split; reflexivity.
Qed.

(** ** Worked examples *)

(** The validator on the three cases of the specification. *)
Example validateRanking_cases :
  validateRanking [] 3 = false
  /\ validateRanking [js "Response A"; js "Response B"] 3 = false
  /\ validateRanking [js "Response A"; js "Response B"; js "Response C"] 3
     = true.
Proof. repeat split; reflexivity. Qed.

(** A hallucinated label and a lower-case one leave no entry: the
    aggregate holds [Response A] and [Response B] only. *)
Example stray_labels_dropped :
  exists agg,
    calculateAggregateRankings (fun _ => [])
      (vote "m4" [js "Response Z"; js "response a"; js "Response B"]
       :: three_votes)
      two_labels unweighted = Ok agg
    /\ map label agg = [js "Response A"; js "Response B"].
Proof. eexists. split; vm_compute; reflexivity. Qed.

(** A label that is an inherited name makes both functions throw. *)
Example inherited_label_throws :
  calculateAggregateRankings (fun _ => [])
    (vote "m4" [js "constructor"] :: three_votes) two_labels unweighted
  = Throw not_a_function
  /\ analyzeDisagreements (vote "m4" [js "constructor"] :: three_votes)
       two_labels
     = Throw not_a_function.
Proof. split; vm_compute; reflexivity. Qed.

(** A run while the completion service is down: two failed ranking
    requests, a warning, a failed synthesis request; the result is
    returned with the error text as synthesis. *)
Example runCouncil_service_down :
  exists result tr',
    runCouncil service_down (fun _ => []) (fun _ => None)
      (js "Which is best?") two_responses (js "key") None
      (mkOptions None None) [] = (Ok result, tr')
    /\ synthesis result
       = mkResponse (js "m1") (js "Chairman")
           (js "Error synthesizing response: API request failed: 503")
    /\ aggregateRankings result = []
    /\ consensus (disagreementAnalysis result) = Num 1
    /\ validRankings (rankingValidation result) = 0%nat
    /\ invalidRankings (rankingValidation result) = 2%nat
    /\ length tr' = 7%nat.
Proof.
  eexists. eexists. split; [vm_compute; reflexivity|].
  repeat split; reflexivity.
Qed.

(* ===================================================================== *)
(** * Further properties of the parser and the validator *)
(* ===================================================================== *)

Lemma nodup_length_le (l : list jsstring) :
  (length (nodup (list_eq_dec N.eq_dec) l) <= length l)%nat.
Proof.
  induction l as [|x l IH]; simpl; [lia|].
  destruct (in_dec (list_eq_dec N.eq_dec) x l); simpl; lia.
Qed.

Lemma set_size_full (l : list jsstring) :
  set_size l = length l <-> NoDup l.
Proof.
  unfold set_size. split.
  - induction l as [|x l IH]; simpl; [constructor|].
    destruct (in_dec (list_eq_dec N.eq_dec) x l) as [Hin|Hin]; simpl.
    + pose proof (nodup_length_le l). lia.
    + intros H. constructor; [exact Hin|]. apply IH. lia.
  - intros H. now rewrite nodup_fixed_point.
Qed.

(** X1.  [validateRanking] accepts a ranking exactly when it is not
    empty, has at least the expected number of labels and holds no label
    twice. *)
Theorem validateRanking_iff :
  forall (order : list jsstring) (expectedCount : nat),
    validateRanking order expectedCount = true
    <-> order <> [] /\ (expectedCount <= length order)%nat /\ NoDup order.
Proof.
  intros order n. unfold validateRanking.
  destruct (length order =? 0)%nat eqn:E0.
  { apply Nat.eqb_eq, length_zero_iff_nil in E0. subst.
    split; [discriminate|]. intros [H _]. congruence. }
  apply Nat.eqb_neq in E0.
  destruct (length order <? n)%nat eqn:E1.
  { apply Nat.ltb_lt in E1. split; [discriminate|]. intros (_ & H & _). lia. }
  apply Nat.ltb_ge in E1.
  destruct (set_size order =? length order)%nat eqn:E2; simpl.
  - apply Nat.eqb_eq, set_size_full in E2. split; [|reflexivity].
    intros _. split; [|auto]. intros ->. now apply E0.
  - apply Nat.eqb_neq in E2. split; [discriminate|]. intros (_ & _ & H).
    apply set_size_full in H. contradiction.
Qed.

(** What the validator has checked of a ranking it accepts. *)
Lemma validateRanking_accepts (order : list jsstring) (n : nat) :
  validateRanking order n = true ->
  (n <= length order)%nat /\ NoDup order.
Proof.
  unfold validateRanking.
  destruct (length order =? 0)%nat; [discriminate|].
  destruct (Nat.ltb_spec (length order) n); [discriminate|].
  destruct (Nat.eqb_spec (set_size order) (length order)) as [E|E];
    [|discriminate].
  intros _. split; [assumption|]. now apply set_size_full.
Qed.

(** What [includes] finds is made of code units of the text. *)
Lemma startsWith_In (p s : jsstring) (c : N) :
  startsWith p s = true -> In c p -> In c s.
Proof.
  revert s. induction p as [|a p IH]; intros s H Hin; [destruct Hin|].
  destruct s as [|b s]; [discriminate|]. simpl in H.
  apply andb_prop in H. destruct H as [Hab Hrest].
  apply N.eqb_eq in Hab. subst b. destruct Hin as [->|Hin]; [now left|].
  right. now apply IH.
Qed.

Lemma includes_In (s sub : jsstring) (c : N) :
  includes s sub = true -> In c sub -> In c s.
Proof.
  induction s as [|b s IH]; intros H Hin; cbn [includes] in H.
  - rewrite orb_false_r in H. exact (@startsWith_In sub _ c H Hin).
  - apply orb_prop in H. destruct H as [H|H].
    + exact (@startsWith_In sub _ c H Hin).
    + right. now apply IH.
Qed.

(** X5.  A text without a capital R holds neither the marker nor a label:
    it is parsed to the empty ranking with no confidence entry, and the
    validator rejects that ranking whatever the expected count. *)
Theorem parse_without_capital_R :
  forall text : jsstring,
    ~ In 82%N text ->
    parseRankingWithConfidence text = mkParsed [] []
    /\ forall expectedCount,
         validateRanking (ranking (parseRankingWithConfidence text))
           expectedCount = false.
Proof.
  intros text H.
  assert (Hmark : includes text FINAL_RANKING = false).
  { destruct (includes text FINAL_RANKING) eqn:E; [|reflexivity].
    exfalso. apply H. apply (@includes_In text FINAL_RANKING 82%N E).
    vm_compute. tauto. }
  assert (E : parseRankingWithConfidence text = mkParsed [] []).
  { rewrite parse_without_marker by exact Hmark.
    unfold parse_whole_text, str_match_g.
    now rewrite match_all_tail. }
  split; [exact E|]. intros n. now rewrite E.
Qed.

Lemma parse_without_capital_R_witness :
  parseRankingWithConfidence (js "all answers are equally good")
  = mkParsed [] []
  /\ forall expectedCount,
       validateRanking
         (ranking (parseRankingWithConfidence (js "all answers are equally good")))
         expectedCount = false.
Proof.
  apply parse_without_capital_R. vm_compute. lia.
Defined.

(** ** The two results of the parser go together *)

Lemma record_label_sync (acc : ParsedRanking) (l : jsstring) (c : Confidence) :
  NoDup (map fst (confidenceScores acc)) ->
  (forall k, In k (ranking acc) <-> In k (map fst (confidenceScores acc))) ->
  NoDup (map fst (confidenceScores (record_label acc l c)))
  /\ (forall k, In k (ranking (record_label acc l c))
                <-> In k (map fst (confidenceScores (record_label acc l c)))).
Proof.
  intros Hnd Hsync. unfold record_label. cbn [ranking confidenceScores].
  split; [now apply obj_set_NoDup|].
  intros k. rewrite in_app_iff, obj_set_In_keys, Hsync. simpl. intuition.
Qed.

Lemma fold_sync (f : ParsedRanking -> jsstring -> ParsedRanking)
  (l : list jsstring) :
  (forall acc m,
      NoDup (map fst (confidenceScores acc))
      /\ (forall k, In k (ranking acc) <-> In k (map fst (confidenceScores acc))) ->
      NoDup (map fst (confidenceScores (f acc m)))
      /\ (forall k, In k (ranking (f acc m))
                    <-> In k (map fst (confidenceScores (f acc m))))) ->
  forall acc,
    NoDup (map fst (confidenceScores acc))
    /\ (forall k, In k (ranking acc) <-> In k (map fst (confidenceScores acc))) ->
    NoDup (map fst (confidenceScores (fold_left f l acc)))
    /\ (forall k, In k (ranking (fold_left f l acc))
                  <-> In k (map fst (confidenceScores (fold_left f l acc)))).
Proof.
  intros Hf. induction l as [|m l IH]; intros acc Hacc; simpl; [exact Hacc|].
  apply IH. now apply Hf.
Qed.

Lemma sync_empty :
  NoDup (map fst (confidenceScores parsed_empty))
  /\ (forall k, In k (ranking parsed_empty)
                <-> In k (map fst (confidenceScores parsed_empty))).
Proof. split; [constructor|]. intros k. simpl. tauto. Qed.

(** X3.  Whatever the text, the confidence map of the parser has exactly
    the labels of the ranking as its names, each once: every ranked label
    has a confidence, and no confidence is stored for anything else. *)
Theorem parse_confidence_covers_ranking :
  forall text : jsstring,
    NoDup (map fst (confidenceScores (parseRankingWithConfidence text)))
    /\ (forall l,
          In l (ranking (parseRankingWithConfidence text))
          <-> exists c,
                own_get (confidenceScores (parseRankingWithConfidence text)) l
                = Some c).
Proof.
  intros text.
  assert (H : NoDup (map fst (confidenceScores (parseRankingWithConfidence text)))
              /\ (forall k, In k (ranking (parseRankingWithConfidence text))
                            <-> In k (map fst (confidenceScores
                                                 (parseRankingWithConfidence text))))).
  { assert (Hwhole : NoDup (map fst (confidenceScores (parse_whole_text text)))
                     /\ (forall k, In k (ranking (parse_whole_text text))
                                   <-> In k (map fst (confidenceScores
                                                        (parse_whole_text text))))).
    { unfold parse_whole_text.
      destruct (str_match_g false re_label text); [|apply sync_empty].
      apply fold_sync; [|apply sync_empty].
      intros acc m [H1 H2]. now apply record_label_sync. }
    unfold parseRankingWithConfidence.
    destruct (includes text FINAL_RANKING); [|exact Hwhole].
    destruct (2 <=? length (split text FINAL_RANKING))%nat; [|exact Hwhole].
    cbv zeta.
    destruct (str_match_g true re_numbered_confidence _).
    { apply fold_sync; [|apply sync_empty].
      intros acc m [H1 H2]. unfold record_numbered_confidence.
      destruct (str_match true re_label m); [|now split].
      destruct (str_match true re_confidence m); now apply record_label_sync. }
    destruct (str_match_g false re_numbered _).
    { apply fold_sync; [|apply sync_empty].
      intros acc m [H1 H2]. unfold record_numbered.
      destruct (str_match false re_label m); [|now split].
      now apply record_label_sync. }
    destruct (str_match_g false re_label _); [|exact Hwhole].
    apply fold_sync; [|apply sync_empty].
    intros acc m [H1 H2]. now apply record_label_sync. }
  destruct H as [Hnd Hsync]. split; [exact Hnd|].
  intros l. rewrite Hsync. split.
  - apply In_keys_own_get.
  - intros [c Hc]. eapply own_get_Some_In_keys; eauto.
Qed.

(** ** The default confidence *)

Lemma obj_set_values (V : Type) (P : V -> Prop) (o : obj V) (k : jsstring)
  (v : V) :
  Forall (fun e => P (snd e)) o -> P v ->
  Forall (fun e => P (snd e)) (obj_set o k v).
Proof.
  intros Ho Hv. induction o as [|[k' v'] o IH]; simpl.
  - now constructor.
  - inversion Ho; subst. destruct (str_eqb k' k); constructor; auto.
Qed.

Lemma fold_plain_medium (l : list jsstring) :
  forall acc,
    Forall (fun e => snd e = MEDIUM) (confidenceScores acc) ->
    Forall (fun e => snd e = MEDIUM)
      (confidenceScores (fold_left record_plain l acc)).
Proof.
  induction l as [|m l IH]; intros acc H; simpl; [exact H|].
  apply IH. unfold record_plain, record_label. cbn [confidenceScores].
  now apply (@obj_set_values Confidence (fun c => c = MEDIUM)).
Qed.

(** X4.  Without the [FINAL RANKING:] marker no stated confidence is
    read: every label of the parse has the default confidence MEDIUM. *)
Theorem parse_without_marker_is_medium :
  forall text : jsstring,
    includes text FINAL_RANKING = false ->
    forall l c,
      own_get (confidenceScores (parseRankingWithConfidence text)) l = Some c ->
      c = MEDIUM.
Proof.
  intros text H l c Hc. rewrite parse_without_marker in Hc by exact H.
  assert (Hall : Forall (fun e => snd e = MEDIUM)
                   (confidenceScores (parse_whole_text text))).
  { unfold parse_whole_text.
    destruct (str_match_g false re_label text); [|constructor].
    apply fold_plain_medium. constructor. }
  apply own_get_In in Hc.
  exact (proj1 (Forall_forall _ _) Hall (l, c) Hc).
Qed.

Lemma parse_without_marker_is_medium_witness :
  includes (js "1. Response B (HIGH) then 2. Response A (LOW)") FINAL_RANKING
  = false
  /\ own_get
       (confidenceScores
          (parseRankingWithConfidence
             (js "1. Response B (HIGH) then 2. Response A (LOW)")))
       (js "Response B")
     = Some MEDIUM
  /\ MEDIUM = MEDIUM.
Proof.
  split; [vm_compute; reflexivity|]. split; [vm_compute; reflexivity|].
  apply (@parse_without_marker_is_medium
           (js "1. Response B (HIGH) then 2. Response A (LOW)"))
    with (l := js "Response B");
    vm_compute; reflexivity.
Defined.

(** ** The shape of the labels *)

Lemma rmatch_rlit_any (A : Type) (ic : bool) (w : jsstring) :
  forall (s : jsstring) (caps : captures)
         (k : jsstring -> captures -> option A) (x : A),
    rmatch ic (rlit w) s caps k = Some x ->
    exists pre rest,
      s = pre ++ rest /\ toUpperCase pre = toUpperCase w
      /\ k rest caps = Some x.
Proof.
  induction w as [|c w IH]; intros s caps k x H; cbn [rlit rmatch] in H.
  - exists [], s. auto.
  - destruct s as [|d s']; [discriminate|].
    assert (E : cset_mem ic (CChar c) d = true -> to_upper c = to_upper d).
    { unfold cset_mem. destruct ic; intros E; apply N.eqb_eq in E; congruence. }
    destruct (cset_mem ic (CChar c) d); [|discriminate].
    destruct (IH s' caps k x H) as (pre & rest & -> & Hup & Hk).
    exists (d :: pre), rest. cbn [app toUpperCase map].
    unfold toUpperCase in Hup. rewrite Hup, (E eq_refl). auto.
Qed.

Lemma range_letter (ic : bool) (c : N) :
  cset_mem ic (CRange 65 90) c = true -> is_letter c = true.
Proof.
  unfold cset_mem, is_letter, in_range, to_upper, to_lower.
  destruct ic; intros Hm.
  - destruct (N.leb_spec 97 c), (N.leb_spec c 122), (N.leb_spec 65 c),
      (N.leb_spec c 90); cbn [andb orb] in *;
      try reflexivity; try discriminate;
      repeat match type of Hm with
             | context [(?a <=? ?b)%N] => destruct (N.leb_spec a b)
             end; cbn [andb orb] in Hm; try discriminate; lia.
  - now rewrite Hm.
Qed.

Lemma exec_label_shape (ic : bool) (s : jsstring) (m : rmatch_result) :
  exec_at ic re_label s = Some m -> response_label (matched m).
Proof.
  unfold exec_at, re_label. cbn [rmatch]. intros H.
  apply rmatch_rlit_any in H. destruct H as (pre & rest & -> & Hup & Hk).
  destruct rest as [|c rest']; [discriminate|].
  destruct (cset_mem ic (CRange 65 90) c) eqn:Ec; [|discriminate].
  injection Hk as <-. cbn [matched].
  replace (pre ++ c :: rest') with ((pre ++ [c]) ++ rest')
    by (now rewrite <- app_assoc).
  rewrite consumed_app. exists pre, c.
  split; [reflexivity|]. split; [exact Hup|].
  now apply (range_letter ic).
Qed.

Lemma str_match_label_shape (ic : bool) (s : jsstring) (m : rmatch_result) :
  str_match ic re_label s = Some m -> response_label (matched m).
Proof.
  intros H. apply str_match_exec in H. destruct H as (s' & H).
  now apply (exec_label_shape ic s').
Qed.

Lemma match_all_label_shape (ic : bool) (s : jsstring) :
  forall skip, Forall response_label (match_all_go ic re_label s skip).
Proof.
  induction s as [|c s IH]; intros skip; cbn [match_all_go].
  - destruct skip; [|constructor].
    destruct (exec_at ic re_label []) eqn:E; [|constructor].
    constructor; [|constructor]. now apply (exec_label_shape ic []).
  - destruct skip; [|apply IH].
    destruct (exec_at ic re_label (c :: s)) eqn:E; [|apply IH].
    constructor; [|apply IH]. now apply (exec_label_shape ic (c :: s)).
Qed.

Lemma str_match_g_label_shape (ic : bool) (s : jsstring) (l : list jsstring) :
  str_match_g ic re_label s = Some l -> Forall response_label l.
Proof.
  unfold str_match_g. pose proof (match_all_label_shape ic s 0) as H.
  destruct (match_all_go ic re_label s 0); [discriminate|].
  now intros [= <-].
Qed.

Lemma fold_labels (f : ParsedRanking -> jsstring -> ParsedRanking)
  (l : list jsstring) :
  (forall acc m, Forall response_label (ranking acc) ->
                 Forall response_label (ranking (f acc m))) ->
  forall acc, Forall response_label (ranking acc) ->
              Forall response_label (ranking (fold_left f l acc)).
Proof.
  intros Hf. induction l as [|m l IH]; intros acc Hacc; simpl; [exact Hacc|].
  apply IH. now apply Hf.
Qed.

Lemma record_label_labels (acc : ParsedRanking) (l : jsstring) (c : Confidence) :
  Forall response_label (ranking acc) -> response_label l ->
  Forall response_label (ranking (record_label acc l c)).
Proof.
  intros Hacc Hl. unfold record_label. cbn [ranking].
  apply Forall_app. split; [exact Hacc|]. now constructor.
Qed.

Lemma fold_plain_labels (l : list jsstring) :
  Forall response_label l ->
  forall acc, Forall response_label (ranking acc) ->
              Forall response_label (ranking (fold_left record_plain l acc)).
Proof.
  induction l as [|m l IH]; intros Hl acc Hacc; simpl; [exact Hacc|].
  inversion Hl; subst. apply IH; [assumption|].
  now apply record_label_labels.
Qed.

Lemma parse_labels_response (text : jsstring) :
  Forall response_label (ranking (parseRankingWithConfidence text)).
Proof.
  assert (Hwhole : Forall response_label (ranking (parse_whole_text text))).
  { unfold parse_whole_text.
    destruct (str_match_g false re_label text) eqn:E; [|constructor].
    apply fold_plain_labels; [|constructor].
    now apply (str_match_g_label_shape false text). }
  unfold parseRankingWithConfidence.
  destruct (includes text FINAL_RANKING); [|exact Hwhole].
  destruct (2 <=? length (split text FINAL_RANKING))%nat; [|exact Hwhole].
  cbv zeta.
  destruct (str_match_g true re_numbered_confidence _).
  { apply fold_labels; [|constructor].
    intros acc m Hacc. unfold record_numbered_confidence.
    destruct (str_match true re_label m) eqn:E; [|exact Hacc].
    apply str_match_label_shape in E.
    destruct (str_match true re_confidence m);
      now apply record_label_labels. }
  destruct (str_match_g false re_numbered _).
  { apply fold_labels; [|constructor].
    intros acc m Hacc. unfold record_numbered.
    destruct (str_match false re_label m) eqn:E; [|exact Hacc].
    apply str_match_label_shape in E. now apply record_label_labels. }
  destruct (str_match_g false re_label _) eqn:E; [|exact Hwhole].
  apply fold_plain_labels; [|constructor].
  eapply str_match_g_label_shape; eauto.
Qed.

(** X2.  Whatever the text, every label the parser returns is the word
    [Response] in some case, a space and one ASCII letter: ten code
    units cut from the text, never one of the names a plain object
    inherits. *)
Theorem parse_labels_are_response_labels :
  forall text : jsstring,
    Forall (fun l => response_label l /\ length l = 10%nat
                     /\ inherited l = false)
      (ranking (parseRankingWithConfidence text)).
Proof.
  intros text.
  pose proof (parse_labels_response text) as Hshape.
  pose proof (parse_labels_shaped text) as Hlen.
  apply Forall_forall. intros l Hl.
  pose proof (proj1 (Forall_forall _ _) Hshape l Hl).
  pose proof (proj1 (Forall_forall _ _) Hlen l Hl) as H10.
  split; [assumption|]. split; [exact H10|].
  now apply label_shaped_not_inherited.
Qed.

(* ===================================================================== *)
(** * Further properties of the aggregator *)
(* ===================================================================== *)

(** ** The order of the aggregate *)

Lemma sort_insert_sorted (A : Type) (cmp : A -> A -> Q) (R : A -> A -> Prop)
  (x : A) (l : list A) :
  (forall a b, Qle_bool (cmp a b) 0 = true -> R a b) ->
  (forall a b, Qle_bool (cmp a b) 0 = false -> R b a) ->
  (forall a b c, R a b -> R b c -> R a c) ->
  StronglySorted R l -> StronglySorted R (sort_insert cmp x l).
Proof.
  intros Hle Hgt Htrans.
  induction l as [|y l IH]; intros Hs; cbn [sort_insert].
  - constructor; constructor.
  - inversion Hs as [|? ? Hl Hy]; subst.
    destruct (Qle_bool (cmp x y) 0) eqn:E.
    + apply Hle in E.
      constructor; [exact Hs|]. constructor; [exact E|].
      eapply Forall_impl; [|exact Hy]. intros z Hz. cbv beta in *.
      now apply (Htrans _ y).
    + apply Hgt in E.
      constructor; [now apply IH|].
      apply (Permutation_Forall
               (Permutation_sym (@sort_insert_perm A cmp x l))).
      constructor; assumption.
Qed.

(** Sorting by the difference of a key puts the keys in ascending
    order. *)
Lemma js_sort_sorted (A : Type) (f : A -> Q) (l : list A) :
  StronglySorted (fun a b => f a <= f b)
    (js_sort (fun a b => f a - f b) l).
Proof.
  unfold js_sort. induction l as [|x l IH]; cbn [fold_right].
  - constructor.
  - apply sort_insert_sorted; [| | |exact IH].
    + intros a b H. apply Qle_bool_iff in H. lra.
    + intros a b H. cbv beta.
      destruct (Qlt_le_dec (f b) (f a)) as [Hlt|Hge]; [lra|].
      assert (Hm : f a - f b <= 0) by lra.
      apply Qle_bool_iff in Hm. congruence.
    + intros a b c. apply Qle_trans.
Qed.

(** Sorting by the opposite difference puts them in descending order. *)
Lemma js_sort_sorted_desc (A : Type) (f : A -> Q) (l : list A) :
  StronglySorted (fun a b => f b <= f a)
    (js_sort (fun a b => f b - f a) l).
Proof.
  unfold js_sort. induction l as [|x l IH]; cbn [fold_right].
  - constructor.
  - apply sort_insert_sorted; [| | |exact IH].
    + intros a b H. apply Qle_bool_iff in H. lra.
    + intros a b H. cbv beta.
      destruct (Qlt_le_dec (f a) (f b)) as [Hlt|Hge]; [lra|].
      assert (Hm : f b - f a <= 0) by lra.
      apply Qle_bool_iff in Hm. congruence.
    + intros a b c H1 H2. now apply (Qle_trans _ (f b)).
Qed.

Lemma calculate_inv (getStats : unit -> list ModelStats)
  (rs : list Ranking) (ltm : obj ModelInfo) (options : Options)
  (agg : list AggregateEntry) :
  calculateAggregateRankings getStats rs ltm options = Ok agg ->
  Forall own_labels rs
  /\ exists st,
      rfold (record_ranking (with_default (useWeightedAggregation options))
               (with_default (useConfidenceWeighting options))
               (if with_default (useWeightedAggregation options)
                then getStats tt else []))
        rs ([], []) = Ok st
      /\ tables_ok st
      /\ (forall k,
            entry_list (fst st) k
            = weighted_positions (with_default (useWeightedAggregation options))
                (with_default (useConfidenceWeighting options))
                (if with_default (useWeightedAggregation options)
                 then getStats tt else []) k rs)
      /\ agg = js_sort (fun a b => avgRank a - avgRank b)
                 (filter_map (aggregate_entry ltm (snd st))
                    (Object_entries (fst st))).
Proof.
  intros H.
  assert (Hall : Forall own_labels rs).
  { destruct (own_labels_dec rs) as [Hall|Hex]; [exact Hall|].
    rewrite (@calculate_throw getStats rs ltm options Hex) in H.
    discriminate. }
  split; [exact Hall|].
  unfold calculateAggregateRankings in H.
  set (useW := with_default (useWeightedAggregation options)) in *.
  set (useC := with_default (useConfidenceWeighting options)) in *.
  set (stats := if useW then getStats tt else []) in *.
  destruct (@record_rankings_ok useW useC stats rs ([], [])
              tables_ok_empty Hall) as (st & E & Hok & Hl & _).
  rewrite E in H. cbn [rbind] in H. injection H as <-.
  exists st. split; [exact E|]. split; [exact Hok|].
  split; [|reflexivity]. intros k. now rewrite Hl.
Qed.

(** X6.  The entries the aggregator returns are in ascending order of
    their rounded average rank: every entry ranks no worse than all the
    entries behind it. *)
Theorem aggregate_sorted_by_avgRank :
  forall (getStats : unit -> list ModelStats) (rs : list Ranking)
         (ltm : obj ModelInfo) (options : Options)
         (agg : list AggregateEntry),
    calculateAggregateRankings getStats rs ltm options = Ok agg ->
    StronglySorted (fun a b => avgRank a <= avgRank b) agg.
Proof.
  intros getStats rs ltm options agg H.
  apply calculate_inv in H. destruct H as (_ & st & _ & _ & _ & ->).
  apply js_sort_sorted.
Qed.

Lemma aggregate_sorted_by_avgRank_witness :
  exists agg,
    calculateAggregateRankings (fun _ => []) three_votes two_labels unweighted
    = Ok agg
    /\ StronglySorted (fun a b => avgRank a <= avgRank b) agg.
Proof.
  eexists. split; [vm_compute; reflexivity|].
  apply (@aggregate_sorted_by_avgRank (fun _ => []) three_votes two_labels
           unweighted).
  vm_compute. reflexivity.
Defined.

(** ** The labels of the aggregate *)

Lemma filter_map_keys (ltm : obj ModelInfo) (cbl : ConfidenceTable)
  (l : list (jsstring * list WeightedPosition)) :
  NoDup (map fst l) ->
  NoDup (map label (filter_map (aggregate_entry ltm cbl) l))
  /\ forall k, In k (map label (filter_map (aggregate_entry ltm cbl) l)) ->
               In k (map fst l) /\ In k (map fst ltm).
Proof.
  unfold filter_map.
  induction l as [|[k wl] l IH]; intros Hnd; cbn [flat_map map].
  - split; [constructor|]. intros k [].
  - inversion Hnd as [|? ? Hk Hl]; subst. destruct (IH Hl) as [IH1 IH2].
    destruct (aggregate_entry ltm cbl (k, wl)) as [e|] eqn:E.
    + apply aggregate_entry_fields in E.
      destruct E as (Hlabel & _ & (info & Hinfo & _) & _).
      cbn [app map fst]. rewrite Hlabel. split.
      * constructor; [|exact IH1]. intros Hin. apply IH2 in Hin. tauto.
      * intros k' [<-|Hin].
        -- split; [now left|]. eapply own_get_Some_In_keys; eauto.
        -- apply IH2 in Hin. cbn [In]. tauto.
    + cbn [app]. split; [exact IH1|].
      intros k' Hin. apply IH2 in Hin. cbn [In fst]. tauto.
Qed.

(** X7.  No two entries of the aggregate carry the same label, every
    label is an own name of [labelToModel], and so the aggregate has at
    most as many entries as [labelToModel] has names. *)
Theorem aggregate_labels_distinct :
  forall (getStats : unit -> list ModelStats) (rs : list Ranking)
         (ltm : obj ModelInfo) (options : Options)
         (agg : list AggregateEntry),
    calculateAggregateRankings getStats rs ltm options = Ok agg ->
    NoDup (map label agg)
    /\ incl (map label agg) (Object_keys ltm)
    /\ (length agg <= length (Object_keys ltm))%nat.
Proof.
  intros getStats rs ltm options agg H.
  apply calculate_inv in H.
  destruct H as (_ & st & _ & (Hnd & _ & _) & _ & ->).
  set (raw := filter_map (aggregate_entry ltm (snd st))
                (Object_entries (fst st))).
  destruct (@filter_map_keys ltm (snd st) (Object_entries (fst st)))
    as [Hraw Hkeys].
  { now apply Object_keys_NoDup. }
  fold raw in Hraw, Hkeys.
  assert (Hperm : Permutation (map label (js_sort
                    (fun a b => avgRank a - avgRank b) raw))
                    (map label raw)).
  { apply Permutation_map, js_sort_perm. }
  assert (Hnodup : NoDup (map label (js_sort
                     (fun a b => avgRank a - avgRank b) raw))).
  { eapply Permutation_NoDup; [symmetry; exact Hperm|exact Hraw]. }
  assert (Hincl : incl (map label (js_sort
                     (fun a b => avgRank a - avgRank b) raw))
                    (Object_keys ltm)).
  { intros k Hk. apply (Permutation_in _ Hperm) in Hk.
    apply Hkeys in Hk. apply Object_keys_In. tauto. }
  split; [exact Hnodup|]. split; [exact Hincl|].
  rewrite <- (length_map label). now apply NoDup_incl_length.
Qed.

Lemma aggregate_labels_distinct_witness :
  exists agg,
    calculateAggregateRankings (fun _ => []) three_votes two_labels unweighted
    = Ok agg
    /\ NoDup (map label agg)
    /\ incl (map label agg) (Object_keys two_labels)
    /\ (length agg <= length (Object_keys two_labels))%nat.
Proof.
  eexists. split; [vm_compute; reflexivity|].
  apply (@aggregate_labels_distinct (fun _ => []) three_votes two_labels
           unweighted).
  vm_compute. reflexivity.
Defined.

(** ** Rounding to two decimals *)

Lemma Math_round_ge (m : Z) (x : Q) :
  inject_Z m <= x -> inject_Z m <= Math_round x.
Proof.
  intros H. unfold Math_round. rewrite <- Zle_Qle.
  rewrite <- (Qfloor_Z m). apply Qfloor_resp_le. lra.
Qed.

Lemma Math_round_le (m : Z) (x : Q) :
  x <= inject_Z m -> Math_round x <= inject_Z m.
Proof.
  intros H. unfold Math_round. rewrite <- Zle_Qle.
  apply Z.lt_succ_r. rewrite Zlt_Qlt.
  apply (Qle_lt_trans _ (x + (1 # 2))); [apply Qfloor_le|].
  unfold Z.succ. rewrite inject_Z_plus. change (inject_Z 1) with 1. lra.
Qed.

(** Rounding to two decimals never crosses a number of hundredths. *)
Lemma round2_ge (m : Z) (x : Q) :
  inject_Z m / 100 <= x -> inject_Z m / 100 <= round2 x.
Proof.
  intros H. unfold round2.
  assert (Hm : inject_Z m <= Math_round (x * 100)).
  { apply Math_round_ge. unfold Qdiv in H. change (/ 100) with (1 # 100) in H.
    lra. }
  unfold Qdiv. change (/ 100) with (1 # 100). lra.
Qed.

Lemma round2_le (m : Z) (x : Q) :
  x <= inject_Z m / 100 -> round2 x <= inject_Z m / 100.
Proof.
  intros H. unfold round2.
  assert (Hm : Math_round (x * 100) <= inject_Z m).
  { apply Math_round_le. unfold Qdiv in H. change (/ 100) with (1 # 100) in H.
    lra. }
  unfold Qdiv. change (/ 100) with (1 # 100). lra.
Qed.

(** ** The confidences the aggregator notes *)

Lemma record_position_conf (useC : bool) (mw : Q) (scores : obj Confidence)
  (st st' : PositionTable * ConfidenceTable) (i : nat) (lbl : jsstring) :
  tables_ok st ->
  (forall k, In k (map fst (snd st)) -> In k (map fst (fst st))) ->
  record_position useC mw scores st i lbl = Ok st' ->
  tables_ok st'
  /\ (forall k, In k (map fst (snd st')) -> In k (map fst (fst st')))
  /\ (forall k,
        entry_list (snd st') k
        = entry_list (snd st) k
          ++ (if str_eqb lbl k
              then [match own_get scores lbl with
                    | Some c => c
                    | None => MEDIUM
                    end]
              else [])).
Proof.
  intros Hok Hback Hrun.
  assert (Hl : inherited lbl = false).
  { destruct (inherited lbl) eqn:Hl; [|reflexivity].
    rewrite (@record_position_throw useC mw scores st i lbl Hok Hl) in Hrun.
    discriminate. }
  destruct (@record_position_ok useC mw scores st i lbl Hok Hl)
    as (st1 & E1 & Hok1 & _ & Hk1).
  rewrite E1 in Hrun. injection Hrun as <-.
  split; [exact Hok1|].
  destruct Hok as (Hnd & Hinh & Hsub). destruct st as [pbl cbl].
  cbn [fst snd] in *. unfold record_position in E1. cbn [fst snd] in E1.
  destruct (own_get pbl lbl) as [arr|] eqn:E.
  - assert (Hin : In lbl (map fst pbl)) by (eapply own_get_Some_In_keys; eauto).
    destruct (In_keys_own_get cbl lbl (Hsub _ Hin)) as [arr2 E2].
    unfold obj_push, obj_get in E1. cbn [fst snd] in E1.
    rewrite E in E1. cbn [fst snd] in E1. rewrite E, E2 in E1.
    cbn [rbind] in E1. injection E1 as <-. cbn [fst snd]. split.
    + intros k Hk. apply obj_set_In_keys in Hk. apply obj_set_In_keys.
      destruct Hk as [->|Hk]; auto.
    + intros k. destruct (str_eqb lbl k) eqn:Ek.
      * apply str_eqb_eq in Ek. subst k. rewrite entry_list_set_same.
        unfold entry_list. now rewrite E2.
      * apply str_eqb_neq in Ek. rewrite entry_list_set_other by exact Ek.
        now rewrite app_nil_r.
  - assert (E2 : own_get cbl lbl = None).
    { apply own_get_None. intros Hin. apply Hback in Hin.
      apply In_keys_own_get in Hin. destruct Hin as [v Hv]. congruence. }
    unfold obj_push, obj_get in E1. cbn [fst snd] in E1.
    rewrite E, Hl in E1. cbn [fst snd] in E1.
    rewrite !own_get_set_same in E1. cbn [rbind] in E1.
    injection E1 as <-. cbn [fst snd]. split.
    + intros k Hk. rewrite !obj_set_In_keys in Hk. rewrite !obj_set_In_keys.
      destruct Hk as [->|[->|Hk]]; auto.
    + intros k. destruct (str_eqb lbl k) eqn:Ek.
      * apply str_eqb_eq in Ek. subst k. rewrite entry_list_set_same.
        unfold entry_list. now rewrite E2.
      * apply str_eqb_neq in Ek. rewrite !entry_list_set_other by exact Ek.
        now rewrite app_nil_r.
Qed.

Lemma record_positions_conf (useC : bool) (mw : Q) (scores : obj Confidence)
  (parsed : list jsstring) :
  forall (from : nat) (st st' : PositionTable * ConfidenceTable),
    tables_ok st ->
    (forall k, In k (map fst (snd st)) -> In k (map fst (fst st))) ->
    rfold_indexed (record_position useC mw scores) parsed from st = Ok st' ->
    tables_ok st'
    /\ (forall k, In k (map fst (snd st')) -> In k (map fst (fst st')))
    /\ (forall k,
          entry_list (snd st') k
          = entry_list (snd st) k
            ++ map (fun _ => match own_get scores k with
                             | Some c => c
                             | None => MEDIUM
                             end)
                 (positions_in k parsed from)).
Proof.
  induction parsed as [|lbl parsed IH]; intros from st st' Hok Hback Hrun.
  - simpl in Hrun. injection Hrun as <-. split; [exact Hok|].
    split; [exact Hback|]. intros k. simpl. now rewrite app_nil_r.
  - cbn [rfold_indexed] in Hrun.
    destruct (record_position useC mw scores st from lbl) as [st1|e] eqn:E1;
      [|discriminate].
    cbn [rbind] in Hrun.
    destruct (@record_position_conf _ _ _ _ _ _ _ Hok Hback E1)
      as (Hok1 & Hback1 & Hl1).
    destruct (IH (S from) st1 st' Hok1 Hback1 Hrun) as (Hok2 & Hback2 & Hl2).
    split; [exact Hok2|]. split; [exact Hback2|].
    intros k. rewrite Hl2, Hl1, <- app_assoc. f_equal.
    cbn [positions_in]. rewrite map_app. f_equal.
    destruct (str_eqb lbl k) eqn:Ek; [|reflexivity].
    apply str_eqb_eq in Ek. now subst.
Qed.

Lemma record_rankings_conf (useW useC : bool) (stats : list ModelStats)
  (rs : list Ranking) :
  forall st st' : PositionTable * ConfidenceTable,
    tables_ok st ->
    (forall k, In k (map fst (snd st)) -> In k (map fst (fst st))) ->
    rfold (record_ranking useW useC stats) rs st = Ok st' ->
    forall k,
      entry_list (snd st') k = entry_list (snd st) k ++ confidences_of k rs.
Proof.
  induction rs as [|r rs IH]; intros st st' Hok Hback Hrun k.
  - simpl in Hrun. injection Hrun as <-. simpl. now rewrite app_nil_r.
  - cbn [rfold] in Hrun.
    destruct (record_ranking useW useC stats st r) as [st1|e] eqn:E1;
      [|discriminate].
    cbn [rbind] in Hrun.
    assert (Hstep : tables_ok st1
              /\ (forall k, In k (map fst (snd st1)) -> In k (map fst (fst st1)))
              /\ (forall k,
                    entry_list (snd st1) k
                    = entry_list (snd st) k
                      ++ map (fun _ => confidence_in r k)
                           (positions_in k (parsedRanking r) 0))).
    { unfold record_ranking in E1. destruct (skipped r) eqn:Es.
      - injection E1 as <-. apply skipped_empty in Es. rewrite Es.
        split; [exact Hok|]. split; [exact Hback|].
        intros k'. simpl. now rewrite app_nil_r.
      - exact (@record_positions_conf _ _ _ _ _ _ _ Hok Hback E1). }
    destruct Hstep as (Hok1 & Hback1 & Hl1).
    rewrite (IH st1 st' Hok1 Hback1 Hrun k), Hl1, <- app_assoc.
    reflexivity.
Qed.

Lemma count_conf_total (l : list Confidence) :
  (count_conf HIGH l + count_conf MEDIUM l + count_conf LOW l)%nat = length l.
Proof.
  unfold count_conf. induction l as [|c l IH]; [reflexivity|].
  destruct c; cbn [filter length]; lia.
Qed.

Lemma positions_in_length_weighted (useW useC : bool)
  (stats : list ModelStats) (k : jsstring) (rs : list Ranking) :
  length (confidences_of k rs)
  = length (weighted_positions useW useC stats k rs).
Proof.
  unfold confidences_of, weighted_positions.
  induction rs as [|r rs IH]; [reflexivity|].
  cbn [flat_map]. now rewrite !length_app, !length_map, IH.
Qed.

Lemma Q_of_nat_plus (a b : nat) : Q_of_nat (a + b) == Q_of_nat a + Q_of_nat b.
Proof.
  unfold Q_of_nat. now rewrite Nat2Z.inj_add, inject_Z_plus.
Qed.

Lemma Q_of_nat_nonneg (n : nat) : 0 <= Q_of_nat n.
Proof.
  unfold Q_of_nat. change 0 with (inject_Z 0). rewrite <- Zle_Qle. lia.
Qed.

(** X8.  For every entry of the aggregate the confidence distribution
    counts the confidences noted for its label, one for each position the
    label was given (MEDIUM where the ranking states none); the three
    counts add up to [rankingsCount], and [avgConfidence] lies between
    0.4 and 1. *)
Theorem aggregate_confidence_distribution :
  forall (getStats : unit -> list ModelStats) (rs : list Ranking)
         (ltm : obj ModelInfo) (options : Options)
         (agg : list AggregateEntry) (e : AggregateEntry),
    calculateAggregateRankings getStats rs ltm options = Ok agg ->
    In e agg ->
    confidenceDistribution e
    = mkDist (count_conf HIGH (confidences_of (label e) rs))
        (count_conf MEDIUM (confidences_of (label e) rs))
        (count_conf LOW (confidences_of (label e) rs))
    /\ (dist_HIGH (confidenceDistribution e)
        + dist_MEDIUM (confidenceDistribution e)
        + dist_LOW (confidenceDistribution e))%nat = rankingsCount e
    /\ 4 # 10 <= avgConfidence e /\ avgConfidence e <= 1.
Proof.
  intros getStats rs ltm options agg e H He.
  apply calculate_inv in H.
  destruct H as (_ & st & E & Hok & Hl & ->).
  apply js_sort_In, filter_map_In in He.
  destruct He as ([k wl] & Hx & Hentry).
  apply (proj1 (Object_entries_In _ _)) in Hx.
  apply In_own_get in Hx; [|exact (proj1 Hok)].
  assert (Ewl : wl = weighted_positions
                       (with_default (useWeightedAggregation options))
                       (with_default (useConfidenceWeighting options))
                       (if with_default (useWeightedAggregation options)
                        then getStats tt else []) k rs).
  { rewrite <- Hl. unfold entry_list. now rewrite Hx. }
  assert (Hc : entry_list (snd st) k = confidences_of k rs).
  { rewrite (@record_rankings_conf _ _ _ rs ([], []) st tables_ok_empty
               (fun k H => H) E k). reflexivity. }
  assert (Hlen : length (confidences_of k rs) = length wl).
  { rewrite Ewl. apply positions_in_length_weighted. }
  unfold aggregate_entry in Hentry. cbn [fst snd] in Hentry.
  destruct (0 <? length wl)%nat eqn:Epos; [|discriminate].
  destruct (own_get ltm k) as [info|]; [|discriminate].
  fold (entry_list (snd st) k) in Hentry. rewrite Hc in Hentry.
  injection Hentry as <-.
  cbn [label confidenceDistribution rankingsCount avgConfidence
       dist_HIGH dist_MEDIUM dist_LOW].
  set (cs := confidences_of k rs) in *.
  pose proof (count_conf_total cs) as Htot.
  split; [reflexivity|]. split; [now rewrite Htot|].
  rewrite Hlen, Epos.
  apply Nat.ltb_lt in Epos.
  assert (Hn : 0 < Q_of_nat (length wl)) by now apply Q_of_nat_pos.
  assert (Hsum : Q_of_nat (count_conf HIGH cs) + Q_of_nat (count_conf MEDIUM cs)
                 + Q_of_nat (count_conf LOW cs) == Q_of_nat (length wl)).
  { rewrite <- !Q_of_nat_plus, Htot, Hlen. reflexivity. }
  pose proof (Q_of_nat_nonneg (count_conf HIGH cs)) as Hh.
  pose proof (Q_of_nat_nonneg (count_conf MEDIUM cs)) as Hm.
  pose proof (Q_of_nat_nonneg (count_conf LOW cs)) as Hlow.
  split.
  - assert (H40 : 4 # 10 == inject_Z 40 / 100) by reflexivity.
    rewrite H40. apply round2_ge.
    apply Qle_shift_div_l; [exact Hn|]. rewrite <- H40. lra.
  - assert (H100 : 1 == inject_Z 100 / 100) by reflexivity.
    rewrite H100. apply round2_le.
    apply Qle_shift_div_r; [exact Hn|]. rewrite <- H100. lra.
Qed.

Lemma aggregate_confidence_distribution_witness :
  exists agg e,
    calculateAggregateRankings history three_votes two_labels weighted = Ok agg
    /\ In e agg
    /\ confidenceDistribution e
       = mkDist (count_conf HIGH (confidences_of (label e) three_votes))
           (count_conf MEDIUM (confidences_of (label e) three_votes))
           (count_conf LOW (confidences_of (label e) three_votes))
    /\ (dist_HIGH (confidenceDistribution e)
        + dist_MEDIUM (confidenceDistribution e)
        + dist_LOW (confidenceDistribution e))%nat = rankingsCount e
    /\ 4 # 10 <= avgConfidence e /\ avgConfidence e <= 1.
Proof.
  eexists. eexists. split; [vm_compute; reflexivity|].
  split; [left; reflexivity|].
  eapply (@aggregate_confidence_distribution history three_votes two_labels
            weighted);
    [vm_compute; reflexivity | left; reflexivity].
Defined.

(** ** Weights *)

Lemma Map_get_In (stats : list ModelStats) (id : jsstring) (s : ModelStats) :
  Map_get stats id = Some s -> In s stats.
Proof.
  unfold Map_get. intros H. apply find_some in H. destruct H as [H _].
  now apply in_rev.
Qed.

Lemma modelWeight_bounds (useW : bool) (stats : list ModelStats)
  (r : Ranking) :
  Forall stats_in_range stats ->
  1 # 2 <= modelWeight_of useW stats r /\ modelWeight_of useW stats r <= 3 # 2.
Proof.
  intros Hall. unfold modelWeight_of.
  destruct useW; [|split; lra].
  destruct (Map_get stats (rk_modelId r)) as [s|] eqn:E; [|split; lra].
  apply Map_get_In in E.
  pose proof (proj1 (Forall_forall _ _) Hall s E) as (Hq & He0 & He1).
  assert (Hqw : 0 <= match avgQualityScore s with
                     | Some q => if Qeq_bool q 0 then 1 # 2 else q / 100
                     | None => 1 # 2
                     end
                /\ match avgQualityScore s with
                   | Some q => if Qeq_bool q 0 then 1 # 2 else q / 100
                   | None => 1 # 2
                   end <= 1).
  { destruct (avgQualityScore s) as [q|]; [|split; lra].
    destruct (Qeq_bool q 0); [split; lra|].
    unfold Qdiv. change (/ 100) with (1 # 100). split; lra. }
  destruct Hqw as [Hq0 Hq1].
  set (qw := match avgQualityScore s with
             | Some q => if Qeq_bool q 0 then 1 # 2 else q / 100
             | None => 1 # 2
             end) in *.
  split; nra.
Qed.

(** X9.  With a history in range the weight of a ranking lies between
    0.5 and 1.5, as the comment in the code announces, and it is 1 when
    weighting is off or the model has no history. *)
Theorem modelWeight_in_range :
  forall (useWeighted : bool) (allModelStats : list ModelStats) (r : Ranking),
    Forall stats_in_range allModelStats ->
    1 # 2 <= modelWeight_of useWeighted allModelStats r
    /\ modelWeight_of useWeighted allModelStats r <= 3 # 2
    /\ (useWeighted = false \/ Map_get allModelStats (rk_modelId r) = None ->
        modelWeight_of useWeighted allModelStats r = 1).
Proof.
  intros useW stats r Hall.
  destruct (@modelWeight_bounds useW stats r Hall) as [Hlo Hhi].
  split; [exact Hlo|]. split; [exact Hhi|].
  unfold modelWeight_of. intros [->|H]; [reflexivity|].
  rewrite H. now destruct useW.
Qed.

Lemma modelWeight_in_range_witness :
  Forall stats_in_range (history tt)
  /\ 1 # 2 <= modelWeight_of true (history tt)
                (vote "m1" [js "Response A"; js "Response B"])
  /\ modelWeight_of true (history tt)
       (vote "m1" [js "Response A"; js "Response B"]) <= 3 # 2.
Proof.
  assert (H : Forall stats_in_range (history tt)).
  { repeat constructor; vm_compute; discriminate. }
  split; [exact H|].
  destruct (@modelWeight_in_range true (history tt)
              (vote "m1" [js "Response A"; js "Response B"]) H)
    as (Hlo & Hhi & _).
  split; [exact Hlo | exact Hhi].
Defined.

Lemma aggregate_entry_weight (ltm : obj ModelInfo) (cbl : ConfidenceTable)
  (k : jsstring) (wl : list WeightedPosition) (e : AggregateEntry) :
  aggregate_entry ltm cbl (k, wl) = Some e ->
  totalWeight e == round2 (weight_sum wl).
Proof.
  unfold aggregate_entry. cbn [fst snd].
  destruct (0 <? length wl)%nat; [|discriminate].
  destruct (own_get ltm k) as [info|]; [|discriminate].
  intros [= <-]. cbn [totalWeight]. apply round2_comp.
  rewrite fold_sum_map. unfold weight_sum. ring.
Qed.



(** ** Bounds on the average rank *)

Lemma positions_in_bounds (k : jsstring) (parsed : list jsstring) :
  forall (from p : nat),
    In p (positions_in k parsed from) ->
    (from < p <= from + length parsed)%nat.
Proof.
  induction parsed as [|l parsed IH]; intros from p Hp;
    cbn [positions_in] in Hp; [contradiction|].
  apply in_app_or in Hp. destruct Hp as [Hp|Hp].
  - destruct (str_eqb l k); [|contradiction].
    destruct Hp as [<-|[]]. cbn [length]. lia.
  - apply IH in Hp. cbn [length]. lia.
Qed.

Lemma longest_order_ge (rs : list Ranking) (r : Ranking) :
  In r rs -> (length (parsedRanking r) <= longest_order rs)%nat.
Proof.
  unfold longest_order. induction rs as [|r' rs IH]; intros H; [contradiction|].
  cbn [map fold_right]. destruct H as [->|H]; [lia|].
  apply IH in H. lia.
Qed.

Lemma effectiveWeight_bounds (useC : bool) (mw : Q) (scores : obj Confidence)
  (lbl : jsstring) :
  1 # 2 <= mw ->
  1 # 5 <= effectiveWeight_of useC mw scores lbl.
Proof.
  intros H. unfold effectiveWeight_of. destruct useC; [|lra].
  destruct (obj_get scores lbl) as [c| |]; [|lra|lra].
  destruct c; cbn [confidenceWeights]; lra.
Qed.

Lemma weighted_positions_bounds (useW useC : bool) (stats : list ModelStats)
  (k : jsstring) (rs : list Ranking) :
  Forall stats_in_range stats ->
  Forall (fun wp => 1 # 5 <= weight wp
                    /\ (1 <= position wp <= longest_order rs)%nat)
    (weighted_positions useW useC stats k rs).
Proof.
  intros Hstats. apply Forall_forall. intros wp Hwp.
  unfold weighted_positions in Hwp. apply in_flat_map in Hwp.
  destruct Hwp as (r & Hr & Hwp). apply in_map_iff in Hwp.
  destruct Hwp as (p & <- & Hp). cbn [weight position].
  split.
  - apply effectiveWeight_bounds.
    destruct (@modelWeight_bounds useW stats r Hstats) as [H _]. exact H.
  - apply positions_in_bounds in Hp. apply longest_order_ge in Hr. lia.
Qed.

Lemma weighted_sums_bounds (L : nat) (wl : list WeightedPosition) :
  Forall (fun wp => 1 # 5 <= weight wp /\ (1 <= position wp <= L)%nat) wl ->
  (1 # 5) * Q_of_nat (length wl) <= Qsum (map weight wl)
  /\ Qsum (map weight wl)
     <= Qsum (map (fun wp => Q_of_nat (position wp) * weight wp) wl)
  /\ Qsum (map (fun wp => Q_of_nat (position wp) * weight wp) wl)
     <= Q_of_nat L * Qsum (map weight wl).
Proof.
  induction wl as [|wp wl IH]; intros H.
  - cbn [map length]. unfold Qsum. cbn [fold_left].
    change (Q_of_nat 0) with 0. repeat split; lra.
  - inversion H as [|? ? (Hw & Hp1 & HpL) Hrest]; subst.
    destruct (IH Hrest) as (IH1 & IH2 & IH3).
    cbn [map length]. rewrite !Qsum_cons, Q_of_nat_S.
    assert (H1 : 1 <= Q_of_nat (position wp)).
    { unfold Q_of_nat. change 1 with (inject_Z 1). rewrite <- Zle_Qle. lia. }
    assert (H2 : Q_of_nat (position wp) <= Q_of_nat L).
    { unfold Q_of_nat. rewrite <- Zle_Qle. lia. }
    repeat split; nra.
Qed.

(** X11.  With a history in range every weight is at least 0.2, so the
    weights of an entry never add up to zero and the branch that would
    give rank 0 is never taken: the average rank of every entry lies
    between 1 and the length of the longest order, and [totalWeight] is
    at least 0.2. *)
Theorem aggregate_rank_bounds :
  forall (getStats : unit -> list ModelStats) (rs : list Ranking)
         (ltm : obj ModelInfo) (options : Options)
         (agg : list AggregateEntry) (e : AggregateEntry),
    Forall stats_in_range (getStats tt) ->
    calculateAggregateRankings getStats rs ltm options = Ok agg ->
    In e agg ->
    1 <= avgRank e
    /\ avgRank e <= Q_of_nat (longest_order rs)
    /\ 1 # 5 <= totalWeight e.
Proof.
  intros getStats rs ltm options agg e Hstats H He.
  apply calculate_inv in H.
  destruct H as (_ & st & _ & Hok & Hl & ->).
  apply js_sort_In, filter_map_In in He.
  destruct He as ([k wl] & Hx & Hentry).
  apply (proj1 (Object_entries_In _ _)) in Hx.
  apply In_own_get in Hx; [|exact (proj1 Hok)].
  pose proof (aggregate_entry_weight _ _ _ _ Hentry) as Htw.
  apply aggregate_entry_fields in Hentry.
  destruct Hentry as (_ & Hwl & _ & Havg & _).
  set (useW := with_default (useWeightedAggregation options)) in *.
  set (useC := with_default (useConfidenceWeighting options)) in *.
  set (stats := if useW then getStats tt else []) in *.
  assert (Hstats' : Forall stats_in_range stats).
  { unfold stats. destruct useW; [exact Hstats|constructor]. }
  assert (Ewl : wl = weighted_positions useW useC stats k rs).
  { rewrite <- Hl. unfold entry_list. now rewrite Hx. }
  pose proof (@weighted_positions_bounds useW useC stats k rs Hstats') as Hb.
  rewrite <- Ewl in Hb.
  destruct (weighted_sums_bounds Hb) as (B1 & B2 & B3).
  assert (Hn : 1 <= Q_of_nat (length wl)).
  { destruct wl; [congruence|]. cbn [length]. rewrite Q_of_nat_S.
    pose proof (Q_of_nat_nonneg (length wl)). lra. }
  set (L := longest_order rs) in *.
  assert (HL : Q_of_nat L == inject_Z (100 * Z.of_nat L) / 100).
  { unfold Q_of_nat. rewrite inject_Z_mult. field. }
  assert (H1 : 1 == inject_Z 100 / 100) by reflexivity.
  assert (H5 : 1 # 5 == inject_Z 20 / 100) by reflexivity.
  assert (Htot : fold_left (fun sum wp => sum + weight wp) wl 0
                 == Qsum (map weight wl)).
  { rewrite fold_sum_map. ring. }
  assert (Hws : fold_left
                  (fun sum wp => sum + Q_of_nat (position wp) * weight wp) wl 0
                == Qsum (map (fun wp => Q_of_nat (position wp) * weight wp) wl)).
  { rewrite fold_sum_map. ring. }
  assert (Hpos : 0 < Qsum (map weight wl)) by lra.
  rewrite Havg, Htw. unfold weighted_average, weight_sum.
  assert (Hlt : Qltb 0 (fold_left (fun sum wp => sum + weight wp) wl 0) = true).
  { apply Qltb_lt. rewrite Htot. exact Hpos. }
  rewrite Hlt.
  split; [|split].
  - rewrite H1. apply round2_ge. rewrite <- H1, Htot, Hws.
    apply Qle_shift_div_l; [exact Hpos|]. lra.
  - rewrite HL. apply round2_le. rewrite <- HL, Htot, Hws.
    apply Qle_shift_div_r; [exact Hpos|]. lra.
  - rewrite H5. apply round2_ge. rewrite <- H5. lra.
Qed.

Lemma aggregate_rank_bounds_witness :
  exists agg e,
    Forall stats_in_range (history tt)
    /\ calculateAggregateRankings history three_votes two_labels weighted
       = Ok agg
    /\ In e agg
    /\ 1 <= avgRank e
    /\ avgRank e <= Q_of_nat (longest_order three_votes)
    /\ 1 # 5 <= totalWeight e.
Proof.
  assert (H : Forall stats_in_range (history tt)).
  { repeat constructor; vm_compute; discriminate. }
  eexists. eexists. split; [exact H|].
  split; [vm_compute; reflexivity|].
  split; [left; reflexivity|].
  eapply (@aggregate_rank_bounds history three_votes two_labels weighted);
    [exact H | vm_compute; reflexivity | left; reflexivity].
Defined.

(** ** What the aggregator reads of a ranking *)

Lemma record_ranking_same_vote (useW useC : bool) (stats : list ModelStats)
  (st : PositionTable * ConfidenceTable) (r r' : Ranking) :
  same_vote r r' ->
  record_ranking useW useC stats st r = record_ranking useW useC stats st r'.
Proof.
  intros (Hid & Hp & Hc). unfold record_ranking, skipped, modelWeight_of.
  rewrite <- Hid, <- Hp, <- Hc.
  destruct (parsedRanking r) as [|l parsed].
  - cbn [length Nat.eqb rfold_indexed]. now rewrite !andb_true_r, !Tauto.if_same.
  - cbn [length Nat.eqb]. now rewrite !andb_false_r.
Qed.

(** X12.  The aggregator reads the model, the order and the confidences
    of a ranking and nothing else: the validity flag has no effect, so a
    ranking flagged invalid for a repeated or missing label counts like a
    valid one. *)
Theorem aggregate_ignores_validity :
  forall (getStats : unit -> list ModelStats) (rs rs' : list Ranking)
         (ltm : obj ModelInfo) (options : Options),
    Forall2 same_vote rs rs' ->
    calculateAggregateRankings getStats rs ltm options
    = calculateAggregateRankings getStats rs' ltm options.
Proof.
  intros getStats rs rs' ltm options H. unfold calculateAggregateRankings.
  f_equal.
  generalize (@nil (jsstring * list WeightedPosition),
              @nil (jsstring * list Confidence)).
  induction H as [|r r' rs rs' Hr Hrest IH]; intros st; [reflexivity|].
  cbn [rfold]. rewrite (record_ranking_same_vote _ _ _ st Hr).
  destruct (record_ranking _ _ _ st r'); cbn [rbind]; [apply IH|reflexivity].
Qed.

Lemma aggregate_ignores_validity_witness :
  calculateAggregateRankings history three_votes two_labels weighted
  = calculateAggregateRankings history
      (map (fun r => mkRanking (rk_modelId r) (rk_modelName r) (fullRanking r)
                       (parsedRanking r) (rk_confidenceScores r)
                       (rankingCriteria r) false (Some (js "incomplete")))
         three_votes)
      two_labels weighted.
Proof.
  apply (@aggregate_ignores_validity history three_votes _ two_labels weighted).
  repeat constructor.
Defined.

(* ===================================================================== *)
(** * Further properties of the analyzer *)
(* ===================================================================== *)

(** ** What the analyzer reports *)

(** With at least two usable rankings the table [variances] holds the
    statistics of the positions of each label that was given one. *)
Lemma analyze_variances (rs : list Ranking) (ltm : obj ModelInfo)
  (report : DisagreementReport) :
  plain_object ltm ->
  (2 <= valid_count rs)%nat ->
  analyzeDisagreements rs ltm = Ok report ->
  disagreements report
  = js_sort (fun a b => d_variance b - d_variance a)
      (map (fun e =>
              mkDisagreement (fst e) (display_name ltm (fst e))
                (variance (snd e)) (stdDev (snd e)) (positions (snd e))
                (mkRange (list_min (positions (snd e)))
                         (list_max (positions (snd e)))))
         (filter (fun e => exceeds_one (stdDev (snd e)))
            (Object_entries (label_variances ltm rs))))
  /\ mostContested report
     = match hd_error
               (js_sort (fun a b => variance (snd b) - variance (snd a))
                  (Object_entries (label_variances ltm rs))) with
       | Some mc =>
           Some (mkContested (fst mc) (display_name ltm (fst mc))
                   (variance (snd mc)) (stdDev (snd mc)))
       | None => None
       end.
Proof.
  intros Hplain Hcount Hrun.
  destruct (@analyze_spec rs ltm report Hplain Hcount Hrun)
    as (pm & tv & Hpm & Hkeys & Hpos & _).
  destruct Hplain as [Hnd _].
  unfold analyzeDisagreements in Hrun. rewrite usable_count in Hrun.
  replace (valid_count rs <? 2)%nat with false in Hrun
    by (symmetry; apply Nat.ltb_ge; exact Hcount).
  set (labels := Object_keys ltm) in *.
  assert (Hlabels : NoDup labels) by now apply Object_keys_NoDup.
  match type of Hrun with
  | context [rfold ?f (filter usable rs) ?pm0] =>
      destruct (rfold f (filter usable rs) pm0) as [pm1|err] eqn:E;
        [|discriminate]
  end.
  cbn [rbind] in Hrun. injection Hrun as <-.
  cbn [positionMatrix] in Hpm. injection Hpm as ->.
  cbn [disagreements mostContested].
  assert (Hvs : fold_left (note_variance pm) labels [] = label_variances ltm rs).
  { rewrite (@variances_shape pm labels [] Hlabels);
      [|intros l Hin; apply has_own_In; now rewrite Hkeys|intros l _ []].
    cbn [app]. unfold label_variances. fold labels.
    rewrite (filter_ext_in
               (fun l => 0 <? length (entry_list pm l))%nat
               (fun l => 0 <? length (valid_positions l rs))%nat)
      by (intros l Hin; now rewrite Hpos).
    apply map_ext_in. intros l Hin. apply filter_In in Hin.
    now rewrite Hpos by apply Hin. }
  rewrite Hvs. split; reflexivity.
Qed.

Lemma label_variances_In (ltm : obj ModelInfo) (rs : list Ranking)
  (e : jsstring * LabelStats) :
  In e (label_variances ltm rs)
  <-> In (fst e) (Object_keys ltm)
      /\ valid_positions (fst e) rs <> []
      /\ snd e = label_stats (valid_positions (fst e) rs).
Proof.
  unfold label_variances. rewrite in_map_iff. split.
  - intros (l & <- & Hl). apply filter_In in Hl. destruct Hl as [Hl Hn].
    cbn [fst snd]. split; [exact Hl|]. split; [|reflexivity].
    apply Nat.ltb_lt in Hn. intros H0. rewrite H0 in Hn. simpl in Hn. lia.
  - intros (Hl & Hn & Hs). exists (fst e). split.
    + rewrite <- Hs. now destruct e.
    + apply filter_In. split; [exact Hl|]. apply Nat.ltb_lt.
      destruct (valid_positions (fst e) rs); [congruence|simpl; lia].
Qed.





Lemma sorted_desc_head (A : Type) (f : A -> Q) (l : list A) (x y : A) :
  hd_error (js_sort (fun a b => f b - f a) l) = Some x ->
  In y l -> f y <= f x.
Proof.
  intros Hhd Hy.
  pose proof (js_sort_sorted_desc f l) as Hs.
  apply (proj2 (js_sort_In (fun a b => f b - f a) l y)) in Hy.
  destruct (js_sort (fun a b => f b - f a) l) as [|z rest]; [discriminate|].
  injection Hhd as ->. inversion Hs as [|? ? _ Hall]; subst.
  destruct Hy as [->|Hy]; [apply Qle_refl|].
  exact (proj1 (Forall_forall _ _) Hall y Hy).
Qed.

(** X14.  With at least two usable rankings the most contested label is
    a label of [labelToModel] that was given a position and whose
    positions have the largest population variance of all; there is none
    exactly when no label was given a position. *)
Theorem mostContested_has_largest_variance :
  forall (rs : list Ranking) (ltm : obj ModelInfo)
         (report : DisagreementReport),
    plain_object ltm ->
    (2 <= valid_count rs)%nat ->
    analyzeDisagreements rs ltm = Ok report ->
    (forall c, mostContested report = Some c ->
       In (c_label c) (Object_keys ltm)
       /\ valid_positions (c_label c) rs <> []
       /\ c_variance c == population_variance (valid_positions (c_label c) rs)
       /\ c_stdDev c = Math_sqrt (c_variance c)
       /\ forall k, In k (Object_keys ltm) -> valid_positions k rs <> [] ->
            population_variance (valid_positions k rs) <= c_variance c)
    /\ (mostContested report = None
        <-> forall k, In k (Object_keys ltm) -> valid_positions k rs = []).
Proof.
  intros rs ltm report Hplain Hcount Hrun.
  destruct (@analyze_variances rs ltm report Hplain Hcount Hrun) as [_ Hm].
  rewrite Hm. clear Hm.
  set (f := fun e : jsstring * LabelStats => variance (snd e)).
  change (fun a b : jsstring * LabelStats => variance (snd b) - variance (snd a))
    with (fun a b : jsstring * LabelStats => f b - f a).
  destruct (hd_error (js_sort (fun a b => f b - f a)
                        (Object_entries (label_variances ltm rs))))
    as [[k st]|] eqn:Ehd.
  - assert (Hin : In (k, st) (label_variances ltm rs)).
    { apply Object_entries_In.
      apply (proj1 (js_sort_In (fun a b => f b - f a) _ _)).
      destruct (js_sort (fun a b => f b - f a)
                  (Object_entries (label_variances ltm rs)));
        [discriminate|].
      injection Ehd as ->. now left. }
    apply label_variances_In in Hin. cbn [fst snd] in Hin.
    destruct Hin as (Hk & Hne & ->). split.
    + intros c [= <-]. cbn [c_label c_variance c_stdDev fst snd].
      split; [exact Hk|]. split; [exact Hne|].
      split; [apply label_stats_variance|]. split; [reflexivity|].
      intros k' Hk' Hne'.
      rewrite <- (label_stats_variance (valid_positions k' rs)).
      apply (@sorted_desc_head _ f (Object_entries (label_variances ltm rs))
               (k, label_stats (valid_positions k rs))
               (k', label_stats (valid_positions k' rs)) Ehd).
      apply Object_entries_In, label_variances_In. cbn [fst snd]. auto.
    + split; [discriminate|]. intros Hnone. elim Hne. now apply Hnone.
  - split; [discriminate|]. split; [|reflexivity]. intros _ k Hk.
    destruct (valid_positions k rs) as [|p ps] eqn:Ek; [reflexivity|].
    assert (Hin : In (k, label_stats (valid_positions k rs))
                    (js_sort (fun a b => f b - f a)
                       (Object_entries (label_variances ltm rs)))).
    { apply js_sort_In, Object_entries_In, label_variances_In.
      cbn [fst snd]. rewrite Ek. repeat split; [exact Hk|discriminate]. }
    destruct (js_sort (fun a b => f b - f a)
                (Object_entries (label_variances ltm rs)));
      [contradiction|discriminate].
Qed.

Lemma mostContested_has_largest_variance_witness :
  exists report,
    analyzeDisagreements split_votes four_labels = Ok report
    /\ (forall c, mostContested report = Some c ->
          In (c_label c) (Object_keys four_labels)
          /\ valid_positions (c_label c) split_votes <> []
          /\ c_variance c
             == population_variance (valid_positions (c_label c) split_votes)
          /\ c_stdDev c = Math_sqrt (c_variance c)
          /\ forall k, In k (Object_keys four_labels) ->
               valid_positions k split_votes <> [] ->
               population_variance (valid_positions k split_votes)
               <= c_variance c)
    /\ (mostContested report = None
        <-> forall k, In k (Object_keys four_labels) ->
                      valid_positions k split_votes = []).
Proof.
  eexists. split; [vm_compute; reflexivity|].
  apply (@mostContested_has_largest_variance split_votes four_labels).
  - apply plain_object_check. vm_compute. reflexivity.
  - vm_compute. lia.
  - vm_compute. reflexivity.
Defined.

(** ** The range of the consensus *)

Lemma Qsum_nonneg (A : Type) (f : A -> Q) (l : list A) :
  (forall x, In x l -> 0 <= f x) -> 0 <= Qsum (map f l).
Proof.
  induction l as [|x l IH]; intros H; cbn [map].
  - unfold Qsum. cbn [fold_left]. lra.
  - rewrite Qsum_cons.
    assert (H1 : 0 <= f x) by (apply H; now left).
    assert (H2 : 0 <= Qsum (map f l)) by (apply IH; intros y Hy; apply H; now right).
    lra.
Qed.

Lemma population_variance_nonneg (l : list nat) : 0 <= population_variance l.
Proof.
  unfold population_variance.
  assert (Hnum : 0 <= Qsum (map (fun x => (Q_of_nat x - arithmetic_mean l) ^ 2) l)).
  { apply Qsum_nonneg. intros x _.
    generalize (Q_of_nat x - arithmetic_mean l). intros d.
    assert (E : d ^ 2 == d * d) by ring.
    rewrite E. nra. }
  destruct l as [|p l'].
  - vm_compute. discriminate.
  - apply Qle_shift_div_l; [apply Q_of_nat_pos; simpl; lia|]. lra.
Qed.

Lemma total_variance_nonneg (ltm : obj ModelInfo) (rs : list Ranking) :
  0 <= total_variance ltm rs.
Proof.
  unfold total_variance. apply Qsum_nonneg. intros k _.
  apply population_variance_nonneg.
Qed.

Lemma Qmax_bounds (y : Q) : y <= 1 -> 0 <= Qmax 0 y /\ Qmax 0 y <= 1.
Proof.
  intros H. unfold Qmax. destruct (Qle_bool 0 y) eqn:E.
  - apply Qle_bool_iff in E. split; lra.
  - split; lra.
Qed.

(** X15.  When [labelToModel] has a label the consensus the analyzer
    returns is a number between 0 and 1. *)
Theorem consensus_between_0_and_1 :
  forall (rs : list Ranking) (ltm : obj ModelInfo)
         (report : DisagreementReport),
    plain_object ltm ->
    (1 <= length (Object_keys ltm))%nat ->
    analyzeDisagreements rs ltm = Ok report ->
    exists c, consensus report = Num c /\ 0 <= c /\ c <= 1.
Proof.
  intros rs ltm report Hplain Hne Hrun.
  destruct (Nat.ltb_spec (valid_count rs) 2) as [Hfew|Hcount].
  - unfold analyzeDisagreements in Hrun. rewrite usable_count in Hrun.
    apply Nat.ltb_lt in Hfew. rewrite Hfew in Hrun. injection Hrun as <-.
    exists 1. cbn [consensus]. split; [reflexivity|]. split; lra.
  - destruct (@consensus_sound rs ltm report Hplain Hne Hcount Hrun)
      as (c & Hc & Hval).
    exists c. split; [exact Hc|]. rewrite Hval.
    set (n := Q_of_nat (length (Object_keys ltm))).
    assert (Hn : 0 < n) by (apply Q_of_nat_pos; lia).
    assert (Hden : 0 < max_possible_variance (length (Object_keys ltm)) * n).
    { unfold max_possible_variance. fold n.
      assert (Hnn : 0 < n * n) by nra.
      assert (Hnnn : 0 < n * n * n) by nra.
      assert (E : n ^ 2 / 12 * n == n * n * n * (1 # 12)).
      { unfold Qdiv. change (/ 12) with (1 # 12). ring. }
      rewrite E. lra. }
    pose proof (total_variance_nonneg ltm rs) as Htv.
    assert (Hq : 0 <= total_variance ltm rs
                      / (max_possible_variance (length (Object_keys ltm)) * n)).
    { apply Qle_shift_div_l; [exact Hden|]. lra. }
    destruct (@Qmax_bounds
                (1 - total_variance ltm rs
                     / (max_possible_variance (length (Object_keys ltm)) * n)))
      as [H0 H1]; [lra|].
    assert (E0 : 0 == inject_Z 0 / 100) by reflexivity.
    assert (E1 : 1 == inject_Z 100 / 100) by reflexivity.
    split.
    + rewrite E0. apply round2_ge. now rewrite <- E0.
    + rewrite E1. apply round2_le. now rewrite <- E1.
Qed.

Lemma consensus_between_0_and_1_witness :
  exists report c,
    analyzeDisagreements split_votes four_labels = Ok report
    /\ consensus report = Num c /\ 0 <= c /\ c <= 1.
Proof.
  destruct (@consensus_between_0_and_1 split_votes four_labels
              (match analyzeDisagreements split_votes four_labels with
               | Ok report => report
               | Throw _ => mkReport NaN [] None None
               end)) as (c & Hc & H0 & H1).
  - apply plain_object_check. vm_compute. reflexivity.
  - vm_compute. lia.
  - vm_compute. reflexivity.
  - eexists. exists c. split; [vm_compute; reflexivity|].
    split; [exact Hc|]. split; [exact H0 | exact H1].
Defined.

(** ** Unanimous rankings *)

Lemma positions_in_absent (k : jsstring) (parsed : list jsstring) :
  forall from, ~ In k parsed -> positions_in k parsed from = [].
Proof.
  induction parsed as [|l parsed IH]; intros from H; [reflexivity|].
  cbn [positions_in]. destruct (str_eqb l k) eqn:E.
  - apply str_eqb_eq in E. subst. elim H. now left.
  - cbn [app]. apply IH. intros Hin. apply H. now right.
Qed.

(** In an order without repetition a label has at most one position. *)
Lemma positions_in_NoDup (k : jsstring) (parsed : list jsstring) :
  forall from, NoDup parsed -> (length (positions_in k parsed from) <= 1)%nat.
Proof.
  induction parsed as [|l parsed IH]; intros from H; [simpl; lia|].
  inversion H as [|? ? Hl Hrest]; subst. cbn [positions_in].
  destruct (str_eqb l k) eqn:E.
  - apply str_eqb_eq in E. subst.
    rewrite positions_in_absent by exact Hl. simpl. lia.
  - cbn [app]. now apply IH.
Qed.

Lemma unanimous_positions (order : list jsstring) (rs : list Ranking)
  (k : jsstring) :
  NoDup order -> unanimous order rs ->
  exists p, Forall (fun x => x = p) (valid_positions k rs).
Proof.
  intros Hnd Hun.
  exists (hd 0%nat (positions_in k order 0)).
  unfold valid_positions, label_positions.
  induction rs as [|r rs IH]; [constructor|].
  assert (IH' : Forall (fun x => x = hd 0%nat (positions_in k order 0))
                  (flat_map (fun r => positions_in k (parsedRanking r) 0)
                     (filter isValid rs))).
  { apply IH. intros r' Hr'. apply Hun. now right. }
  cbn [filter]. destruct (isValid r) eqn:Ev; [|exact IH'].
  cbn [flat_map]. apply Forall_app. split; [|exact IH'].
  destruct (parsedRanking r) as [|l parsed] eqn:Ep; [constructor|].
  assert (Hr : parsedRanking r = order).
  { apply Hun; [now left|]. unfold usable. now rewrite Ev, Ep. }
  rewrite <- Ep, Hr. pose proof (positions_in_NoDup k 0 Hnd) as Hlen.
  destruct (positions_in k order 0) as [|p [|q ps]];
    [constructor | repeat constructor | simpl in Hlen; lia].
Qed.

Lemma Qsum_zero (A : Type) (f : A -> Q) (l : list A) :
  (forall x, In x l -> f x == 0) -> Qsum (map f l) == 0.
Proof.
  induction l as [|x l IH]; intros H; cbn [map]; [reflexivity|].
  rewrite Qsum_cons, (H x) by now left.
  rewrite IH; [ring|]. intros y Hy. apply H. now right.
Qed.

Lemma Qsum_const (p : nat) (l : list nat) :
  Forall (fun x => x = p) l ->
  Qsum (map Q_of_nat l) == Q_of_nat (length l) * Q_of_nat p.
Proof.
  induction 1 as [|x l -> _ IH]; cbn [map length].
  - unfold Qsum. cbn [fold_left]. change (Q_of_nat 0) with 0. ring.
  - rewrite Qsum_cons, IH, Q_of_nat_S. ring.
Qed.

Lemma filter_none (A : Type) (p : A -> bool) (l : list A) :
  (forall x, In x l -> p x = false) -> filter p l = [].
Proof.
  induction l as [|x l IH]; intros H; [reflexivity|].
  cbn [filter]. rewrite (H x) by now left.
  apply IH. intros y Hy. apply H. now right.
Qed.

(** Equal positions have no variance. *)
Lemma population_variance_const (p : nat) (l : list nat) :
  Forall (fun x => x = p) l -> population_variance l == 0.
Proof.
  intros H. destruct l as [|x l'] eqn:El; [reflexivity|]. rewrite <- El in *.
  assert (Hn : 0 < Q_of_nat (length l)).
  { apply Q_of_nat_pos. rewrite El. simpl. lia. }
  assert (Hmean : arithmetic_mean l == Q_of_nat p).
  { unfold arithmetic_mean. rewrite (Qsum_const H). field. lra. }
  unfold population_variance.
  rewrite (@Qsum_zero nat (fun x => (Q_of_nat x - arithmetic_mean l) ^ 2) l).
  - field. lra.
  - intros y Hy. rewrite (proj1 (Forall_forall _ _) H y Hy), Hmean. ring.
Qed.

(** X16.  When all usable rankings give one and the same order, without
    repetition, the analyzer reports full consensus: the consensus is 1,
    no label is listed as a disagreement, and the most contested label has
    variance 0. *)
Theorem unanimous_rankings_full_consensus :
  forall (order : list jsstring) (rs : list Ranking) (ltm : obj ModelInfo)
         (report : DisagreementReport),
    plain_object ltm ->
    (1 <= length (Object_keys ltm))%nat ->
    NoDup order ->
    unanimous order rs ->
    analyzeDisagreements rs ltm = Ok report ->
    (exists c, consensus report = Num c /\ c == 1)
    /\ disagreements report = []
    /\ (forall c, mostContested report = Some c -> c_variance c == 0).
Proof.
  intros order rs ltm report Hplain Hne Hnd Hun Hrun.
  assert (Hzero : forall k, population_variance (valid_positions k rs) == 0).
  { intros k. destruct (@unanimous_positions order rs k Hnd Hun) as [p Hp].
    now apply (population_variance_const Hp). }
  destruct (Nat.ltb_spec (valid_count rs) 2) as [Hfew|Hcount].
  - unfold analyzeDisagreements in Hrun. rewrite usable_count in Hrun.
    apply Nat.ltb_lt in Hfew. rewrite Hfew in Hrun. injection Hrun as <-.
    cbn [consensus disagreements mostContested].
    split; [exists 1; split; reflexivity|]. split; [reflexivity|].
    intros c Hc. discriminate.
  - destruct (@consensus_sound rs ltm report Hplain Hne Hcount Hrun)
      as (c & Hc & Hval).
    destruct (@analyze_variances rs ltm report Hplain Hcount Hrun)
      as [Hd Hm].
    split; [|split].
    + exists c. split; [exact Hc|]. rewrite Hval.
      assert (Htv : total_variance ltm rs == 0).
      { unfold total_variance. apply Qsum_zero. intros k _. apply Hzero. }
      rewrite Htv.
      assert (E : 1 - 0 / (max_possible_variance (length (Object_keys ltm))
                           * Q_of_nat (length (Object_keys ltm))) == 1).
      { unfold Qdiv. ring. }
      rewrite E. reflexivity.
    + rewrite Hd.
      assert (Hnone : filter (fun e : jsstring * LabelStats =>
                                exceeds_one (stdDev (snd e)))
                        (Object_entries (label_variances ltm rs)) = []).
      { apply filter_none. intros [k st] Hin.
        apply (proj1 (Object_entries_In _ _)) in Hin.
        apply label_variances_In in Hin. cbn [fst snd] in *.
        destruct Hin as (_ & _ & ->).
        cbn [stdDev label_stats exceeds_one].
        destruct (Qltb 1 _) eqn:Elt; [|reflexivity].
        apply Qltb_lt in Elt.
        pose proof (label_stats_variance (valid_positions k rs)) as Hv.
        unfold label_stats in Hv. cbn [variance] in Hv.
        rewrite Hv, Hzero in Elt. lra. }
      rewrite Hnone. reflexivity.
    + intros c' Hc'.
      destruct (hd_error _) as [[k st]|] eqn:Ehd in Hm;
        rewrite Hm in Hc'; [|discriminate].
      injection Hc' as <-. cbn [c_variance snd].
      assert (Hin : In (k, st) (label_variances ltm rs)).
      { apply Object_entries_In.
        apply (proj1 (js_sort_In
                 (fun a b : jsstring * LabelStats =>
                    variance (snd b) - variance (snd a)) _ _)).
        match type of Ehd with
        | hd_error ?l = _ => destruct l; [discriminate|]
        end.
        injection Ehd as ->. now left. }
      apply label_variances_In in Hin. cbn [fst snd] in Hin.
      destruct Hin as (_ & _ & ->).
      now rewrite label_stats_variance.
Qed.

Lemma unanimous_rankings_full_consensus_witness :
  exists report,
    analyzeDisagreements agreeing_votes two_labels = Ok report
    /\ (exists c, consensus report = Num c /\ c == 1)
    /\ disagreements report = []
    /\ (forall c, mostContested report = Some c -> c_variance c == 0).
Proof.
  eexists. split; [vm_compute; reflexivity|].
  apply (@unanimous_rankings_full_consensus
           [js "Response B"; js "Response A"] agreeing_votes two_labels).
  - apply plain_object_check. vm_compute. reflexivity.
  - vm_compute. lia.
  - apply distinct_NoDup. vm_compute. reflexivity.
  - intros r Hr _. repeat (destruct Hr as [<-|Hr]; [reflexivity|]).
    destruct Hr.
  - vm_compute. reflexivity.
Defined.

(* ===================================================================== *)
(** * Further properties of the collector and the orchestrator *)
(* ===================================================================== *)

(** ** The requests of the collector *)

Lemma filter_map_app (A B : Type) (f : A -> option B) (l l' : list A) :
  filter_map f (l ++ l') = filter_map f l ++ filter_map f l'.
Proof. unfold filter_map. apply flat_map_app. Qed.

Lemma Forall2_right (A B : Type) (P : B -> Prop) (l : list A) (l' : list B) :
  Forall2 (fun _ y => P y) l l' -> Forall P l'.
Proof. induction 1; constructor; assumption. Qed.

Section CollectorProperties.

Variable completion :
  Trace -> jsstring -> list Message -> jsstring -> JsResult jsstring.
Variable crit : jsstring -> option Criteria.

(** Handling the reply to one request: an error line when the request
    has failed, and a ranking under the name of the model in either
    case. *)
Lemma rank_with_events (n : nat) (r : Response) (reply : JsResult jsstring)
  (tr : Trace) :
  exists rk evs,
    rank_with crit n r reply tr = (Ok rk, tr ++ evs)
    /\ requests evs = []
    /\ warnings evs = []
    /\ rk_modelId rk = modelId r
    /\ rk_modelName rk = modelName r
    /\ match reply with
       | Ok text =>
           logged_errors evs = []
           /\ fullRanking rk = text
           /\ parsedRanking rk = parseRanking text
           /\ isValid rk = validateRanking (parseRanking text) n
           /\ error rk = None
       | Throw err =>
           logged_errors evs = [err]
           /\ fullRanking rk = js "Error: " ++ message_of err
           /\ parsedRanking rk = []
           /\ isValid rk = false
           /\ error rk = Some (message_of err)
       end.
Proof.
  unfold rank_with, mcatch, mbind, lift, mret, emit.
  destruct reply as [text|err].
  - exists (mkRanking (modelId r) (modelName r) text
              (ranking (parseRankingWithConfidence text))
              (confidenceScores (parseRankingWithConfidence text))
              (crit text)
              (validateRanking (ranking (parseRankingWithConfidence text)) n)
              None), [].
    rewrite app_nil_r. split; [reflexivity|]. cbn. repeat split; reflexivity.
  - eexists. eexists. split; [reflexivity|].
    cbn. repeat split; reflexivity.
Qed.

(** The replies are handled in the order of the responses. *)
Lemma handle_all (n : nat) (P : Response -> JsResult jsstring -> Prop)
  (responses : list Response) (replies : list (JsResult jsstring)) :
  Forall2 P responses replies ->
  forall tr,
    exists ps : list (Ranking * Trace),
      mmap (fun xp => rank_with crit n (fst xp) (snd xp))
        (combine responses replies) tr
      = (Ok (map fst ps), tr ++ concat (map snd ps))
      /\ Forall2
           (fun r p =>
              requests (snd p) = []
              /\ warnings (snd p) = []
              /\ rk_modelId (fst p) = modelId r
              /\ rk_modelName (fst p) = modelName r
              /\ exists reply,
                   P r reply
                   /\ match reply with
                      | Ok text =>
                          logged_errors (snd p) = []
                          /\ fullRanking (fst p) = text
                          /\ parsedRanking (fst p) = parseRanking text
                          /\ isValid (fst p)
                             = validateRanking (parseRanking text) n
                          /\ error (fst p) = None
                      | Throw err =>
                          logged_errors (snd p) = [err]
                          /\ fullRanking (fst p)
                             = js "Error: " ++ message_of err
                          /\ parsedRanking (fst p) = []
                          /\ isValid (fst p) = false
                          /\ error (fst p) = Some (message_of err)
                      end)
           responses ps.
Proof.
  induction 1 as [|r reply responses replies Hr _ IH]; intros tr.
  - exists []. cbn. rewrite app_nil_r. split; [reflexivity|constructor].
  - destruct (rank_with_events n r reply tr)
      as (rk & evs & E1 & H1 & H2 & H3 & H4 & H5).
    destruct (IH (tr ++ evs)) as (ps & E2 & Hps).
    exists ((rk, evs) :: ps). cbn [combine mmap fst snd].
    unfold mbind at 1. rewrite E1. unfold mbind at 1. rewrite E2.
    unfold mret. cbn [map fst snd concat]. rewrite <- app_assoc.
    split; [reflexivity|]. constructor; [|exact Hps].
    cbn [fst snd]. repeat (split; [assumption|]). now exists reply.
Qed.

(** The collector: the rankings and the events, first the requests, one
    after the other, then what the handling of the replies prints. *)
Lemma collect_run (userQuery : jsstring) (responses : list Response)
  (apiKey : jsstring) (tr : Trace) :
  exists (ps : list (Ranking * Trace)) (prompt : jsstring),
    collectRankings completion crit userQuery responses apiKey tr
    = (Ok (mkCollected (map fst ps)
             (make_labelToModel (make_labels responses) responses)),
       tr ++ collector_events [mkMessage (js "user") prompt] apiKey
               responses ps)
    /\ Forall2
         (fun r p =>
            requests (snd p) = []
            /\ warnings (snd p) = []
            /\ rk_modelId (fst p) = modelId r
            /\ rk_modelName (fst p) = modelName r
            /\ exists tr0,
                 match completion tr0 (modelId r)
                         [mkMessage (js "user") prompt] apiKey with
                 | Ok text =>
                     logged_errors (snd p) = []
                     /\ fullRanking (fst p) = text
                     /\ parsedRanking (fst p) = parseRanking text
                     /\ isValid (fst p)
                        = validateRanking (parseRanking text)
                            (length responses)
                     /\ error (fst p) = None
                 | Throw err =>
                     logged_errors (snd p) = [err]
                     /\ fullRanking (fst p) = js "Error: " ++ message_of err
                     /\ parsedRanking (fst p) = []
                     /\ isValid (fst p) = false
                     /\ error (fst p) = Some (message_of err)
                 end)
         responses ps.
Proof.
  unfold collectRankings, Promise_all_map. cbv zeta.
  replace (length (make_labels responses)) with (length responses)
    by (unfold make_labels; now rewrite mapi_length).
  match goal with
  | |- context [send _ _ [mkMessage _ ?p] _] => set (prompt := p)
  end.
  destruct (send_all completion [mkMessage (js "user") prompt] apiKey
              responses tr) as (replies & E0 & Hrep).
  destruct (@handle_all (length responses) _ responses replies Hrep
              (tr ++ map (fun r => ChatCompletion (modelId r)
                                     [mkMessage (js "user") prompt] apiKey)
                       responses))
    as (ps & E & Hps).
  exists ps, prompt. unfold mbind. rewrite E0, E. unfold mret.
  unfold collector_events. rewrite <- app_assoc.
  split; [reflexivity|].
  eapply Forall2_impl; [|exact Hps].
  intros r p (H1 & H2 & H3 & H4 & reply & (tr0 & ->) & H5).
  repeat (split; [assumption|]). now exists tr0.
Qed.

End CollectorProperties.

Lemma collected_events (messages : list Message) (apiKey : jsstring)
  (P : Response -> Ranking * Trace -> Prop)
  (rs : list Response) (ps : list (Ranking * Trace)) :
  Forall2 (fun r p =>
             requests (snd p) = []
             /\ warnings (snd p) = []
             /\ rk_modelId (fst p) = modelId r
             /\ rk_modelName (fst p) = modelName r
             /\ P r p) rs ps ->
  requests (collector_events messages apiKey rs ps)
  = map (fun r => (modelId r, messages, apiKey)) rs
  /\ warnings (collector_events messages apiKey rs ps) = []
  /\ map rk_modelId (map fst ps) = map modelId rs
  /\ map rk_modelName (map fst ps) = map modelName rs
  /\ length ps = length rs.
Proof.
  intros H.
  assert (Hrest : requests (concat (map snd ps)) = []
                  /\ warnings (concat (map snd ps)) = []
                  /\ map rk_modelId (map fst ps) = map modelId rs
                  /\ map rk_modelName (map fst ps) = map modelName rs
                  /\ length ps = length rs).
  { induction H as [|r [rk evs] rs ps (H1 & H2 & H3 & H4 & _) _ IH].
    - repeat split; reflexivity.
    - destruct IH as (I1 & I2 & I3 & I4 & I5).
      cbn [map fst snd concat length] in *.
      unfold requests, warnings in *. rewrite !filter_map_app.
      rewrite H1, H2, H3, H4, I1, I2, I3, I4, I5. repeat split; reflexivity. }
  clear H.
  assert (Hsent : requests (map (fun r => ChatCompletion (modelId r) messages
                                            apiKey) rs)
                  = map (fun r => (modelId r, messages, apiKey)) rs
                  /\ warnings (map (fun r => ChatCompletion (modelId r)
                                               messages apiKey) rs) = []).
  { clear Hrest. induction rs as [|r rs [I1 I2]]; [now split|].
    cbn [map]. 
    change (requests (ChatCompletion (modelId r) messages apiKey
                      :: map (fun r0 => ChatCompletion (modelId r0) messages
                                          apiKey) rs))
      with ((modelId r, messages, apiKey)
            :: requests (map (fun r0 => ChatCompletion (modelId r0) messages
                                          apiKey) rs)).
    change (warnings (ChatCompletion (modelId r) messages apiKey
                      :: map (fun r0 => ChatCompletion (modelId r0) messages
                                          apiKey) rs))
      with (warnings (map (fun r0 => ChatCompletion (modelId r0) messages
                                       apiKey) rs)).
    now rewrite I1, I2. }
  destruct Hsent as [S1 S2]. destruct Hrest as (R1 & R2 & R3 & R4 & R5).
  unfold collector_events, requests, warnings in *.
  rewrite !filter_map_app, S1, S2, R1, R2, app_nil_r. auto.
Qed.

(** X17.  The collector never throws.  It sends exactly one completion
    request for each response, in the order of the responses, to the
    model of that response, every one with the same single user message
    and the given key; it prints no warning, and the rankings it returns
    carry the model ids and names of the responses, in order. *)
Theorem collectRankings_one_request_each :
  forall completion crit (userQuery : jsstring) (responses : list Response)
         (apiKey : jsstring) (tr : Trace),
    exists c evs prompt,
      collectRankings completion crit userQuery responses apiKey tr
      = (Ok c, tr ++ evs)
      /\ requests evs
         = map (fun r => (modelId r, [mkMessage (js "user") prompt], apiKey))
             responses
      /\ warnings evs = []
      /\ map rk_modelId (collected_rankings c) = map modelId responses
      /\ map rk_modelName (collected_rankings c) = map modelName responses.
Proof.
  intros completion crit userQuery responses apiKey tr.
  destruct (@collect_run completion crit userQuery responses apiKey tr)
    as (ps & prompt & E & Hps).
  apply (@collected_events [mkMessage (js "user") prompt] apiKey) in Hps. destruct Hps as (H1 & H2 & H3 & H4 & _).
  eexists. eexists. exists prompt. split; [exact E|].
  cbn [collected_rankings]. auto.
Qed.

(** X18.  Of the rankings the collector returns, one flagged valid comes
    from a reply, never from a failed request, and lists at least as many
    labels as there are responses, no label twice, each of them a
    [Response] label; one that records an error is flagged invalid, has
    no label and carries the error message as its text. *)
Theorem collected_rankings_validity :
  forall completion crit (userQuery : jsstring) (responses : list Response)
         (apiKey : jsstring) (tr : Trace),
    exists c tr',
      collectRankings completion crit userQuery responses apiKey tr
      = (Ok c, tr')
      /\ Forall
           (fun rk =>
              Forall response_label (parsedRanking rk)
              /\ (isValid rk = true ->
                  error rk = None
                  /\ NoDup (parsedRanking rk)
                  /\ (length responses <= length (parsedRanking rk))%nat)
              /\ (forall msg, error rk = Some msg ->
                    isValid rk = false
                    /\ parsedRanking rk = []
                    /\ fullRanking rk = js "Error: " ++ msg))
           (collected_rankings c).
Proof.
  intros completion crit userQuery responses apiKey tr.
  destruct (@collect_run completion crit userQuery responses apiKey tr)
    as (ps & prompt & E & Hps).
  eexists. eexists. split; [exact E|]. cbn [collected_rankings].
  apply Forall_map.
  eapply Forall2_right, Forall2_impl; [|exact Hps].
  intros r [rk evs] (_ & _ & _ & _ & tr0 & H). cbn [fst snd] in *.
  destruct (completion tr0 (modelId r) _ apiKey) as [text|err].
  - destruct H as (_ & _ & Hp & Hv & He). rewrite Hp, Hv, He.
    split; [apply parse_labels_response|]. split; [|discriminate].
    intros Hvalid. apply validateRanking_accepts in Hvalid.
    split; [reflexivity|]. tauto.
  - destruct H as (_ & Hf & Hp & Hv & He). rewrite Hp, Hv, He, Hf.
    split; [constructor|]. split; [discriminate|].
    intros msg [= <-]. auto.
Qed.

(** ** The run of the council *)

Section OrchestratorProperties.

Variable completion :
  Trace -> jsstring -> list Message -> jsstring -> JsResult jsstring.
Variable getStats : unit -> list ModelStats.
Variable crit : jsstring -> option Criteria.

(** The synthesizer never throws and sends one request. *)
Lemma synthesize_events (userQuery : jsstring) (responses : list Response)
  (rks : list Ranking) (chairman apiKey : jsstring) (tr : Trace) :
  exists s evs,
    synthesizeFinal completion userQuery responses rks chairman apiKey tr
    = (Ok s, tr ++ evs)
    /\ requests evs
       = [(chairman, synthesis_messages userQuery responses rks, apiKey)]
    /\ warnings evs = []
    /\ modelId s = chairman
    /\ match completion tr chairman
               (synthesis_messages userQuery responses rks) apiKey with
       | Ok text => logged_errors evs = [] /\ content s = text
       | Throw err =>
           logged_errors evs = [err]
           /\ modelName s = js "Chairman"
           /\ content s = js "Error synthesizing response: " ++ message_of err
       end.
Proof.
  unfold synthesizeFinal, mcatch, mbind, chat, mret, emit.
  destruct (completion tr chairman _ apiKey) as [text|err].
  - eexists. eexists. split; [reflexivity|]. cbn. repeat split; reflexivity.
  - eexists. eexists. split; [now rewrite <- app_assoc|].
    cbn. repeat split; reflexivity.
Qed.

(** The run of [runCouncil] on at least two responses, step by step. *)
Lemma runCouncil_run (userQuery : jsstring) (responses : list Response)
  (apiKey : jsstring) (chairmanModelId : option jsstring) (options : Options)
  (tr : Trace) :
  (2 <= length responses)%nat ->
  exists (c : Collected) (evs1 warn evs3 : Trace) (chosen : list Ranking)
         (agg : list AggregateEntry) (report : DisagreementReport)
         (s : Response),
    collectRankings completion crit userQuery responses apiKey tr
    = (Ok c, tr ++ evs1)
    /\ chosen
       = (if (0 <? length (filter isValid (collected_rankings c)))%nat
          then filter isValid (collected_rankings c)
          else collected_rankings c)
    /\ warn
       = (if (0 <? length (filter (fun r => negb (isValid r))
                             (collected_rankings c)))%nat
             && (length (collected_rankings c)
                 <=? 2 * length (filter (fun r => negb (isValid r))
                                   (collected_rankings c)))%nat
          then [ConsoleWarn
                  (js "Warning: "
                   ++ nat_to_js (length (filter (fun r => negb (isValid r))
                                           (collected_rankings c)))
                   ++ js " out of "
                   ++ nat_to_js (length (collected_rankings c))
                   ++ js " rankings are invalid")]
          else [])
    /\ calculateAggregateRankings getStats chosen (collected_labelToModel c)
         options = Ok agg
    /\ analyzeDisagreements chosen (collected_labelToModel c) = Ok report
    /\ synthesizeFinal completion userQuery responses (collected_rankings c)
         (chairman_of chairmanModelId responses) apiKey
         (tr ++ evs1 ++ warn)
       = (Ok s, (tr ++ evs1 ++ warn) ++ evs3)
    /\ runCouncil completion getStats crit userQuery responses apiKey
         chairmanModelId options tr
       = (Ok (mkCouncil (collected_rankings c) (collected_labelToModel c)
                agg s report
                (mkValidation (length (collected_rankings c))
                   (length (filter isValid (collected_rankings c)))
                   (length (filter (fun r => negb (isValid r))
                              (collected_rankings c)))
                   (map (fun r =>
                           mkDetail (rk_modelName r)
                             (or_else (match error r with
                                       | Some e => e
                                       | None => []
                                       end)
                                (js "Incomplete ranking")))
                      (filter (fun r => negb (isValid r))
                         (collected_rankings c))))),
          (tr ++ evs1 ++ warn) ++ evs3).
Proof.
  intros Hlen. unfold runCouncil.
  replace (length responses <? 2)%nat with false
    by (symmetry; apply Nat.ltb_ge; exact Hlen).
  destruct (@collect_run completion crit userQuery responses apiKey tr)
    as (ps & prompt & E & _).
  destruct (collectRankings_ok completion crit userQuery responses apiKey tr)
    as (c & tr1 & E' & _ & Hown & _).
  rewrite E in E'. injection E' as <- <-.
  set (c := mkCollected (map fst ps)
              (make_labelToModel (make_labels responses) responses)) in *.
  set (evs1 := collector_events [mkMessage (js "user") prompt] apiKey
                 responses ps) in *.
  unfold mbind at 1. rewrite E. cbv zeta.
  set (rks := collected_rankings c) in *.
  set (ltm := collected_labelToModel c).
  set (chosen := if (0 <? length (filter isValid rks))%nat
                 then filter isValid rks else rks).
  assert (Hchosen : Forall own_labels chosen).
  { unfold chosen. destruct (0 <? length (filter isValid rks))%nat;
      [now apply Forall_filter|exact Hown]. }
  destruct (calculate_sound getStats ltm options Hchosen) as (agg & Eagg & _).
  destruct (@analyze_returns chosen ltm Hchosen) as (report & Ereport).
  match goal with
  | |- context [mbind (if ?cond then emit (ConsoleWarn ?line) else mret tt) _] =>
      set (warn := if cond then [ConsoleWarn line] else []);
      assert (Ewarn : (if cond then emit (ConsoleWarn line) else mret tt)
                        (tr ++ evs1)
                      = (Ok tt, tr ++ evs1 ++ warn))
        by (unfold warn; destruct cond; unfold emit, mret;
            [now rewrite <- app_assoc | now rewrite app_nil_r])
  end.
  unfold mbind at 1. rewrite Ewarn.
  unfold mbind at 1, lift at 1. rewrite Eagg.
  unfold mbind at 1, lift at 1. rewrite Ereport.
  destruct (@synthesize_events userQuery responses rks
              (chairman_of chairmanModelId responses) apiKey
              (tr ++ evs1 ++ warn))
    as (s & evs3 & Es & _).
  unfold mbind at 1. rewrite Es. unfold mret.
  exists c, evs1, warn, evs3, chosen, agg, report, s.
  repeat (split; [first [reflexivity | assumption]|]). reflexivity.
Qed.

End OrchestratorProperties.

(** ** C9: a failing synthesis request *)

(** C9.  When the synthesis request fails, [synthesizeFinal] returns a
    result whose content is [Error synthesizing response: ] followed by
    the message of the error, instead of throwing.  With at least two
    responses [runCouncil] always returns the whole result, assembled
    from the outputs of its stages: the rankings and the label map of the
    collector, one ranking for each response; the aggregate and the
    disagreement analysis of the rankings flagged valid, or of all
    rankings when none is; the validation counts and details; and as
    synthesis what [synthesizeFinal] returns on these rankings, at some
    trace [tr_s].  If the completion service fails on that request, the
    run returns this result all the same, the synthesis carrying the
    error text. *)
Theorem runCouncil_survives_synthesis_failure :
  forall completion getStats crit userQuery (responses : list Response)
         apiKey chairmanModelId options tr,
    (2 <= length responses)%nat ->
    (forall rks chairman tr0 err,
        completion tr0 chairman (synthesis_messages userQuery responses rks)
          apiKey = Throw err ->
        synthesizeFinal completion userQuery responses rks chairman apiKey tr0
        = (Ok (mkResponse chairman (js "Chairman")
                 (js "Error synthesizing response: " ++ message_of err)),
           tr0 ++ [ChatCompletion chairman
                     (synthesis_messages userQuery responses rks) apiKey;
                   ConsoleError (js "Error in chairman synthesis:") err]))
    /\ exists c tr_c result tr_s tr',
         collectRankings completion crit userQuery responses apiKey tr
         = (Ok c, tr_c)
         /\ runCouncil completion getStats crit userQuery responses apiKey
              chairmanModelId options tr = (Ok result, tr')
         /\ rankings result = collected_rankings c
         /\ length (rankings result) = length responses
         /\ labelToModel result = collected_labelToModel c
         /\ calculateAggregateRankings getStats
              (if (0 <? length (filter isValid (rankings result)))%nat
               then filter isValid (rankings result)
               else rankings result)
              (labelToModel result) options
            = Ok (aggregateRankings result)
         /\ analyzeDisagreements
              (if (0 <? length (filter isValid (rankings result)))%nat
               then filter isValid (rankings result)
               else rankings result)
              (labelToModel result)
            = Ok (disagreementAnalysis result)
         /\ rankingValidation result
            = mkValidation (length (rankings result))
                (length (filter isValid (rankings result)))
                (length (filter (fun r => negb (isValid r))
                           (rankings result)))
                (map (fun r =>
                        mkDetail (rk_modelName r)
                          (or_else (match error r with
                                    | Some e => e
                                    | None => []
                                    end)
                             (js "Incomplete ranking")))
                   (filter (fun r => negb (isValid r)) (rankings result)))
         /\ synthesizeFinal completion userQuery responses (rankings result)
              (chairman_of chairmanModelId responses) apiKey tr_s
            = (Ok (synthesis result), tr')
         /\ (forall err,
               completion tr_s (chairman_of chairmanModelId responses)
                 (synthesis_messages userQuery responses (rankings result))
                 apiKey = Throw err ->
               synthesis result
               = mkResponse (chairman_of chairmanModelId responses)
                   (js "Chairman")
                   (js "Error synthesizing response: " ++ message_of err)).
Proof.
  intros completion getStats crit userQuery responses apiKey chairmanModelId
    options tr Hlen.
  split; [intros; now apply synthesizeFinal_failure|].
  destruct (@runCouncil_run completion getStats crit userQuery responses
              apiKey chairmanModelId options tr Hlen)
    as (c & evs1 & warn & evs3 & chosen & agg & report & s
        & Ec & Hchosen & _ & Eagg & Ereport & Es & Erun).
  destruct (collectRankings_ok completion crit userQuery responses apiKey tr)
    as (c' & tr1 & Ec' & Hn & _).
  rewrite Ec in Ec'. injection Ec' as <- _.
  subst chosen.
  exists c, (tr ++ evs1).
  eexists. exists (tr ++ evs1 ++ warn). eexists.
  split; [exact Ec|]. split; [exact Erun|].
  cbn [rankings labelToModel aggregateRankings disagreementAnalysis
       rankingValidation synthesis].
  split; [reflexivity|]. split; [exact Hn|]. split; [reflexivity|].
  split; [exact Eagg|]. split; [exact Ereport|]. split; [reflexivity|].
  split; [exact Es|].
  intros err Herr.
  rewrite (synthesizeFinal_failure _ _ _ _ _ _ _ Herr) in Es.
  now injection Es as <- _.
Qed.

Lemma runCouncil_survives_synthesis_failure_witness :
  (forall rks chairman tr0 err,
      service_down tr0 chairman
        (synthesis_messages (js "Which is best?") two_responses rks)
        (js "key") = Throw err ->
      synthesizeFinal service_down (js "Which is best?") two_responses rks
        chairman (js "key") tr0
      = (Ok (mkResponse chairman (js "Chairman")
               (js "Error synthesizing response: " ++ message_of err)),
         tr0 ++ [ChatCompletion chairman
                   (synthesis_messages (js "Which is best?") two_responses rks)
                   (js "key");
                 ConsoleError (js "Error in chairman synthesis:") err]))
  /\ exists c tr_c result tr_s tr',
       collectRankings service_down (fun _ => None) (js "Which is best?")
         two_responses (js "key") [] = (Ok c, tr_c)
       /\ runCouncil service_down (fun _ => []) (fun _ => None)
            (js "Which is best?") two_responses (js "key") None
            (mkOptions None None) [] = (Ok result, tr')
       /\ rankings result = collected_rankings c
       /\ length (rankings result) = length two_responses
       /\ labelToModel result = collected_labelToModel c
       /\ calculateAggregateRankings (fun _ => [])
            (if (0 <? length (filter isValid (rankings result)))%nat
             then filter isValid (rankings result)
             else rankings result)
            (labelToModel result) (mkOptions None None)
          = Ok (aggregateRankings result)
       /\ analyzeDisagreements
            (if (0 <? length (filter isValid (rankings result)))%nat
             then filter isValid (rankings result)
             else rankings result)
            (labelToModel result)
          = Ok (disagreementAnalysis result)
       /\ rankingValidation result
          = mkValidation (length (rankings result))
              (length (filter isValid (rankings result)))
              (length (filter (fun r => negb (isValid r)) (rankings result)))
              (map (fun r =>
                      mkDetail (rk_modelName r)
                        (or_else (match error r with
                                  | Some e => e
                                  | None => []
                                  end)
                           (js "Incomplete ranking")))
                 (filter (fun r => negb (isValid r)) (rankings result)))
       /\ synthesizeFinal service_down (js "Which is best?") two_responses
            (rankings result) (chairman_of None two_responses) (js "key") tr_s
          = (Ok (synthesis result), tr')
       /\ (forall err,
             service_down tr_s (chairman_of None two_responses)
               (synthesis_messages (js "Which is best?") two_responses
                  (rankings result))
               (js "key") = Throw err ->
             synthesis result
             = mkResponse (chairman_of None two_responses) (js "Chairman")
                 (js "Error synthesizing response: " ++ message_of err)).
Proof.
  apply runCouncil_survives_synthesis_failure. simpl. lia.
Defined.

Lemma filter_split_length (A : Type) (p : A -> bool) (l : list A) :
  (length (filter p l) + length (filter (fun x => negb (p x)) l))%nat
  = length l.
Proof.
  rewrite <- length_app. apply Permutation_length, filter_split_perm.
Qed.

Lemma or_else_nonempty (x fallback : jsstring) :
  fallback <> [] -> or_else x fallback <> [].
Proof. intros H. unfold or_else. destruct x; [exact H|discriminate]. Qed.

(** X19.  With at least two responses [runCouncil] returns, with one
    ranking for each response, in order; in [rankingValidation] the
    total is the number of responses, the valid and the invalid counts
    add up to it, there is one detail for each invalid ranking, and no
    detail has an empty error text. *)
Theorem runCouncil_validation_counts :
  forall completion getStats crit (userQuery : jsstring)
         (responses : list Response) (apiKey : jsstring)
         (chairmanModelId : option jsstring) (options : Options) (tr : Trace),
    (2 <= length responses)%nat ->
    exists result tr',
      runCouncil completion getStats crit userQuery responses apiKey
        chairmanModelId options tr = (Ok result, tr')
      /\ map rk_modelId (rankings result) = map modelId responses
      /\ totalRankings (rankingValidation result) = length responses
      /\ (validRankings (rankingValidation result)
          + invalidRankings (rankingValidation result))%nat
         = length responses
      /\ validRankings (rankingValidation result)
         = length (filter isValid (rankings result))
      /\ length (invalidDetails (rankingValidation result))
         = invalidRankings (rankingValidation result)
      /\ Forall (fun d => detail_error d <> [])
           (invalidDetails (rankingValidation result)).
Proof.
  intros completion getStats crit userQuery responses apiKey chairmanModelId
    options tr Hlen.
  destruct (@runCouncil_run completion getStats crit userQuery responses
              apiKey chairmanModelId options tr Hlen)
    as (c & evs1 & warn & evs3 & chosen & agg & report & s
        & Ec & _ & _ & _ & _ & _ & Erun).
  destruct (@collect_run completion crit userQuery responses apiKey tr)
    as (ps & prompt & E & Hps).
  rewrite Ec in E. injection E as Hc _.
  apply (@collected_events [mkMessage (js "user") prompt] apiKey) in Hps. destruct Hps as (_ & _ & Hids & _ & Hn).
  assert (Hrks : collected_rankings c = map fst ps) by now rewrite Hc.
  eexists. eexists. split; [exact Erun|].
  cbn [rankings rankingValidation totalRankings validRankings invalidRankings
       invalidDetails].
  rewrite Hrks.
  split; [exact Hids|]. split; [now rewrite length_map|].
  split; [now rewrite filter_split_length, length_map|].
  split; [reflexivity|]. split; [now rewrite length_map|].
  apply Forall_map, Forall_forall. intros rk _. cbn [detail_error].
  apply or_else_nonempty. discriminate.
Qed.

Lemma runCouncil_validation_counts_witness :
  exists result tr',
    runCouncil service_down (fun _ => []) (fun _ => None)
      (js "Which is best?") two_responses (js "key") None weighted []
    = (Ok result, tr')
    /\ map rk_modelId (rankings result) = map modelId two_responses
    /\ totalRankings (rankingValidation result) = length two_responses
    /\ (validRankings (rankingValidation result)
        + invalidRankings (rankingValidation result))%nat
       = length two_responses
    /\ validRankings (rankingValidation result)
       = length (filter isValid (rankings result))
    /\ length (invalidDetails (rankingValidation result))
       = invalidRankings (rankingValidation result)
    /\ Forall (fun d => detail_error d <> [])
         (invalidDetails (rankingValidation result)).
Proof.
  apply (@runCouncil_validation_counts service_down (fun _ => [])
           (fun _ => None) (js "Which is best?") two_responses (js "key")
           None weighted []).
  vm_compute. lia.
Defined.

(** X20.  A run of [runCouncil] on at least two responses sends exactly
    one completion request more than there are responses: the ranking
    requests, one for each response in order, all with the same single
    user message, then one request to the chairman, which is the given
    chairman or else the model of the first response, with the synthesis
    prompt built from the rankings of the run. *)
Theorem runCouncil_requests :
  forall completion getStats crit (userQuery : jsstring)
         (responses : list Response) (apiKey : jsstring)
         (chairmanModelId : option jsstring) (options : Options) (tr : Trace),
    (2 <= length responses)%nat ->
    exists result evs prompt,
      runCouncil completion getStats crit userQuery responses apiKey
        chairmanModelId options tr = (Ok result, tr ++ evs)
      /\ requests evs
         = map (fun r => (modelId r, [mkMessage (js "user") prompt], apiKey))
             responses
           ++ [(chairman_of chairmanModelId responses,
                synthesis_messages userQuery responses (rankings result),
                apiKey)]
      /\ length (requests evs) = S (length responses)
      /\ modelId (synthesis result) = chairman_of chairmanModelId responses.
Proof.
  intros completion getStats crit userQuery responses apiKey chairmanModelId
    options tr Hlen.
  destruct (@runCouncil_run completion getStats crit userQuery responses
              apiKey chairmanModelId options tr Hlen)
    as (c & evs1 & warn & evs3 & chosen & agg & report & s
        & Ec & _ & Hwarn & _ & _ & Es & Erun).
  destruct (@collect_run completion crit userQuery responses apiKey tr)
    as (ps & prompt & E & Hps).
  rewrite Ec in E. injection E as Hc Hevs. apply app_inv_head in Hevs.
  apply (@collected_events [mkMessage (js "user") prompt] apiKey) in Hps. destruct Hps as (Hreq & _).
  destruct (@synthesize_events completion userQuery responses
              (collected_rankings c) (chairman_of chairmanModelId responses)
              apiKey (tr ++ evs1 ++ warn))
    as (s' & evs3' & Es' & Hreq3 & _ & Hid & _).
  rewrite Es in Es'. injection Es' as Hs Hevs3. apply app_inv_head in Hevs3.
  subst s' evs3'.
  assert (Hw : requests warn = []).
  { rewrite Hwarn. now destruct (_ && _). }
  exists (mkCouncil (collected_rankings c) (collected_labelToModel c) agg s
            report
            (mkValidation (length (collected_rankings c))
               (length (filter isValid (collected_rankings c)))
               (length (filter (fun r => negb (isValid r))
                          (collected_rankings c)))
               (map (fun r =>
                       mkDetail (rk_modelName r)
                         (or_else (match error r with
                                   | Some e => e
                                   | None => []
                                   end)
                            (js "Incomplete ranking")))
                  (filter (fun r => negb (isValid r))
                     (collected_rankings c))))).
  exists (evs1 ++ warn ++ evs3), prompt.
  split; [rewrite Erun; f_equal; now rewrite <- !app_assoc|].
  cbn [rankings synthesis].
  assert (Hrequests : requests (evs1 ++ warn ++ evs3)
                      = map (fun r => (modelId r,
                                       [mkMessage (js "user") prompt], apiKey))
                          responses
                        ++ [(chairman_of chairmanModelId responses,
                             synthesis_messages userQuery responses
                               (collected_rankings c), apiKey)]).
  { unfold requests in *. rewrite !filter_map_app, Hw, Hreq3, Hevs, Hreq.
    reflexivity. }
  split; [exact Hrequests|]. split; [|exact Hid].
  rewrite Hrequests, length_app, length_map. cbn [length]. lia.
Qed.

Lemma runCouncil_requests_witness :
  exists result evs prompt,
    runCouncil service_down (fun _ => []) (fun _ => None)
      (js "Which is best?") two_responses (js "key") None weighted []
    = (Ok result, [] ++ evs)
    /\ requests evs
       = map (fun r => (modelId r, [mkMessage (js "user") prompt], js "key"))
           two_responses
         ++ [(chairman_of None two_responses,
              synthesis_messages (js "Which is best?") two_responses
                (rankings result),
              js "key")]
    /\ length (requests evs) = S (length two_responses)
    /\ modelId (synthesis result) = chairman_of None two_responses.
Proof.
  apply (@runCouncil_requests service_down (fun _ => []) (fun _ => None)
           (js "Which is best?") two_responses (js "key") None weighted []).
  vm_compute. lia.
Defined.

(** X21.  [runCouncil] prints at most one warning, and it prints one
    exactly when at least one ranking is invalid and the invalid rankings
    are at least half of all; the warning states both counts. *)
Theorem runCouncil_warns_when_half_invalid :
  forall completion getStats crit (userQuery : jsstring)
         (responses : list Response) (apiKey : jsstring)
         (chairmanModelId : option jsstring) (options : Options) (tr : Trace),
    (2 <= length responses)%nat ->
    exists result evs,
      runCouncil completion getStats crit userQuery responses apiKey
        chairmanModelId options tr = (Ok result, tr ++ evs)
      /\ (length (warnings evs) <= 1)%nat
      /\ (warnings evs <> []
          <-> (1 <= invalidRankings (rankingValidation result))%nat
              /\ (totalRankings (rankingValidation result)
                  <= 2 * invalidRankings (rankingValidation result))%nat)
      /\ (forall line, In line (warnings evs) ->
            line = js "Warning: "
                   ++ nat_to_js (invalidRankings (rankingValidation result))
                   ++ js " out of "
                   ++ nat_to_js (totalRankings (rankingValidation result))
                   ++ js " rankings are invalid").
Proof.
  intros completion getStats crit userQuery responses apiKey chairmanModelId
    options tr Hlen.
  destruct (@runCouncil_run completion getStats crit userQuery responses
              apiKey chairmanModelId options tr Hlen)
    as (c & evs1 & warn & evs3 & chosen & agg & report & s
        & Ec & _ & Hwarn & _ & _ & Es & Erun).
  destruct (@collect_run completion crit userQuery responses apiKey tr)
    as (ps & prompt & E & Hps).
  rewrite Ec in E. injection E as Hc Hevs. apply app_inv_head in Hevs.
  apply (@collected_events [mkMessage (js "user") prompt] apiKey) in Hps. destruct Hps as (_ & Hw1 & _).
  destruct (@synthesize_events completion userQuery responses
              (collected_rankings c) (chairman_of chairmanModelId responses)
              apiKey (tr ++ evs1 ++ warn))
    as (s' & evs3' & Es' & _ & Hw3 & _).
  rewrite Es in Es'. injection Es' as Hs Hevs3. apply app_inv_head in Hevs3.
  subst s' evs3'.
  eexists. exists (evs1 ++ warn ++ evs3).
  split; [rewrite Erun; f_equal; now rewrite <- !app_assoc|].
  cbn [rankingValidation invalidRankings totalRankings].
  set (inv := length (filter (fun r => negb (isValid r))
                        (collected_rankings c))) in *.
  set (total := length (collected_rankings c)) in *.
  assert (Hall : warnings (evs1 ++ warn ++ evs3) = warnings warn).
  { unfold warnings in *. rewrite !filter_map_app, Hevs, Hw1, Hw3.
    now rewrite app_nil_r. }
  rewrite Hall, Hwarn.
  destruct (Nat.ltb_spec 0 inv) as [E0|E0];
    destruct (Nat.leb_spec total (2 * inv)) as [E1|E1];
    cbn [andb warnings filter_map flat_map app length In].
  - split; [lia|]. split; [split; [intros _; split; lia|discriminate]|].
    intros line [<-|[]]. reflexivity.
  - split; [lia|]. split; [split; [congruence|lia]|]. intros line [].
  - split; [lia|]. split; [split; [congruence|lia]|]. intros line [].
  - split; [lia|]. split; [split; [congruence|lia]|]. intros line [].
Qed.

Lemma runCouncil_warns_when_half_invalid_witness :
  exists result evs,
    runCouncil service_down (fun _ => []) (fun _ => None)
      (js "Which is best?") two_responses (js "key") None weighted []
    = (Ok result, [] ++ evs)
    /\ (length (warnings evs) <= 1)%nat
    /\ (warnings evs <> []
        <-> (1 <= invalidRankings (rankingValidation result))%nat
            /\ (totalRankings (rankingValidation result)
                <= 2 * invalidRankings (rankingValidation result))%nat)
    /\ (forall line, In line (warnings evs) ->
          line = js "Warning: "
                 ++ nat_to_js (invalidRankings (rankingValidation result))
                 ++ js " out of "
                 ++ nat_to_js (totalRankings (rankingValidation result))
                 ++ js " rankings are invalid").
Proof.
  apply (@runCouncil_warns_when_half_invalid service_down (fun _ => [])
           (fun _ => None) (js "Which is best?") two_responses (js "key")
           None weighted []).
  vm_compute. lia.
Defined.

(** ** A run while every request fails *)

Lemma calculate_nothing (getStats : unit -> list ModelStats)
  (rs : list Ranking) (ltm : obj ModelInfo) (options : Options) :
  Forall (fun rk => parsedRanking rk = []) rs ->
  calculateAggregateRankings getStats rs ltm options = Ok [].
Proof.
  intros H. unfold calculateAggregateRankings.
  match goal with
  | |- rbind (rfold ?f rs ?st0) _ = _ =>
      assert (E : rfold f rs st0 = Ok st0)
  end.
  { generalize (@nil (jsstring * list WeightedPosition),
                @nil (jsstring * list Confidence)).
    induction H as [|rk rs Hrk _ IH]; intros st; [reflexivity|].
    cbn [rfold]. unfold record_ranking at 1. rewrite Hrk.
    destruct (skipped rk); cbn [rfold_indexed rbind]; apply IH. }
  rewrite E. reflexivity.
Qed.

Lemma analyze_nothing (rs : list Ranking) (ltm : obj ModelInfo) :
  Forall (fun rk => isValid rk = false) rs ->
  analyzeDisagreements rs ltm = Ok (mkReport (Num 1) [] None None).
Proof.
  intros H. unfold analyzeDisagreements.
  rewrite (@filter_none _ usable rs); [reflexivity|].
  intros rk Hrk. unfold usable.
  now rewrite (proj1 (Forall_forall _ _) H rk Hrk).
Qed.

Lemma filter_all (A : Type) (p : A -> bool) (l : list A) :
  (forall x, In x l -> p x = true) -> filter p l = l.
Proof.
  induction l as [|x l IH]; intros H; [reflexivity|].
  cbn [filter]. rewrite (H x) by now left.
  f_equal. apply IH. intros y Hy. apply H. now right.
Qed.

Lemma all_requests_failed (completion :
    Trace -> jsstring -> list Message -> jsstring -> JsResult jsstring)
  (err : JsError) (messages : list Message) (apiKey : jsstring) (n : nat)
  (rs : list Response) (ps : list (Ranking * Trace)) :
  (forall tr model msgs key, completion tr model msgs key = Throw err) ->
  Forall2
    (fun r p =>
       requests (snd p) = []
       /\ warnings (snd p) = []
       /\ rk_modelId (fst p) = modelId r
       /\ rk_modelName (fst p) = modelName r
       /\ exists tr0,
            match completion tr0 (modelId r) messages apiKey with
            | Ok text =>
                logged_errors (snd p) = []
                /\ fullRanking (fst p) = text
                /\ parsedRanking (fst p) = parseRanking text
                /\ isValid (fst p) = validateRanking (parseRanking text) n
                /\ error (fst p) = None
            | Throw err =>
                logged_errors (snd p) = [err]
                /\ fullRanking (fst p) = js "Error: " ++ message_of err
                /\ parsedRanking (fst p) = []
                /\ isValid (fst p) = false
                /\ error (fst p) = Some (message_of err)
            end)
    rs ps ->
  Forall (fun rk => parsedRanking rk = [] /\ isValid rk = false) (map fst ps)
  /\ map (fun rk => (rk_modelName rk, error rk)) (map fst ps)
     = map (fun r => (modelName r, Some (message_of err))) rs
  /\ logged_errors (collector_events messages apiKey rs ps)
     = repeat err (length rs).
Proof.
  intros Hdown H.
  assert (Hsent : logged_errors
                    (map (fun r => ChatCompletion (modelId r) messages apiKey)
                       rs) = []).
  { clear H. induction rs as [|r rs IH]; [reflexivity|exact IH]. }
  unfold collector_events, logged_errors in *.
  rewrite filter_map_app, Hsent. cbn [app]. clear Hsent.
  induction H as [|r [rk evs] rs ps (_ & _ & _ & Hname & tr0 & H) _ IH].
  - repeat split; constructor.
  - destruct IH as (I1 & I2 & I3). rewrite Hdown in H.
    destruct H as (Hlog & _ & Hp & Hv & He). cbn [fst snd] in *.
    cbn [map fst snd concat length repeat].
    rewrite filter_map_app, Hlog, I3, I2.
    rewrite Hname, He. split; [|split; reflexivity].
    constructor; [now split|exact I1].
Qed.

(** X22.  When every completion request fails with the same error,
    [runCouncil] still returns on at least two responses: no ranking is
    valid, the aggregate is empty, the analysis is the one of full
    consensus, every response has an invalid detail with the message of
    the error, the synthesis carries the error text, the error is printed
    once for each response and once for the chairman, and the warning is
    printed. *)
Theorem runCouncil_when_all_requests_fail :
  forall completion getStats crit (userQuery : jsstring)
         (responses : list Response) (apiKey : jsstring)
         (chairmanModelId : option jsstring) (options : Options) (tr : Trace)
         (err : JsError),
    (2 <= length responses)%nat ->
    (forall tr0 model msgs key, completion tr0 model msgs key = Throw err) ->
    exists result evs,
      runCouncil completion getStats crit userQuery responses apiKey
        chairmanModelId options tr = (Ok result, tr ++ evs)
      /\ aggregateRankings result = []
      /\ disagreementAnalysis result = mkReport (Num 1) [] None None
      /\ validRankings (rankingValidation result) = 0%nat
      /\ invalidRankings (rankingValidation result) = length responses
      /\ invalidDetails (rankingValidation result)
         = map (fun r =>
                  mkDetail (modelName r)
                    (or_else (message_of err) (js "Incomplete ranking")))
             responses
      /\ synthesis result
         = mkResponse (chairman_of chairmanModelId responses) (js "Chairman")
             (js "Error synthesizing response: " ++ message_of err)
      /\ logged_errors evs = repeat err (S (length responses))
      /\ length (warnings evs) = 1%nat.
Proof.
  intros completion getStats crit userQuery responses apiKey chairmanModelId
    options tr err Hlen Hdown.
  destruct (@runCouncil_run completion getStats crit userQuery responses
              apiKey chairmanModelId options tr Hlen)
    as (c & evs1 & warn & evs3 & chosen & agg & report & s
        & Ec & Hchosen & Hwarn & Eagg & Ereport & Es & Erun).
  destruct (@collect_run completion crit userQuery responses apiKey tr)
    as (ps & prompt & E & Hps).
  rewrite Ec in E. injection E as Hc Hevs. apply app_inv_head in Hevs.
  pose proof (@collected_events [mkMessage (js "user") prompt] apiKey _ _ _
                Hps) as (_ & Hw1 & _ & _ & Hn).
  pose proof (@all_requests_failed _ _ _ _ _ _ _ Hdown Hps)
    as (Hfail & Hdetail & Hlog1).
  assert (Hrks : collected_rankings c = map fst ps) by now rewrite Hc.
  rewrite <- Hrks in Hfail, Hdetail. rewrite <- Hevs in Hlog1, Hw1.
  set (rks := collected_rankings c) in *.
  assert (Hvalid : filter isValid rks = []).
  { apply filter_none. intros rk Hrk.
    exact (proj2 (proj1 (Forall_forall _ _) Hfail rk Hrk)). }
  assert (Hinvalid : filter (fun r => negb (isValid r)) rks = rks).
  { apply filter_all. intros rk Hrk.
    now rewrite (proj2 (proj1 (Forall_forall _ _) Hfail rk Hrk)). }
  assert (Hlenr : length rks = length responses).
  { rewrite Hrks, length_map. exact Hn. }
  rewrite Hvalid in Hchosen. cbn [length Nat.ltb Nat.leb] in Hchosen.
  subst chosen.
  rewrite calculate_nothing in Eagg
    by (eapply Forall_impl; [|exact Hfail]; now intros rk [H _]).
  injection Eagg as <-.
  rewrite analyze_nothing in Ereport
    by (eapply Forall_impl; [|exact Hfail]; now intros rk [_ H]).
  injection Ereport as <-.
  rewrite (@synthesizeFinal_failure completion userQuery responses rks
             (chairman_of chairmanModelId responses) apiKey
             (tr ++ evs1 ++ warn) err (Hdown _ _ _ _)) in Es.
  injection Es as <- Hevs3. apply app_inv_head in Hevs3. subst evs3.
  rewrite Hinvalid, Hlenr in Hwarn.
  replace ((0 <? length responses)%nat
           && (length responses <=? 2 * length responses)%nat)
    with true in Hwarn
    by (symmetry; apply andb_true_intro; split;
        [apply Nat.ltb_lt | apply Nat.leb_le]; lia).
  eexists. eexists.
  split; [rewrite Erun, <- !app_assoc; reflexivity|].
  cbn [aggregateRankings disagreementAnalysis rankingValidation validRankings
       invalidRankings invalidDetails synthesis].
  rewrite Hvalid, Hinvalid, Hlenr.
  split; [reflexivity|]. split; [reflexivity|]. split; [reflexivity|].
  split; [reflexivity|]. split.
  { clear - Hdetail. revert Hdetail. generalize responses.
    induction rks as [|rk rks IH]; intros [|r rs] H; try discriminate;
      [reflexivity|].
    cbn [map] in *. injection H as Hn He Hrest.
    rewrite Hn, He. f_equal. now apply IH. }
  split; [reflexivity|].
  unfold logged_errors, warnings in *. rewrite !filter_map_app, Hlog1, Hw1.
  rewrite Hwarn. cbn [filter_map flat_map app length].
  split; [|reflexivity].
  clear. induction (length responses) as [|n IH]; [reflexivity|].
  cbn [repeat app]. now rewrite IH.
Qed.

Lemma runCouncil_when_all_requests_fail_witness :
  exists result evs,
    runCouncil service_down (fun _ => []) (fun _ => None)
      (js "Which is best?") two_responses (js "key") None weighted []
    = (Ok result, [] ++ evs)
    /\ aggregateRankings result = []
    /\ disagreementAnalysis result = mkReport (Num 1) [] None None
    /\ validRankings (rankingValidation result) = 0%nat
    /\ invalidRankings (rankingValidation result) = length two_responses
    /\ invalidDetails (rankingValidation result)
       = map (fun r =>
                mkDetail (modelName r)
                  (or_else (message_of (Error (js "API request failed: 503")))
                     (js "Incomplete ranking")))
           two_responses
    /\ synthesis result
       = mkResponse (chairman_of None two_responses) (js "Chairman")
           (js "Error synthesizing response: "
            ++ message_of (Error (js "API request failed: 503")))
    /\ logged_errors evs
       = repeat (Error (js "API request failed: 503"))
           (S (length two_responses))
    /\ length (warnings evs) = 1%nat.
Proof.
  apply (@runCouncil_when_all_requests_fail service_down (fun _ => [])
           (fun _ => None) (js "Which is best?") two_responses (js "key")
           None weighted []).
  - vm_compute. lia.
  - reflexivity.
Defined.

(* ===================================================================== *)
(** * The quality heuristic *)
(* ===================================================================== *)

(** X23.  [calculateQualityScore] gives 0 for an error and otherwise a
    multiple of 5 between 20 and 90: the clamp to the range 0 to 100 is
    never active, the result being the base of 50 with its adjustments. *)
Theorem calculateQualityScore_range :
  forall (response : jsstring) (responseTime : option Q),
    calculateQualityScore response responseTime true = 0%Z
    /\ calculateQualityScore response responseTime false
       = quality_points response responseTime
    /\ (20 <= calculateQualityScore response responseTime false <= 90)%Z
    /\ exists k, calculateQualityScore response responseTime false = (5 * k)%Z.
Proof.
  intros response rt.
  assert (H : (20 <= quality_points response rt <= 90)%Z
              /\ exists k, quality_points response rt = (5 * k)%Z).
  { unfold quality_points. cbv zeta.
    destruct ((50 <? Z.of_nat (length response))
              && (Z.of_nat (length response) <? 2000))%Z;
      [|destruct (Z.of_nat (length response) <? 20)%Z];
      (destruct rt as [t|];
       [destruct (Qltb 0 t && Qltb t 5000); [|destruct (Qltb 30000 t)]|]);
      destruct (includes response (js "?") || includes response (js "!"));
      destruct (1 <? length (split response nl))%nat;
      (split; [lia|]);
      match goal with
      | |- exists k, ?v = _ =>
          let q := eval vm_compute in (v / 5)%Z in exists q; reflexivity
      end. }
  destruct H as [Hrange Hdiv].
  unfold calculateQualityScore.
  split; [reflexivity|].
  assert (E : Z.max 0 (Z.min 100 (quality_points response rt))
              = quality_points response rt) by lia.
  rewrite E. auto.
Qed.

(* ===================================================================== *)
(** * The messages of the completion client *)
(* ===================================================================== *)

Lemma lastUserIndex_none (messages : list Message) :
  lastUserIndex messages = None
  <-> Forall (fun m => is_user m = false) messages.
Proof.
  induction messages as [|m rest IH]; cbn [lastUserIndex].
  - split; [constructor|reflexivity].
  - destruct (lastUserIndex rest) as [i|].
    + split; [discriminate|]. intros H. inversion H; subst.
      destruct IH as [_ IH]. specialize (IH H3). discriminate.
    + destruct (is_user m) eqn:E.
      * split; [discriminate|]. intros H. inversion H; subst. congruence.
      * split; [|reflexivity]. intros _. constructor; [exact E|].
        now apply IH.
Qed.

(** The message the retry changes is the last one of role [user]. *)
Lemma createRetryPrompt_split (pre post : list Message) (u : Message) :
  is_user u = true ->
  Forall (fun m => is_user m = false) post ->
  createRetryPrompt (pre ++ u :: post)
  = pre ++ mkMessage (js "user")
             (msg_content u ++ nl ++ nl ++ RETRY_INSTRUCTION) :: post.
Proof.
  intros Hu Hpost. unfold createRetryPrompt.
  assert (E : lastUserIndex (pre ++ u :: post) = Some (length pre)).
  { induction pre as [|m pre IH]; cbn [app lastUserIndex length].
    - apply lastUserIndex_none in Hpost. now rewrite Hpost, Hu.
    - now rewrite IH. }
  rewrite E. clear E.
  induction pre as [|m pre IH]; cbn [app length update_at]; [reflexivity|].
  now rewrite IH.
Qed.

Lemma lastUserIndex_some (messages : list Message) (i : nat) :
  lastUserIndex messages = Some i ->
  exists pre u post,
    messages = pre ++ u :: post /\ is_user u = true
    /\ Forall (fun m => is_user m = false) post.
Proof.
  revert i. induction messages as [|m rest IH]; intros i H;
    cbn [lastUserIndex] in H; [discriminate|].
  destruct (lastUserIndex rest) as [j|] eqn:E.
  - destruct (IH j eq_refl) as (pre & u & post & -> & Hu & Hpost).
    exists (m :: pre), u, post. auto.
  - destruct (is_user m) eqn:Em; [|discriminate].
    exists [], m, rest. split; [reflexivity|]. split; [exact Em|].
    now apply lastUserIndex_none.
Qed.

(** X24.  [ensureConciseCompleteMessages] returns messages that hold a
    system message, every system message beginning with the instruction;
    the other messages are kept as they are and in order, and a message
    is added, in front, only when there was no system message. *)
Theorem ensureConciseCompleteMessages_shape :
  forall messages : list Message,
    existsb is_system (ensureConciseCompleteMessages messages) = true
    /\ Forall (fun m => is_system m = true ->
                        startsWith CONCISE_COMPLETE_SYSTEM_MESSAGE
                          (msg_content m) = true)
         (ensureConciseCompleteMessages messages)
    /\ filter (fun m => negb (is_system m))
         (ensureConciseCompleteMessages messages)
       = filter (fun m => negb (is_system m)) messages
    /\ map role (ensureConciseCompleteMessages messages)
       = (if existsb is_system messages then map role messages
          else js "system" :: map role messages).
Proof.
  intros messages. unfold ensureConciseCompleteMessages. cbv zeta.
  assert (Hstart : forall s,
             startsWith CONCISE_COMPLETE_SYSTEM_MESSAGE
               (CONCISE_COMPLETE_SYSTEM_MESSAGE ++ s) = true).
  { intros s. induction CONCISE_COMPLETE_SYSTEM_MESSAGE as [|c l IH];
      [reflexivity|].
    cbn [app startsWith]. now rewrite N.eqb_refl, IH. }
  destruct (existsb is_system messages) eqn:E.
  - split; [|split; [|split]].
    + rewrite existsb_exists in *. destruct E as (m & Hm & Hs).
      exists (mkMessage (role m)
                (CONCISE_COMPLETE_SYSTEM_MESSAGE ++ nl ++ nl ++ msg_content m)).
      split; [|exact Hs]. apply in_map_iff. exists m. now rewrite Hs.
    + apply Forall_map, Forall_forall. intros m _.
      destruct (is_system m) eqn:Hs; [|congruence].
      intros _. cbn [msg_content]. apply Hstart.
    + clear E. induction messages as [|m rest IH]; [reflexivity|].
      cbn [map filter]. destruct (is_system m) eqn:Hs.
      * unfold is_system at 1. cbn [role]. fold (is_system m).
        rewrite Hs. cbn [negb]. exact IH.
      * rewrite Hs. cbn [negb]. now rewrite IH.
    + rewrite map_map. apply map_ext. intros m.
      now destruct (is_system m).
  - split; [reflexivity|]. split; [|split].
    + constructor.
      * intros _. cbn [msg_content]. rewrite <- (app_nil_r CONCISE_COMPLETE_SYSTEM_MESSAGE) at 2.
        apply Hstart.
      * apply Forall_forall. intros m Hm Hs.
        assert (Hex : existsb is_system messages = true).
        { apply existsb_exists. now exists m. }
        congruence.
    + reflexivity.
    + reflexivity.
Qed.

(** X25.  [createRetryPrompt] keeps the number and the roles of the
    messages.  It appends the instruction to the last message of role
    [user] and changes nothing else; without such a message it returns
    the messages as they are. *)
Theorem createRetryPrompt_changes_last_user_message :
  forall messages : list Message,
    length (createRetryPrompt messages) = length messages
    /\ map role (createRetryPrompt messages) = map role messages
    /\ (Forall (fun m => is_user m = false) messages ->
        createRetryPrompt messages = messages)
    /\ (forall pre u post,
          messages = pre ++ u :: post ->
          is_user u = true ->
          Forall (fun m => is_user m = false) post ->
          createRetryPrompt messages
          = pre ++ mkMessage (js "user")
                     (msg_content u ++ nl ++ nl ++ RETRY_INSTRUCTION)
                   :: post).
Proof.
  intros messages.
  assert (Hlast : forall pre u post,
             messages = pre ++ u :: post ->
             is_user u = true ->
             Forall (fun m => is_user m = false) post ->
             createRetryPrompt messages
             = pre ++ mkMessage (js "user")
                        (msg_content u ++ nl ++ nl ++ RETRY_INSTRUCTION)
                      :: post).
  { intros pre u post -> Hu Hpost. now apply createRetryPrompt_split. }
  assert (Hnone : Forall (fun m => is_user m = false) messages ->
                  createRetryPrompt messages = messages).
  { intros H. apply lastUserIndex_none in H. unfold createRetryPrompt.
    now rewrite H. }
  assert (Hkeep : length (createRetryPrompt messages) = length messages
                  /\ map role (createRetryPrompt messages) = map role messages).
  { destruct (lastUserIndex messages) as [i|] eqn:E.
    - destruct (lastUserIndex_some _ E) as (pre & u & post & Hm & Hu & Hpost).
      rewrite (Hlast pre u post Hm Hu Hpost). subst messages.
      rewrite !length_app, !map_app. cbn [length map role].
      unfold is_user in Hu. apply str_eqb_eq in Hu. rewrite Hu.
      split; reflexivity.
    - apply lastUserIndex_none in E. rewrite (Hnone E). split; reflexivity. }
  destruct Hkeep as [Hlen Hroles].
  split; [exact Hlen|]. split; [exact Hroles|].
  split; [exact Hnone|exact Hlast].
Qed.

(* ===================================================================== *)
(** * Replies of the completion service *)
(* ===================================================================== *)

Lemma js_or_empty (v : JsValue) :
  js_or v (VStr []) = VStr [] \/ truthy (js_or v (VStr [])) = true.
Proof.
  unfold js_or. destruct (truthy v) eqn:E; [right; exact E|left; reflexivity].
Qed.

(** X26.  [extractMessageContent] never throws.  It returns the empty
    string or a truthy value; it prints an error, and then returns the
    empty string, exactly when the response or its [choices] is
    [undefined] or [null]; and from a response whose first choice has a
    message with a string as content it returns that string.
    [isTruncated] holds exactly for an object whose first choice is an
    object with the own property [finish_reason] equal to [length]. *)
Theorem extractMessageContent_total :
  forall (response : JsValue) (log : Log),
    (fst (extractMessageContent response log) = VStr []
     \/ truthy (fst (extractMessageContent response log)) = true)
    /\ (snd (extractMessageContent response log) = log
        \/ (fst (extractMessageContent response log) = VStr []
            /\ exists err,
                 snd (extractMessageContent response log)
                 = log ++ [LogError (js "Failed to extract message content:")
                             err]))
    /\ (snd (extractMessageContent response log) = log
        <-> exists choices,
              get_property response (js "choices") = Ok choices
              /\ nullish choices = false)
    /\ (forall o c rest m s,
          response = VObj o ->
          own_get o (js "choices") = Some (VArr (VObj c :: rest)) ->
          own_get c (js "message") = Some (VObj m) ->
          own_get m (js "content") = Some (VStr s) ->
          extractMessageContent response log = (VStr s, log))
    /\ (isTruncated response = true
        <-> exists o choices c,
              response = VObj o
              /\ own_get o (js "choices") = Some choices
              /\ get_first choices = Ok (VObj c)
              /\ own_get c (js "finish_reason") = Some (VStr (js "length"))).
Proof.
  intros response log.
  assert (Hneq : forall (l : Log) (ev : ClientEvent), l ++ [ev] <> l).
  { intros l ev H. apply (f_equal (@length _)) in H.
    rewrite length_app in H. simpl in H. lia. }
  split; [|split; [|split; [|split]]].
  - unfold extractMessageContent.
    destruct (rbind _ _) as [v|e]; cbn [fst]; [apply js_or_empty|now left].
  - unfold extractMessageContent.
    destruct (rbind _ _) as [v|e]; cbn [fst snd]; [now left|right].
    split; [reflexivity|]. now exists e.
  - unfold extractMessageContent.
    destruct (get_property response (js "choices")) as [choices|e] eqn:E;
      cbn [rbind].
    + destruct choices as [| |b|q|s|l|o]; cbn [get_first rbind snd].
      * split; [intros H; now apply Hneq in H|].
        intros (ch & [= <-] & H). discriminate.
      * split; [intros H; now apply Hneq in H|].
        intros (ch & [= <-] & H). discriminate.
      * split; [|reflexivity]. intros _. now eexists.
      * split; [|reflexivity]. intros _. now eexists.
      * assert (Hok : exists v,
                   rbind (get_optional
                            match s with
                            | [] => VUndefined
                            | c :: _ => VStr [c]
                            end (js "message"))
                     (fun message => get_optional message (js "content"))
                   = Ok v).
        { destruct s; cbn; eexists; reflexivity. }
        destruct Hok as [v Hv]. rewrite Hv. cbn [snd].
        split; [|reflexivity]. intros _. now eexists.
      * assert (Hok : forall x : JsValue, exists v,
                   rbind (get_optional x (js "message"))
                     (fun message => get_optional message (js "content"))
                   = Ok v).
        { intros x. unfold get_optional.
          destruct x as [| |b|q|s|l'|o]; cbn [nullish get_property rbind];
            try (eexists; reflexivity).
          destruct (own_get o (js "message")) as [y|];
            [|eexists; reflexivity].
          destruct y; cbn [nullish get_property]; eexists; reflexivity. }
        destruct (Hok match l with x :: _ => x | [] => VUndefined end)
          as [v Hv].
        rewrite Hv. cbn [snd]. split; [|reflexivity]. intros _. now eexists.
      * assert (Hok : forall x : JsValue, exists v,
                   rbind (get_optional x (js "message"))
                     (fun message => get_optional message (js "content"))
                   = Ok v).
        { intros x. unfold get_optional.
          destruct x as [| |b|q|s|l'|o']; cbn [nullish get_property rbind];
            try (eexists; reflexivity).
          destruct (own_get o' (js "message")) as [y|];
            [|eexists; reflexivity].
          destruct y; cbn [nullish get_property]; eexists; reflexivity. }
        destruct (Hok match own_get o (js "0") with
                      | Some x => x
                      | None => VUndefined
                      end) as [v Hv].
        rewrite Hv. cbn [snd]. split; [|reflexivity]. intros _. now eexists.
    + cbn [snd]. split; [intros H; now apply Hneq in H|].
      intros (ch & H & _). discriminate.
  - intros o c rest m s -> Ho Hc Hm. unfold extractMessageContent.
    cbn [get_property rbind]. rewrite Ho. cbn [get_first rbind].
    unfold get_optional. cbn [nullish get_property rbind]. rewrite Hc.
    cbn [nullish get_property]. rewrite Hm. unfold js_or. cbn [truthy].
    now destruct s.
  - unfold isTruncated. split.
    + destruct response as [| |b|q|s|l|o]; cbn [get_property rbind];
        try discriminate.
      destruct (own_get o (js "choices")) as [choices|] eqn:Ho;
        [|cbn; discriminate].
      unfold get_first_optional.
      destruct (nullish choices) eqn:En; [cbn; discriminate|].
      destruct (get_first choices) as [first|e] eqn:Ef; cbn [rbind];
        [|discriminate].
      unfold get_optional.
      destruct first as [| |b|q|s|l|c]; cbn [nullish get_property];
        try discriminate.
      destruct (own_get c (js "finish_reason")) as [reason|] eqn:Er;
        [|discriminate].
      destruct reason as [| |b|q|s|l|o']; try discriminate.
      intros H. apply str_eqb_eq in H. subst s.
      exists o, choices, c. auto.
    + intros (o & choices & c & -> & Ho & Hf & Hr).
      cbn [get_property rbind]. rewrite Ho. unfold get_first_optional.
      assert (En : nullish choices = false).
      { destruct choices; try reflexivity; discriminate. }
      rewrite En, Hf. cbn [rbind]. unfold get_optional.
      cbn [nullish get_property]. rewrite Hr. apply str_eqb_refl.
Qed.

(* ===================================================================== *)
(** * The requests of the completion client *)
(* ===================================================================== *)

Lemma retry_prompt_shift (k : nat) (messages : list Message) :
  retry_prompt k (createRetryPrompt messages)
  = retry_prompt (S k) messages.
Proof.
  induction k as [|k IH]; [reflexivity|].
  cbn [retry_prompt] in *. now rewrite IH.
Qed.

Section ClientProperties.

Variable useProxy : bool.
Variable origin : jsstring.
Variable fetch : Log -> Request -> FetchOutcome.
Variable ToString_other : JsValue -> JsResult jsstring.

(** A response that is not [ok] always ends in a [throw]. *)
Lemma reject_response_throws (status : nat) (json : JsResult JsValue) :
  exists err, reject_response ToString_other status json = Throw err.
Proof.
  assert (Hthrow : forall v, exists err,
             throw_Error ToString_other v = Throw err).
  { intros v. unfold throw_Error.
    destruct (ToString ToString_other v); cbn [rbind]; eexists; reflexivity. }
  assert (Hapi : forall errorData, exists err,
             throw_api_error ToString_other errorData status = Throw err).
  { intros errorData. unfold throw_api_error.
    destruct (get_property errorData (js "error")) as [e|]; cbn [rbind];
      [|eexists; reflexivity].
    destruct (get_optional e (js "message")) as [m|]; cbn [rbind];
      [|eexists; reflexivity].
    apply Hthrow. }
  unfold reject_response. cbv zeta.
  set (errorData := match json with Ok v => v | Throw _ => VObj [] end).
  destruct (status =? 429)%nat; cbn [rbind]; [|apply Hapi].
  destruct (get_property errorData (js "retryAfter")) as [ra|]; cbn [rbind];
    [|eexists; reflexivity].
  destruct (truthy ra); [|apply Hapi].
  destruct (ToString ToString_other ra); cbn [rbind]; eexists; reflexivity.
Qed.

(** One pass sends one request.  It goes on to another pass only after
    a truncated reply and while fewer than two retries were made; it
    returns only the data of an [ok] response; an error it throws is
    printed unless this is a retry and the message holds [TRUNCATED]. *)
Lemma pass_cases (modelId apiKey : jsstring) (options : obj JsValue)
  (retryCount : nat)
  (messages : list Message) (log : Log) :
  exists evs,
    snd (pass useProxy origin fetch ToString_other modelId apiKey options retryCount
           messages log) = log ++ evs
    /\ fetches evs = [request_for useProxy origin modelId messages apiKey options]
    /\ match fst (pass useProxy origin fetch ToString_other modelId apiKey options
                    retryCount messages log) with
       | Continue retryMessages =>
           retryMessages = createRetryPrompt messages
           /\ (retryCount < maxRetries)%nat
           /\ printed evs = []
           /\ exists status data,
                fetch log (request_for useProxy origin modelId messages apiKey options)
                = Responded true status (Ok data)
                /\ isTruncated data = true
       | Return data =>
           printed evs = []
           /\ (isTruncated data = false \/ (maxRetries <= retryCount)%nat)
           /\ exists status,
                fetch log (request_for useProxy origin modelId messages apiKey options)
                = Responded true status (Ok data)
       | Raise err =>
           (printed evs = [err]
            \/ (printed evs = [] /\ (1 <= retryCount)%nat
                /\ includes (message_of err) (js "TRUNCATED") = true))
           /\ match fetch log
                      (request_for useProxy origin modelId messages apiKey options) with
              | Responded true _ (Ok _) => False
              | _ => True
              end
       end.
Proof.
  assert (Hcaught : forall err l,
             exists evs',
               snd (caught retryCount err (log ++ l)) = log ++ l ++ evs'
               /\ fst (caught retryCount err (log ++ l)) = Raise err
               /\ fetches evs' = []
               /\ (printed evs' = [err]
                   \/ (printed evs' = [] /\ (1 <= retryCount)%nat
                       /\ includes (message_of err) (js "TRUNCATED") = true))).
  { intros err l. unfold caught.
    destruct (retryCount =? 0)%nat eqn:E0; cbn [orb].
    - eexists. cbn [fst snd]. rewrite <- app_assoc.
      split; [reflexivity|]. split; [reflexivity|].
      split; [reflexivity|]. now left.
    - destruct (includes (message_of err) (js "TRUNCATED")) eqn:Ei;
        cbn [negb].
      + exists []. cbn [fst snd]. rewrite app_nil_r.
        split; [reflexivity|]. split; [reflexivity|].
        split; [reflexivity|]. right. apply Nat.eqb_neq in E0.
        split; [reflexivity|]. split; [lia|reflexivity].
      + eexists. cbn [fst snd]. rewrite <- app_assoc.
        split; [reflexivity|]. split; [reflexivity|].
        split; [reflexivity|]. now left. }
  unfold pass. cbv zeta.
  set (request := request_for useProxy origin modelId messages apiKey options).
  assert (Hraise : forall err,
             (match fetch log request with
              | Responded true _ (Ok _) => False
              | _ => True
              end) ->
             exists evs,
               snd (caught retryCount err (log ++ [Fetch request]))
               = log ++ evs
               /\ fetches evs = [request]
               /\ match fst (caught retryCount err (log ++ [Fetch request])) with
                  | Raise err0 =>
                      (printed evs = [err0]
                       \/ (printed evs = [] /\ (1 <= retryCount)%nat
                           /\ includes (message_of err0) (js "TRUNCATED")
                              = true))
                      /\ match fetch log request with
                         | Responded true _ (Ok _) => False
                         | _ => True
                         end
                  | _ => False
                  end).
  { intros err Hfail.
    destruct (Hcaught err [Fetch request]) as (evs' & Hs & Hf & Hfe & Hp).
    exists (Fetch request :: evs'). rewrite Hs, Hf.
    split; [reflexivity|]. unfold fetches, printed in *.
    change (Fetch request :: evs') with ([Fetch request] ++ evs').
    rewrite !filter_map_app, Hfe. cbn [filter_map flat_map app].
    split; [reflexivity|]. split; [exact Hp|exact Hfail]. }
  destruct (fetch log request) as [err|ok status json] eqn:Ef.
  - destruct (Hraise err I) as (evs & H1 & H2 & H3). exists evs.
    split; [exact H1|]. split; [exact H2|].
    destruct (fst (caught retryCount err (log ++ [Fetch request])));
      [contradiction|exact H3|contradiction].
  - destruct ok; cbn [negb].
    + destruct json as [data|err].
      * destruct (isTruncated data) eqn:Et; cbn [andb].
        -- destruct (retryCount <? maxRetries)%nat eqn:Er.
           ++ exists [Fetch request]. cbn [fst snd].
              split; [reflexivity|]. split; [reflexivity|].
              split; [reflexivity|]. apply Nat.ltb_lt in Er.
              split; [exact Er|]. split; [reflexivity|].
              now exists status, data.
           ++ exists [Fetch request]. cbn [fst snd].
              split; [reflexivity|]. split; [reflexivity|].
              split; [reflexivity|]. apply Nat.ltb_ge in Er.
              split; [now right|]. now exists status.
        -- exists [Fetch request]. cbn [fst snd].
           split; [reflexivity|]. split; [reflexivity|].
           split; [reflexivity|]. split; [now left|]. now exists status.
      * destruct (Hraise err I) as (evs & H1 & H2 & H3). exists evs.
        split; [exact H1|]. split; [exact H2|].
        destruct (fst (caught retryCount err (log ++ [Fetch request])));
          [contradiction|exact H3|contradiction].
    + destruct (reject_response_throws status json) as [err Herr].
      rewrite Herr.
      destruct (Hraise err I) as (evs & H1 & H2 & H3). exists evs.
      split; [exact H1|]. split; [exact H2|].
      destruct (fst (caught retryCount err (log ++ [Fetch request])));
        [contradiction|exact H3|contradiction].
Qed.

(** The loop, started with at most two retries made and enough fuel for
    the passes that remain: it ends in a [return] or a [throw] of its
    body, never by its condition. *)
Lemma send_loop_run (modelId apiKey : jsstring) (options : obj JsValue) :
  forall (fuel retryCount : nat) (messages : list Message) (log : Log),
    (retryCount <= maxRetries)%nat ->
    (3 <= fuel + retryCount)%nat ->
    exists result evs n,
      send_loop useProxy origin fetch ToString_other fuel modelId apiKey options
        retryCount messages log = Some (Returned result, log ++ evs)
      /\ (1 <= n)%nat /\ (n + retryCount <= 3)%nat
      /\ fetches evs
         = map (fun k => request_for useProxy origin modelId
                           (retry_prompt k messages) apiKey options) (seq 0 n)
      /\ (length (printed evs) <= 1)%nat
      /\ (forall data, result = Ok data ->
            printed evs = []
            /\ (isTruncated data = true -> (n + retryCount = 3)%nat))
      /\ (forall err, result = Throw err ->
            printed evs = [err]
            \/ (printed evs = [] /\ (2 <= n + retryCount)%nat
                /\ includes (message_of err) (js "TRUNCATED") = true))
      /\ (match fetch log
                  (request_for useProxy origin modelId messages apiKey options) with
          | Responded true _ (Ok data) => isTruncated data = false
          | _ => True
          end -> n = 1%nat).
Proof.
  induction fuel as [|fuel IH]; intros retryCount messages log Hrc Hfuel.
  - unfold maxRetries in Hrc. lia.
  - cbn [send_loop].
    replace (retryCount <=? maxRetries)%nat with true
      by (symmetry; now apply Nat.leb_le).
    destruct (pass_cases modelId apiKey options retryCount messages log)
      as (evs & Hlog & Hfetch & Hout).
    destruct (pass useProxy origin fetch ToString_other modelId apiKey options
                retryCount messages log) as [[data|err|retryMessages] log1].
    + cbn [fst snd] in *. subst log1.
      destruct Hout as (Hp & Htr & status & Hf).
      exists (Ok data), evs, 1%nat. split; [reflexivity|].
      split; [lia|]. split; [unfold maxRetries in Hrc; lia|].
      split; [exact Hfetch|]. split; [rewrite Hp; simpl; lia|].
      split; [|split; [discriminate|reflexivity]].
      intros d [= <-]. split; [exact Hp|]. intros Ht.
      destruct Htr as [Htr|Htr]; [congruence|].
      unfold maxRetries in *. lia.
    + cbn [fst snd] in *. subst log1. destruct Hout as (Hp & Hf).
      exists (Throw err), evs, 1%nat. split; [reflexivity|].
      split; [lia|]. split; [unfold maxRetries in Hrc; lia|].
      split; [exact Hfetch|].
      split; [destruct Hp as [Hp|(Hp & _)]; rewrite Hp; simpl; lia|].
      split; [discriminate|]. split; [|reflexivity].
      intros e [= <-]. destruct Hp as [Hp|(Hp & Hr & Hi)]; [now left|].
      right. split; [exact Hp|]. split; [lia|exact Hi].
    + cbn [fst snd] in *. subst log1.
      destruct Hout as (-> & Hlt & Hp & status & data & Hf & Ht).
      destruct (IH (S retryCount) (createRetryPrompt messages) (log ++ evs))
        as (result & evs' & n & Hrun & Hn1 & Hn3 & Hfetch' & Hprint & Hok
            & Herr & _); [exact Hlt|lia|].
      exists result, (evs ++ evs'), (S n).
      split; [rewrite Hrun; now rewrite <- app_assoc|].
      split; [lia|]. split; [lia|]. split.
      { unfold fetches in *. rewrite filter_map_app, Hfetch, Hfetch'.
        cbn [seq map retry_prompt app]. f_equal.
        rewrite <- seq_shift, map_map. apply map_ext. intros k.
        now rewrite retry_prompt_shift. }
      assert (Hpe : printed (evs ++ evs') = printed evs').
      { unfold printed in *. now rewrite filter_map_app, Hp. }
      rewrite Hpe. split; [exact Hprint|]. split; [|split].
      * intros d Hd. destruct (Hok d Hd) as [H1 H2].
        split; [exact H1|]. intros Htd. specialize (H2 Htd). lia.
      * intros e He. destruct (Herr e He) as [H1|(H1 & H2 & H3)];
          [now left|]. right. split; [exact H1|]. split; [lia|exact H3].
      * rewrite Hf. congruence.
Qed.

End ClientProperties.

Lemma send_loop_more_fuel (useProxy : bool) (origin : jsstring)
  (fetch : Log -> Request -> FetchOutcome)
  (ToString_other : JsValue -> JsResult jsstring) (modelId apiKey : jsstring)
  (options : obj JsValue) :
  forall (fuel fuel' retryCount : nat) (messages : list Message) (log : Log)
         (x : LoopOutcome * Log),
    send_loop useProxy origin fetch ToString_other fuel modelId apiKey options
      retryCount messages log = Some x ->
    (fuel <= fuel')%nat ->
    send_loop useProxy origin fetch ToString_other fuel' modelId apiKey options
      retryCount messages log = Some x.
Proof.
  induction fuel as [|fuel IH]; intros fuel' retryCount messages log x H Hle;
    [discriminate|].
  destruct fuel' as [|fuel']; [lia|]. cbn [send_loop] in *.
  destruct (retryCount <=? maxRetries)%nat; [|exact H].
  destruct (pass useProxy origin fetch ToString_other modelId apiKey options
              retryCount messages log) as [[data|err|retryMessages] log1];
    try exact H.
  apply (IH fuel' _ _ _ _ H). lia.
Qed.

(** The run of [sendChatCompletion] once the key is accepted. *)
Lemma sendChatCompletion_run (useProxy : bool) (origin : jsstring)
  (fetch : Log -> Request -> FetchOutcome)
  (ToString_other : JsValue -> JsResult jsstring) (fuel : nat)
  (modelId : jsstring) (messages : list Message) (apiKey : jsstring)
  (options : obj JsValue) (log : Log) :
  useProxy = true \/ apiKey <> [] ->
  (3 <= fuel)%nat ->
  exists result evs n,
    sendChatCompletion useProxy origin fetch ToString_other fuel modelId
      messages apiKey options log = Some (result, log ++ evs)
    /\ send_loop useProxy origin fetch ToString_other fuel modelId apiKey options 0
         (ensureConciseCompleteMessages messages) log
       = Some (Returned result, log ++ evs)
    /\ (1 <= n <= 3)%nat
    /\ fetches evs
       = map (fun k => request_for useProxy origin modelId
                         (retry_prompt k
                            (ensureConciseCompleteMessages messages)) apiKey
                         options)
           (seq 0 n)
    /\ (length (printed evs) <= 1)%nat
    /\ (forall data, result = Ok data ->
          printed evs = [] /\ (isTruncated data = true -> n = 3%nat))
    /\ (forall err, result = Throw err ->
          printed evs = [err]
          \/ (printed evs = [] /\ (2 <= n)%nat
              /\ includes (message_of err) (js "TRUNCATED") = true))
    /\ (match fetch log
                (request_for useProxy origin modelId
                   (ensureConciseCompleteMessages messages) apiKey options)
          with
        | Responded true _ (Ok data) => isTruncated data = false
        | _ => True
        end -> n = 1%nat).
Proof.
  intros Hkey Hfuel.
  destruct (@send_loop_run useProxy origin fetch ToString_other modelId apiKey
              options fuel 0 (ensureConciseCompleteMessages messages) log)
    as (result & evs & n & Hrun & Hn1 & Hn3 & Hfetch & Hprint & Hok & Herr
        & Hone); [unfold maxRetries; lia|lia|].
  exists result, evs, n. unfold sendChatCompletion.
  replace (negb useProxy && match apiKey with [] => true | _ => false end)
    with false
    by (destruct Hkey as [->|Hk]; [reflexivity|];
        destruct apiKey; [congruence|now rewrite andb_false_r]).
  cbv zeta. rewrite Hrun.
  split; [reflexivity|]. split; [reflexivity|]. split; [lia|].
  split; [exact Hfetch|]. split; [exact Hprint|]. split; [|split].
  - intros data Hd. destruct (Hok data Hd) as [H1 H2].
    split; [exact H1|]. intros Ht. specialize (H2 Ht). lia.
  - intros err He. destruct (Herr err He) as [H1|(H1 & H2 & H3)];
      [now left|]. right. split; [exact H1|]. split; [lia|exact H3].
  - exact Hone.
Qed.

(** X27.  Outside proxy mode [sendChatCompletion] refuses an empty key
    before any request: it throws [API key is required] and sends
    nothing.  In proxy mode the key is not needed and never sent: every
    request goes to [/api/chat] with the content type as its only
    header.  Outside proxy mode every request goes to the completions
    endpoint of OpenRouter and carries the key as bearer token. *)
Theorem sendChatCompletion_key_handling :
  forall (origin : jsstring) (fetch : Log -> Request -> FetchOutcome)
         (ToString_other : JsValue -> JsResult jsstring) (fuel : nat)
         (modelId : jsstring) (messages : list Message) (apiKey : jsstring)
         (options : obj JsValue) (log : Log),
    (3 <= fuel)%nat ->
    sendChatCompletion false origin fetch ToString_other fuel modelId
      messages [] options log
    = Some (Throw (Error (js "API key is required")), log)
    /\ (exists result evs,
          sendChatCompletion true origin fetch ToString_other fuel modelId
            messages apiKey options log = Some (result, log ++ evs)
          /\ fetches evs <> []
          /\ Forall (fun request =>
                       request_endpoint request = js "/api/chat"
                       /\ request_headers request
                          = [(js "Content-Type", js "application/json")])
               (fetches evs))
    /\ (apiKey <> [] ->
        exists result evs,
          sendChatCompletion false origin fetch ToString_other fuel modelId
            messages apiKey options log = Some (result, log ++ evs)
          /\ fetches evs <> []
          /\ Forall (fun request =>
                       request_endpoint request
                       = js "https://openrouter.ai/api/v1/chat/completions"
                       /\ own_get (request_headers request)
                            (js "Authorization")
                          = Some (js "Bearer " ++ apiKey))
               (fetches evs)).
Proof.
  intros origin fetch ToString_other fuel modelId messages apiKey options log Hfuel.
  split; [reflexivity|]. split.
  - destruct (@sendChatCompletion_run true origin fetch ToString_other fuel
                modelId messages apiKey options log (or_introl eq_refl) Hfuel)
      as (result & evs & n & Hrun & _ & Hn & Hfetch & _).
    exists result, evs. split; [exact Hrun|]. rewrite Hfetch. split.
    + destruct n; [lia|]. discriminate.
    + apply Forall_map, Forall_forall. intros k _. split; reflexivity.
  - intros Hkey.
    destruct (@sendChatCompletion_run false origin fetch ToString_other fuel
                modelId messages apiKey options log (or_intror Hkey) Hfuel)
      as (result & evs & n & Hrun & _ & Hn & Hfetch & _).
    exists result, evs. split; [exact Hrun|]. rewrite Hfetch. split.
    + destruct n; [lia|]. discriminate.
    + apply Forall_map, Forall_forall. intros k _. split; reflexivity.
Qed.

Lemma sendChatCompletion_key_handling_witness :
  sendChatCompletion false (js "http://localhost") always_refused
    no_conversion 3 (js "m1") [mkMessage (js "user") (js "Hi")] [] [] []
  = Some (Throw (Error (js "API key is required")), [])
  /\ (exists result evs,
        sendChatCompletion true (js "http://localhost") always_refused
          no_conversion 3 (js "m1") [mkMessage (js "user") (js "Hi")]
          (js "key") [] [] = Some (result, [] ++ evs)
        /\ fetches evs <> []
        /\ Forall (fun request =>
                     request_endpoint request = js "/api/chat"
                     /\ request_headers request
                        = [(js "Content-Type", js "application/json")])
             (fetches evs))
  /\ (js "key" <> [] ->
      exists result evs,
        sendChatCompletion false (js "http://localhost") always_refused
          no_conversion 3 (js "m1") [mkMessage (js "user") (js "Hi")]
          (js "key") [] [] = Some (result, [] ++ evs)
        /\ fetches evs <> []
        /\ Forall (fun request =>
                     request_endpoint request
                     = js "https://openrouter.ai/api/v1/chat/completions"
                     /\ own_get (request_headers request) (js "Authorization")
                        = Some (js "Bearer " ++ js "key"))
             (fetches evs)).
Proof.
  apply (@sendChatCompletion_key_handling (js "http://localhost")
           always_refused no_conversion 3 (js "m1")
           [mkMessage (js "user") (js "Hi")] (js "key") [] []).
  lia.
Defined.

(** The properties of a spread: a name of [options] has the value it
    has there, any other name the value of the base. *)
Lemma spread_fold (V : Type) (entries : list (jsstring * V)) :
  forall (base : obj V) (name : jsstring),
    NoDup (map fst entries) ->
    own_get (fold_left (fun o e => obj_set o (fst e) (snd e)) entries base)
      name
    = match own_get entries name with
      | Some v => Some v
      | None => own_get base name
      end.
Proof.
  induction entries as [|[k v] entries IH]; intros base name Hnd;
    [reflexivity|].
  inversion Hnd as [|? ? Hk Hnd']; subst.
  cbn [fold_left fst snd own_get]. rewrite IH by exact Hnd'.
  destruct (str_eqb k name) eqn:E.
  - apply str_eqb_eq in E. subst name.
    destruct (own_get entries k) as [v'|] eqn:E'.
    + exfalso. apply Hk. eapply own_get_Some_In_keys; eauto.
    + apply own_get_set_same.
  - destruct (own_get entries name); [reflexivity|].
    apply own_get_set_other. now apply str_eqb_neq.
Qed.

Lemma spread_get (V : Type) (base options : obj V) (name : jsstring) :
  NoDup (map fst options) ->
  own_get (spread base options) name
  = match own_get options name with
    | Some v => Some v
    | None => own_get base name
    end.
Proof.
  intros Hnd. unfold spread. rewrite spread_fold.
  - destruct (own_get options name) as [v|] eqn:E.
    + apply own_get_In in E.
      apply (proj2 (Object_entries_In _ _)) in E.
      apply In_own_get in E; [now rewrite E|].
      apply Object_keys_NoDup. exact Hnd.
    + destruct (own_get (Object_entries options) name) as [v|] eqn:E';
        [|reflexivity].
      apply own_get_In in E'.
      apply (proj1 (Object_entries_In _ _)) in E'.
      apply In_own_get in E'; [congruence|exact Hnd].
  - apply Object_keys_NoDup. exact Hnd.
Qed.

(** X28.  Once the key is accepted, [sendChatCompletion] sends at least
    one and at most three requests, whatever the network answers, and
    its loop always ends by a [return] or a [throw] of its body: the
    last attempt written behind the loop is never reached.  The body of
    a request is the given model, the messages and 200 as token limit,
    with the properties of [options] written over them: a name that
    [options] has carries the value of [options], any other of the three
    its default, and without [options] the body is these three.  The
    first request carries the messages with the system instruction, each
    further one the messages of the one before with the retry instruction
    appended once more.  Three passes are all it takes: more fuel changes
    nothing. *)
Theorem sendChatCompletion_at_most_three_requests :
  forall (useProxy : bool) (origin : jsstring)
         (fetch : Log -> Request -> FetchOutcome)
         (ToString_other : JsValue -> JsResult jsstring) (fuel : nat)
         (modelId : jsstring) (messages : list Message) (apiKey : jsstring)
         (options : obj JsValue) (log : Log),
    useProxy = true \/ apiKey <> [] ->
    (3 <= fuel)%nat ->
    exists result evs n,
      sendChatCompletion useProxy origin fetch ToString_other fuel modelId
        messages apiKey options log = Some (result, log ++ evs)
      /\ (1 <= n <= 3)%nat
      /\ map request_body (fetches evs)
         = map (fun k =>
                  spread
                    [(js "model", VStr modelId);
                     (js "messages",
                      VArr (map message_value
                              (retry_prompt k
                                 (ensureConciseCompleteMessages messages))));
                     (js "max_tokens", VNum 200)]
                    options)
             (seq 0 n)
      /\ (NoDup (map fst options) ->
          forall k body name,
            nth_error (map request_body (fetches evs)) k = Some body ->
            own_get body name
            = match own_get options name with
              | Some v => Some v
              | None =>
                  own_get
                    [(js "model", VStr modelId);
                     (js "messages",
                      VArr (map message_value
                              (retry_prompt k
                                 (ensureConciseCompleteMessages messages))));
                     (js "max_tokens", VNum 200)]
                    name
              end)
      /\ (options = [] ->
          map request_body (fetches evs)
          = map (fun k =>
                   [(js "model", VStr modelId);
                    (js "messages",
                     VArr (map message_value
                             (retry_prompt k
                                (ensureConciseCompleteMessages messages))));
                    (js "max_tokens", VNum 200)])
              (seq 0 n))
      /\ send_loop useProxy origin fetch ToString_other fuel modelId apiKey
           options 0 (ensureConciseCompleteMessages messages) log
         = Some (Returned result, log ++ evs)
      /\ sendChatCompletion useProxy origin fetch ToString_other 3 modelId
           messages apiKey options log = Some (result, log ++ evs).
Proof.
  intros useProxy origin fetch ToString_other fuel modelId messages apiKey
    options log Hkey Hfuel.
  destruct (@sendChatCompletion_run useProxy origin fetch ToString_other 3
              modelId messages apiKey options log Hkey (Nat.le_refl 3))
    as (result & evs & n & Hrun & Hloop & Hn & Hfetch & _).
  pose proof (@send_loop_more_fuel useProxy origin fetch ToString_other
                modelId apiKey options 3 fuel 0 _ _ _ Hloop Hfuel) as Hmore.
  assert (Hbodies :
            map request_body (fetches evs)
            = map (fun k =>
                     spread
                       [(js "model", VStr modelId);
                        (js "messages",
                         VArr (map message_value
                                 (retry_prompt k
                                    (ensureConciseCompleteMessages messages))));
                        (js "max_tokens", VNum 200)]
                       options)
                (seq 0 n)).
  { rewrite Hfetch, map_map. reflexivity. }
  exists result, evs, n.
  split.
  { unfold sendChatCompletion in *.
    destruct (negb useProxy && match apiKey with [] => true | _ => false end);
      [exact Hrun|].
    cbv zeta. now rewrite Hmore. }
  split; [exact Hn|]. split; [exact Hbodies|]. split.
  { intros Hnd k body name Hk. rewrite Hbodies in Hk.
    rewrite nth_error_map in Hk.
    destruct (nth_error (seq 0 n) k) as [j|] eqn:Ej; [|discriminate].
    injection Hk as <-.
    assert (j = k).
    { assert (Hlt : (k < n)%nat).
      { rewrite <- (length_seq n 0%nat). apply nth_error_Some. congruence. }
      apply (nth_error_nth _ _ 0%nat) in Ej.
      now rewrite seq_nth in Ej by exact Hlt. }
    subst j. now apply spread_get. }
  split; [|split; [exact Hmore|exact Hrun]].
  intros ->. rewrite Hbodies. reflexivity.
Qed.

Lemma sendChatCompletion_at_most_three_requests_witness :
  exists result evs n,
    sendChatCompletion true (js "http://localhost") always_truncated
      no_conversion 5 (js "m1") [mkMessage (js "user") (js "Hi")] []
      [(js "max_tokens", VNum 500)] []
    = Some (result, [] ++ evs)
    /\ (1 <= n <= 3)%nat
    /\ map request_body (fetches evs)
       = map (fun k =>
                spread
                  [(js "model", VStr (js "m1"));
                   (js "messages",
                    VArr (map message_value
                            (retry_prompt k
                               (ensureConciseCompleteMessages
                                  [mkMessage (js "user") (js "Hi")]))));
                   (js "max_tokens", VNum 200)]
                  [(js "max_tokens", VNum 500)])
           (seq 0 n)
    /\ (NoDup (map fst [(js "max_tokens", VNum 500)]) ->
        forall k body name,
          nth_error (map request_body (fetches evs)) k = Some body ->
          own_get body name
          = match own_get [(js "max_tokens", VNum 500)] name with
            | Some v => Some v
            | None =>
                own_get
                  [(js "model", VStr (js "m1"));
                   (js "messages",
                    VArr (map message_value
                            (retry_prompt k
                               (ensureConciseCompleteMessages
                                  [mkMessage (js "user") (js "Hi")]))));
                   (js "max_tokens", VNum 200)]
                  name
            end)
    /\ ([(js "max_tokens", VNum 500)] = [] ->
        map request_body (fetches evs)
        = map (fun k =>
                 [(js "model", VStr (js "m1"));
                  (js "messages",
                   VArr (map message_value
                           (retry_prompt k
                              (ensureConciseCompleteMessages
                                 [mkMessage (js "user") (js "Hi")]))));
                  (js "max_tokens", VNum 200)])
            (seq 0 n))
    /\ send_loop true (js "http://localhost") always_truncated no_conversion
         5 (js "m1") [] [(js "max_tokens", VNum 500)] 0
         (ensureConciseCompleteMessages [mkMessage (js "user") (js "Hi")]) []
       = Some (Returned result, [] ++ evs)
    /\ sendChatCompletion true (js "http://localhost") always_truncated
         no_conversion 3 (js "m1") [mkMessage (js "user") (js "Hi")] []
         [(js "max_tokens", VNum 500)] []
       = Some (result, [] ++ evs).
Proof.
  apply (@sendChatCompletion_at_most_three_requests true
           (js "http://localhost") always_truncated no_conversion 5 (js "m1")
           [mkMessage (js "user") (js "Hi")] [] [(js "max_tokens", VNum 500)]
           []).
  - left. reflexivity.
  - lia.
Defined.

(** X29.  [sendChatCompletion] repeats a request only after a reply that
    was cut short: when the first response is rejected, not [ok], not
    readable or not truncated, there is exactly one request.  Data that is
    still truncated is returned only from the third request.  A result
    comes with no error line; an error is printed once, except that an
    error of a retry whose message holds [TRUNCATED] is thrown without
    being printed. *)
Theorem sendChatCompletion_retries_only_truncated :
  forall (useProxy : bool) (origin : jsstring)
         (fetch : Log -> Request -> FetchOutcome)
         (ToString_other : JsValue -> JsResult jsstring) (fuel : nat)
         (modelId : jsstring) (messages : list Message) (apiKey : jsstring)
         (options : obj JsValue) (log : Log),
    useProxy = true \/ apiKey <> [] ->
    (3 <= fuel)%nat ->
    exists result evs,
      sendChatCompletion useProxy origin fetch ToString_other fuel modelId
        messages apiKey options log = Some (result, log ++ evs)
      /\ (match fetch log
                  (request_for useProxy origin modelId
                     (ensureConciseCompleteMessages messages) apiKey options)
          with
          | Responded true _ (Ok data) => isTruncated data = false
          | _ => True
          end -> length (fetches evs) = 1%nat)
      /\ (forall data, result = Ok data ->
            printed evs = []
            /\ (isTruncated data = true -> length (fetches evs) = 3%nat))
      /\ (forall err, result = Throw err ->
            printed evs = [err]
            \/ (printed evs = [] /\ (2 <= length (fetches evs))%nat
                /\ includes (message_of err) (js "TRUNCATED") = true)).
Proof.
  intros useProxy origin fetch ToString_other fuel modelId messages apiKey
    options log Hkey Hfuel.
  destruct (@sendChatCompletion_run useProxy origin fetch ToString_other fuel
              modelId messages apiKey options log Hkey Hfuel)
    as (result & evs & n & Hrun & _ & Hn & Hfetch & _ & Hok & Herr & Hone).
  assert (Hlen : length (fetches evs) = n).
  { now rewrite Hfetch, length_map, length_seq. }
  exists result, evs. rewrite Hlen.
  split; [exact Hrun|]. split; [exact Hone|]. split; [exact Hok|exact Herr].
Qed.

Lemma sendChatCompletion_retries_only_truncated_witness :
  exists result evs,
    sendChatCompletion false (js "http://localhost") always_truncated
      no_conversion 3 (js "m1") [mkMessage (js "user") (js "Hi")] (js "key")
      [] [] = Some (result, [] ++ evs)
    /\ (match always_truncated []
                (request_for false (js "http://localhost") (js "m1")
                   (ensureConciseCompleteMessages
                      [mkMessage (js "user") (js "Hi")]) (js "key") []) with
        | Responded true _ (Ok data) => isTruncated data = false
        | _ => True
        end -> length (fetches evs) = 1%nat)
    /\ (forall data, result = Ok data ->
          printed evs = []
          /\ (isTruncated data = true -> length (fetches evs) = 3%nat))
    /\ (forall err, result = Throw err ->
          printed evs = [err]
          \/ (printed evs = [] /\ (2 <= length (fetches evs))%nat
              /\ includes (message_of err) (js "TRUNCATED") = true)).
Proof.
  apply (@sendChatCompletion_retries_only_truncated false
           (js "http://localhost") always_truncated no_conversion 3 (js "m1")
           [mkMessage (js "user") (js "Hi")] (js "key") [] []).
  - right. discriminate.
  - lia.
Defined.

(* ===================================================================== *)
(** * The performance store *)
(* ===================================================================== *)

(** The counts and totals of an entry fit together. *)
Lemma updateModelStats_entries (P : StatsEntry -> Prop)
  (modelStats modelStats' : obj StatsEntry) (record : InteractionRecord) :
  (forall stats : StatsEntry,
      (P stats
       \/ stats = mkStatsEntry (ir_modelId record) (ir_modelName record)
                    0 0 0 0 0 0 0 0 0 [] (ir_timestamp record)) ->
      forall taskTypes,
        P (mkStatsEntry (se_modelId stats) (se_modelName stats)
             (S (se_totalInteractions stats))
             (se_totalResponseTime stats + ir_responseTime record)
             (se_totalTokens stats + ir_totalTokens record)
             (se_totalCost stats + ir_cost record)
             (fst match ir_qualityScore record with
                  | Some q => (se_totalQualityScore stats + q,
                               S (se_qualityScoreCount stats))
                  | None => (se_totalQualityScore stats,
                             se_qualityScoreCount stats)
                  end)
             (snd match ir_qualityScore record with
                  | Some q => (se_totalQualityScore stats + q,
                               S (se_qualityScoreCount stats))
                  | None => (se_totalQualityScore stats,
                             se_qualityScoreCount stats)
                  end)
             (fst match ir_userRating record with
                  | Some u => (se_totalUserRating stats + u,
                               S (se_userRatingCount stats))
                  | None => (se_totalUserRating stats,
                             se_userRatingCount stats)
                  end)
             (snd match ir_userRating record with
                  | Some u => (se_totalUserRating stats + u,
                               S (se_userRatingCount stats))
                  | None => (se_totalUserRating stats,
                             se_userRatingCount stats)
                  end)
             match ir_error record with
             | Some _ => S (se_errorCount stats)
             | None => se_errorCount stats
             end
             taskTypes (ir_timestamp record))) ->
  Forall (fun e => P (snd e)) modelStats ->
  updateModelStats modelStats record = Ok modelStats' ->
  Forall (fun e => P (snd e)) modelStats'.
Proof.
  intros Hstep Hall Hrun. unfold updateModelStats in Hrun. cbv zeta in Hrun.
  unfold obj_get in Hrun.
  destruct (own_get modelStats (ir_modelId record)) as [entry|] eqn:E.
  - injection Hrun as <-. apply obj_set_values; [exact Hall|].
    apply own_get_In in E.
    exact (Hstep entry
             (or_introl (proj1 (Forall_forall _ _) Hall _ E)) _).
  - destruct (inherited (ir_modelId record)); [discriminate|].
    injection Hrun as <-. apply obj_set_values; [exact Hall|].
    exact (Hstep (mkStatsEntry (ir_modelId record) (ir_modelName record)
                    0 0 0 0 0 0 0 0 0 [] (ir_timestamp record))
             (or_intror eq_refl) _).
Qed.

Lemma number_or_null_range (x : option Q) :
  match x with Some q => 0 <= q /\ q <= 100 | None => True end ->
  match number_or_null x with
  | Some q => 0 < q /\ q <= 100
  | None => True
  end.
Proof.
  destruct x as [q|]; [|trivial]. intros [H0 H100]. unfold number_or_null.
  destruct (Qeq_bool q 0) eqn:E; [trivial|].
  split; [|exact H100].
  destruct (Qlt_le_dec 0 q) as [Hlt|Hle]; [exact Hlt|].
  assert (Hq : q == 0) by lra. apply Qeq_bool_iff in Hq. congruence.
Qed.

(** What recording keeps true of every entry of the store. *)
Lemma record_keeps_entries (rd : Readings) (i : Interaction) (store : Store) :
  scored_in_range i ->
  match store with
  | Some a =>
      Forall (fun e =>
                (se_errorCount (snd e) <= se_totalInteractions (snd e))%nat
                /\ (1 <= se_totalInteractions (snd e))%nat
                /\ 0 <= se_totalQualityScore (snd e)
                /\ se_totalQualityScore (snd e)
                   <= 100 * Q_of_nat (se_qualityScoreCount (snd e))
                /\ ((1 <= se_qualityScoreCount (snd e))%nat ->
                    0 < se_totalQualityScore (snd e)))
        (an_modelStats a)
  | None => True
  end ->
  match snd (recordInteraction rd i store) with
  | Some a =>
      Forall (fun e =>
                (se_errorCount (snd e) <= se_totalInteractions (snd e))%nat
                /\ (1 <= se_totalInteractions (snd e))%nat
                /\ 0 <= se_totalQualityScore (snd e)
                /\ se_totalQualityScore (snd e)
                   <= 100 * Q_of_nat (se_qualityScoreCount (snd e))
                /\ ((1 <= se_qualityScoreCount (snd e))%nat ->
                    0 < se_totalQualityScore (snd e)))
        (an_modelStats a)
  | None => True
  end.
Proof.
  intros Hscore Hstore. unfold recordInteraction.
  set (P := fun st : StatsEntry =>
              (se_errorCount st <= se_totalInteractions st)%nat
              /\ (1 <= se_totalInteractions st)%nat
              /\ 0 <= se_totalQualityScore st
              /\ se_totalQualityScore st
                 <= 100 * Q_of_nat (se_qualityScoreCount st)
              /\ ((1 <= se_qualityScoreCount st)%nat ->
                  0 < se_totalQualityScore st)).
  assert (Hread : match snd (getAnalytics rd store) with
                  | Some a => Forall (fun e => P (snd e)) (an_modelStats a)
                  | None => True
                  end
                  /\ Forall (fun e => P (snd e))
                       (an_modelStats (fst (getAnalytics rd store)))).
  { unfold getAnalytics. destruct store as [a|]; cbn [fst snd an_modelStats].
    - split; exact Hstore.
    - split; constructor. }
  destruct (getAnalytics rd store) as [analytics store1].
  cbn [fst snd] in Hread. destruct Hread as [Hstore1 Hanalytics]. cbv zeta.
  match goal with
  | |- context [updateModelStats _ ?r] => set (record := r)
  end.
  destruct (updateModelStats (an_modelStats analytics) record)
    as [modelStats|err] eqn:Eupd; [|exact Hstore1].
  destruct (updateTaskTypeStats (an_taskTypeStats analytics) record);
    [|exact Hstore1].
  cbn [snd an_modelStats].
  apply (@updateModelStats_entries P (an_modelStats analytics) modelStats
           record); [|exact Hanalytics|exact Eupd].
  pose proof (number_or_null_range (in_qualityScore i) Hscore) as Hq.
  change (number_or_null (in_qualityScore i)) with (ir_qualityScore record)
    in Hq.
  clearbody record.
  intros stats Hstats taskTypes. unfold P.
  cbn [se_errorCount se_totalInteractions se_totalQualityScore
       se_qualityScoreCount].
  assert (Hold : (se_errorCount stats <= se_totalInteractions stats)%nat
                 /\ 0 <= se_totalQualityScore stats
                 /\ se_totalQualityScore stats
                    <= 100 * Q_of_nat (se_qualityScoreCount stats)
                 /\ ((1 <= se_qualityScoreCount stats)%nat ->
                     0 < se_totalQualityScore stats)).
  { destruct Hstats as [(H1 & _ & H3 & H4 & H5)| ->]; [auto|].
    cbn [se_errorCount se_totalInteractions se_totalQualityScore
         se_qualityScoreCount].
    change (Q_of_nat 0) with 0.
    split; [lia|]. split; [lra|]. split; [lra|]. intros H. lia. }
  destruct Hold as (He & Ht0 & Ht100 & Htpos).
  split; [destruct (ir_error record); lia|]. split; [lia|].
  destruct (ir_qualityScore record) as [q|]; cbn [fst snd].
  - destruct Hq as [Hq0 Hq100]. rewrite Q_of_nat_S.
    split; [lra|]. split; [lra|]. intros _. lra.
  - auto.
Qed.

Lemma record_all_keeps_entries (calls : list (Readings * Interaction)) :
  forall store : Store,
    Forall (fun call => scored_in_range (snd call)) calls ->
    match store with
    | Some a =>
        Forall (fun e =>
                  (se_errorCount (snd e) <= se_totalInteractions (snd e))%nat
                  /\ (1 <= se_totalInteractions (snd e))%nat
                  /\ 0 <= se_totalQualityScore (snd e)
                  /\ se_totalQualityScore (snd e)
                     <= 100 * Q_of_nat (se_qualityScoreCount (snd e))
                  /\ ((1 <= se_qualityScoreCount (snd e))%nat ->
                      0 < se_totalQualityScore (snd e)))
          (an_modelStats a)
    | None => True
    end ->
    match record_all calls store with
    | Some a =>
        Forall (fun e =>
                  (se_errorCount (snd e) <= se_totalInteractions (snd e))%nat
                  /\ (1 <= se_totalInteractions (snd e))%nat
                  /\ 0 <= se_totalQualityScore (snd e)
                  /\ se_totalQualityScore (snd e)
                     <= 100 * Q_of_nat (se_qualityScoreCount (snd e))
                  /\ ((1 <= se_qualityScoreCount (snd e))%nat ->
                      0 < se_totalQualityScore (snd e)))
          (an_modelStats a)
    | None => True
    end.
Proof.
  unfold record_all.
  induction calls as [|[rd i] calls IH]; intros store Hcalls Hstore;
    [exact Hstore|].
  inversion Hcalls as [|? ? Hi Hrest]; subst. cbn [fold_left fst snd].
  apply IH; [exact Hrest|]. now apply record_keeps_entries.
Qed.

(** X30.  Whatever interactions were recorded since the store was
    absent, if every quality score given lay between 0 and 100 then every
    element of [getAllModelStats()] has an error rate between 0 and 1 and
    an average quality that is absent or above 0 and at most 100: a score
    of 0 is stored as absent and does not count.  So the aggregator never
    meets an average of 0, and the weight it derives for a ranking lies
    between 0.5 and 1.5. *)
Theorem recorded_stats_in_range :
  forall (calls : list (Readings * Interaction)) (rd : Readings)
         (useWeighted : bool) (r : Ranking),
    Forall (fun call => scored_in_range (snd call)) calls ->
    Forall (fun s =>
              stats_in_range s
              /\ match avgQualityScore s with
                 | Some q => 0 < q
                 | None => True
                 end)
      (map read_by_council
         (fst (getAllModelStats rd (record_all calls None))))
    /\ 1 # 2 <= modelWeight_of useWeighted
                  (map read_by_council
                     (fst (getAllModelStats rd (record_all calls None)))) r
    /\ modelWeight_of useWeighted
         (map read_by_council
            (fst (getAllModelStats rd (record_all calls None)))) r <= 3 # 2.
Proof.
  intros calls rd useW r Hcalls.
  assert (Hall : Forall (fun s =>
                           stats_in_range s
                           /\ match avgQualityScore s with
                              | Some q => 0 < q
                              | None => True
                              end)
                   (map read_by_council
                      (fst (getAllModelStats rd (record_all calls None))))).
  { pose proof (@record_all_keeps_entries calls None Hcalls I) as Hinv.
    unfold getAllModelStats, getAnalytics.
    destruct (record_all calls None) as [a|]; cbn [fst an_modelStats];
      [|constructor].
    rewrite map_map. apply Forall_map, Forall_forall. intros st Hst.
    unfold Object_values in Hst. apply in_map_iff in Hst.
    destruct Hst as ([k st'] & <- & Hin). cbn [snd].
    apply (proj1 (Object_entries_In _ _)) in Hin.
    pose proof (proj1 (Forall_forall _ _) Hinv _ Hin)
      as (He & Hn & Ht0 & Ht100 & Htpos).
    cbn [snd] in *.
    unfold read_by_council, stats_in_range.
    cbn [fst snd avgQualityScore errorRate av_avgQualityScore av_errorRate].
    replace (0 <? se_totalInteractions st')%nat with true
      by (symmetry; apply Nat.ltb_lt; lia).
    assert (Hnq : 0 < Q_of_nat (se_totalInteractions st'))
      by (apply Q_of_nat_pos; lia).
    assert (Herr : 0 <= Q_of_nat (se_errorCount st')
                        / Q_of_nat (se_totalInteractions st')
                   /\ Q_of_nat (se_errorCount st')
                      / Q_of_nat (se_totalInteractions st') <= 1).
    { split.
      - apply Qle_shift_div_l; [exact Hnq|].
        pose proof (Q_of_nat_nonneg (se_errorCount st')). lra.
      - apply Qle_shift_div_r; [exact Hnq|].
        unfold Q_of_nat. rewrite Qmult_1_l, <- Zle_Qle. lia. }
    destruct (Nat.ltb_spec 0 (se_qualityScoreCount st')) as [Hc|Hc].
    - assert (Hcq : 0 < Q_of_nat (se_qualityScoreCount st'))
        by (apply Q_of_nat_pos; lia).
      specialize (Htpos Hc).
      split; [split; [split|exact Herr]|].
      + apply Qle_shift_div_l; [exact Hcq|]. lra.
      + apply Qle_shift_div_r; [exact Hcq|]. lra.
      + apply Qlt_shift_div_l; [exact Hcq|]. lra.
    - split; [split; [exact I|exact Herr]|exact I]. }
  split; [exact Hall|].
  apply modelWeight_bounds. eapply Forall_impl; [|exact Hall].
  intros s [Hs _]. exact Hs.
Qed.

Lemma recorded_stats_in_range_witness :
  Forall (fun s =>
            stats_in_range s
            /\ match avgQualityScore s with
               | Some q => 0 < q
               | None => True
               end)
    (map read_by_council
       (fst (getAllModelStats (at_time 4000)
               (record_all three_interactions None))))
  /\ 1 # 2 <= modelWeight_of true
                (map read_by_council
                   (fst (getAllModelStats (at_time 4000)
                           (record_all three_interactions None))))
                (vote "m2" [js "Response A"; js "Response B"])
  /\ modelWeight_of true
       (map read_by_council
          (fst (getAllModelStats (at_time 4000)
                  (record_all three_interactions None))))
       (vote "m2" [js "Response A"; js "Response B"]) <= 3 # 2.
Proof.
  apply (@recorded_stats_in_range three_interactions (at_time 4000) true
           (vote "m2" [js "Response A"; js "Response B"])).
  repeat constructor; vm_compute; discriminate.
Defined.

(** ** Worked examples of the client and the store *)

(** A network that keeps cutting the reply short is asked three times;
    the third reply is returned as it is. *)
Example sendChatCompletion_always_truncated :
  exists log,
    sendChatCompletion false (js "http://localhost") always_truncated
      no_conversion 3 (js "m1") [mkMessage (js "user") (js "Hi")] (js "key")
      [] [] = Some (Ok (reply "Too long to" "length"), log)
    /\ length (fetches log) = 3%nat
    /\ printed log = []
    /\ fst (extractMessageContent (reply "Too long to" "length") [])
       = VStr (js "Too long to").
Proof.
  eexists. split; [vm_compute; reflexivity|].
  repeat split; reflexivity.
Qed.

(** Options are written over the defaults of the body and may add to
    them. *)
Example requestBody_with_options :
  requestBody (js "m1") [mkMessage (js "user") (js "Hi")]
    [(js "temperature", VNum (7 # 10)); (js "max_tokens", VNum 500)]
  = [(js "model", VStr (js "m1"));
     (js "messages",
      VArr [VObj [(js "role", VStr (js "user"));
                  (js "content", VStr (js "Hi"))]]);
     (js "max_tokens", VNum 500);
     (js "temperature", VNum (7 # 10))].
Proof. reflexivity. Qed.

(** A refused request is not repeated: the message of the reply is
    thrown and printed. *)
Example sendChatCompletion_refused :
  sendChatCompletion false (js "http://localhost") always_refused
    no_conversion 3 (js "m1") [mkMessage (js "user") (js "Hi")] (js "key") []
    []
  = Some (Throw (Error (js "No auth")),
          [Fetch (request_for false (js "http://localhost") (js "m1")
                    (ensureConciseCompleteMessages
                       [mkMessage (js "user") (js "Hi")]) (js "key") []);
           LogError (js "OpenRouter API error:") (Error (js "No auth"))]).
Proof. vm_compute. reflexivity. Qed.

(** Three interactions: the failed one, scored 0, counts as an error of
    its model and leaves that model without an average quality. *)
Example getAllModelStats_three_interactions :
  map read_by_council
    (fst (getAllModelStats (at_time 4000)
            (record_all three_interactions None)))
  = [mkStats (js "m1") (Some (160 / 2)) (0 / 2);
     mkStats (js "m2") None (1 / 1)].
Proof. vm_compute. reflexivity. Qed.

(** The quality heuristic at its two ends. *)
Example calculateQualityScore_extremes :
  calculateQualityScore (js "Short") (Some 40000) false = 20%Z
  /\ calculateQualityScore
       (js "Is this a well formed answer with enough words to pass fifty code units?"
        ++ nl ++ js "Yes!") (Some 1200) false = 90%Z.
Proof. split; vm_compute; reflexivity. Qed.
